(** * Variational Monte Carlo with a neural-network quantum state

    A shallow embedding of the sampler of Carleo and Troyer's NQS code
    ([nqs.cc], [ising1d.cc], [heisenberg1d.cc], [heisenberg2d.cc],
    [sampler.cc]) together with the properties of its specification.

    Conventions of the embedding.
    - A C++ [double] is a real number of [R]: arithmetic is exact, there is
      no rounding, no infinity and no NaN.  A [std::complex<double>] is a
      pair of reals.
    - An [int] holding a spin or a lattice index is an integer of [Z]; an
      index into a [std::vector] is a [nat]; reading a vector out of range
      (undefined in C++) yields the default element, writing out of range
      leaves the vector as it is.
    - A [for] loop over an integer range is a [fold_left] over [seq].
    - [std::abort] is a result [Aborted] carrying the message and the object
      as it was when the process died.
    - The Mersenne twister with its two distributions is an abstract
      generator state with two drawing functions. *)

From Stdlib Require Import String Ascii.
From Stdlib Require Import Reals Lra Lia List ZArith Bool Permutation.
Import ListNotations.

(* ================================================================== *)
(** * Part I: the program                                              *)
(* ================================================================== *)

(** ** Vectors *)

(** [v[i] = x] on a [std::vector]. *)
Fixpoint vset {A : Type} (l : list A) (i : nat) (x : A) : list A :=
  match l, i with
  | [], _ => []
  | _ :: t, O => x :: t
  | h :: t, S j => h :: vset t j x
  end.

(** [v.resize(n, d)]: keep the first [n] elements, pad with [d]. *)
Fixpoint vresize {A : Type} (l : list A) (n : nat) (d : A) : list A :=
  match n with
  | O => []
  | S m => match l with
           | [] => d :: vresize [] m d
           | h :: t => h :: vresize t m d
           end
  end.

(** ** Complex numbers, [std::complex<double>] *)

Module Cplx.

Open Scope R_scope.

Record C : Type := mk { re : R; im : R }.

Definition zero : C := mk 0 0.
Definition of_real (x : R) : C := mk x 0.
Definition add (z w : C) : C := mk (re z + re w) (im z + im w).
Definition sub (z w : C) : C := mk (re z - re w) (im z - im w).
Definition mul (z w : C) : C :=
  mk (re z * re w - im z * im w) (re z * im w + im z * re w).
(** [complex * double] and [double * complex]. *)
Definition scale_r (z : C) (d : R) : C := mk (re z * d) (im z * d).
Definition scale_l (d : R) (z : C) : C := mk (d * re z) (d * im z).

(** [std::norm]: the squared modulus. *)
Definition norm (z : C) : R := re z * re z + im z * im z.

(** [std::exp]. *)
Definition cexp (z : C) : C :=
  mk (exp (re z) * cos (im z)) (exp (re z) * sin (im z)).

(** [atan2], the argument with values in (-PI, PI]. *)
Definition atan2 (y x : R) : R :=
  if Rlt_dec 0 x then atan (y / x)
  else if Rlt_dec x 0 then
         if Rle_dec 0 y then atan (y / x) + PI else atan (y / x) - PI
       else if Rlt_dec 0 y then PI / 2
            else if Rlt_dec y 0 then - (PI / 2) else 0.

(** [std::log], principal branch. *)
Definition clog (z : C) : C :=
  mk (ln (sqrt (norm z))) (atan2 (im z) (re z)).

(** Sum of a list, left to right from zero. *)
Definition sum (l : list C) : C := fold_left add l zero.

End Cplx.

Abbreviation C := Cplx.C.

Declare Scope cplx_scope.
Delimit Scope cplx_scope with C.
Bind Scope cplx_scope with Cplx.C.
Infix "+" := Cplx.add : cplx_scope.
Infix "-" := Cplx.sub : cplx_scope.
Infix "*" := Cplx.mul : cplx_scope.

(** Sum of a list of reals, left to right from zero. *)
Definition Rsum (l : list R) : R := fold_left Rplus l 0%R.

(** ** The wave function, [class Nqs] *)

Module Nqs.

Open Scope R_scope.

Record t : Type := mk {
  W_ : list (list C);   (* weights, [nv_] rows of [nh_] entries *)
  a_ : list C;          (* visible bias *)
  b_ : list C;          (* hidden bias *)
  nh_ : nat;
  nv_ : nat;
  Lt_ : list C          (* look-up table *)
}.

Definition set_Lt (wf : t) (lt : list C) : t :=
  mk (W_ wf) (a_ wf) (b_ wf) (nh_ wf) (nv_ wf) lt.

(** What [LoadParameters] establishes. *)
Definition loaded (wf : t) : Prop :=
  length (a_ wf) = nv_ wf /\ length (b_ wf) = nh_ wf /\
  length (W_ wf) = nv_ wf /\ Forall (fun row => length row = nh_ wf) (W_ wf).

Definition a_at (wf : t) (v : nat) : C := nth v (a_ wf) Cplx.zero.
Definition b_at (wf : t) (h : nat) : C := nth h (b_ wf) Cplx.zero.
Definition W_at (wf : t) (v h : nat) : C := nth h (nth v (W_ wf) []) Cplx.zero.
Definition Lt_at (wf : t) (h : nat) : C := nth h (Lt_ wf) Cplx.zero.

(** [double(state[v])]. *)
Definition spin (state : list Z) (v : nat) : R := IZR (nth v state 0%Z).

Definition log2_ : R := ln 2.

(** [double lncosh(double x)]. *)
Definition lncosh (x : R) : R :=
  let xp := Rabs x in
  if Rle_dec xp 12 then ln (cosh xp) else xp - log2_.

(** The drop of [lncosh] on crossing its cutoff, and an argument just
    above the cutoff. *)
Definition cutoff_gap : R := ln (1 + exp (-24)).
Definition just_above_cutoff : R := 12 + cutoff_gap / 2.

(** [std::complex<double> lncosh(std::complex<double> x)].  Its imaginary
    part is an angle of [std::log]: where the argument of the logarithm is
    on the negative real axis, an error of the argument as small as one
    likes moves it by 2 PI.  What is said of it is said modulo 2 PI, or of
    its exponential. *)
Definition lncoshC (x : C) : C :=
  let xr := Cplx.re x in
  let xi := Cplx.im x in
  let res := Cplx.of_real (lncosh xr) in
  (res + Cplx.clog (Cplx.mk (cos xi) (tanh xr * sin xi)))%C.

(** The inner loop shared by [LogVal] and [InitLt]:
    [thetah = b_[h]; for v: thetah += double(state[v]) * W_[v][h]]. *)
Definition theta (wf : t) (state : list Z) (h : nat) : C :=
  fold_left (fun thetah v => (thetah + Cplx.scale_l (spin state v) (W_at wf v h))%C)
            (seq 0 (nv_ wf)) (b_at wf h).

Definition LogVal (wf : t) (state : list Z) : C :=
  let rbm :=
    fold_left (fun rbm v => (rbm + Cplx.scale_r (a_at wf v) (spin state v))%C)
              (seq 0 (nv_ wf)) Cplx.zero in
  fold_left (fun rbm h => (rbm + lncoshC (theta wf state h))%C)
            (seq 0 (nh_ wf)) rbm.

Definition LogPoP (wf : t) (state : list Z) (flips : list nat) : C :=
  match flips with
  | [] => Cplx.zero
  | _ =>
    let logpop :=
      fold_left (fun logpop flip =>
                   (logpop - Cplx.scale_r (Cplx.scale_r (a_at wf flip) 2) (spin state flip))%C)
                flips Cplx.zero in
    fold_left (fun logpop h =>
                 let thetah := Lt_at wf h in
                 let thetahp :=
                   fold_left (fun thetahp flip =>
                                (thetahp - Cplx.scale_l (2 * spin state flip) (W_at wf flip h))%C)
                             flips thetah in
                 (logpop + (lncoshC thetahp - lncoshC thetah))%C)
              (seq 0 (nh_ wf)) logpop
  end.

Definition PoP (wf : t) (state : list Z) (flips : list nat) : C :=
  Cplx.cexp (LogPoP wf state flips).

Definition InitLt (wf : t) (state : list Z) : t :=
  let lt := vresize (Lt_ wf) (nh_ wf) Cplx.zero in
  set_Lt wf
    (fold_left (fun lt h => vset lt h (theta wf state h)) (seq 0 (nh_ wf)) lt).

Definition UpdateLt (wf : t) (state : list Z) (flips : list nat) : t :=
  match flips with
  | [] => wf
  | _ =>
    set_Lt wf
      (fold_left
         (fun lt h =>
            fold_left
              (fun lt flip =>
                 vset lt h
                   (nth h lt Cplx.zero
                    - Cplx.scale_l (2 * spin state flip) (W_at wf flip h))%C)
              flips lt)
         (seq 0 (nh_ wf)) (Lt_ wf))
  end.

Definition Nspins (wf : t) : nat := nv_ wf.

(** The formula of the data model:
    Lt[h] = b[h] + sum over v of state[v] * W[v][h]. *)
Definition theta_spec (wf : t) (state : list Z) (h : nat) : C :=
  (b_at wf h
   + Cplx.sum (map (fun v => Cplx.scale_l (spin state v) (W_at wf v h))
                   (seq 0 (nv_ wf))))%C.

(** The table a full recomputation on [state] yields. *)
Definition fresh_Lt (wf : t) (state : list Z) : list C :=
  Lt_ (InitLt wf state).

(** The look-up table agrees with the configuration. *)
Definition coherent (wf : t) (state : list Z) : Prop :=
  length (Lt_ wf) = nh_ wf /\
  forall h, (h < nh_ wf)%nat -> Lt_at wf h = theta wf state h.

(** [wf'] has the weights, the biases and the sizes of [wf]; only the
    look-up table may differ. *)
Definition same_parameters (wf wf' : t) : Prop :=
  W_ wf' = W_ wf /\ a_ wf' = a_ wf /\ b_ wf' = b_ wf /\
  nh_ wf' = nh_ wf /\ nv_ wf' = nv_ wf.

(** The table of the data model on [state], entry by entry from the
    parameters. *)
Definition table_spec (wf : t) (state : list Z) : list C :=
  map (theta_spec wf state) (seq 0 (nh_ wf)).

End Nqs.

(** ** Spin configurations and flips *)

(** The loop of [Move]: [for flip in flips: state[flip] *= -1]. *)
Definition flip_sites (state : list Z) (flips : list nat) : list Z :=
  fold_left (fun st flip => vset st flip (nth flip st 0 * -1)%Z) flips state.

(** A flip set for [n] spins: distinct sites, all on the lattice. *)
Definition flip_set (n : nat) (flips : list nat) : Prop :=
  NoDup flips /\ Forall (fun f => (f < n)%nat) flips.

(** A configuration of [n] spins: [n] values, each 1 or -1. *)
Definition is_config (n : nat) (state : list Z) : Prop :=
  length state = n /\ Forall (fun s => s = 1%Z \/ s = (-1)%Z) state.

(** Accepted moves one after the other: each [UpdateLt] sees the
    configuration before its flips, then the sites are flipped. *)
Fixpoint apply_flips (wf : Nqs.t) (state : list Z) (moves : list (list nat))
  : Nqs.t * list Z :=
  match moves with
  | [] => (wf, state)
  | flips :: rest =>
    apply_flips (Nqs.UpdateLt wf state flips) (flip_sites state flips) rest
  end.

(** ** The Hamiltonians *)

(** What the sampler asks of its [Hamiltonian] template parameter.
    [FindConn] receives the caller's two vectors and returns them as it
    leaves them: the flip lists and the matrix elements. *)
Class Hamiltonian (H : Type) : Type := {
  FindConn : H -> list Z -> list (list nat) -> list C -> list (list nat) * list C;
  MinFlips : H -> Z
}.

(** [state[i]] on a configuration. *)
Definition spin_at (state : list Z) (i : nat) : Z := nth i state 0%Z.

(** Transverse-field Ising chain, [class Ising1d]. *)
Module Ising1d.

Record t : Type := mk {
  nspins_ : nat;
  hfield_ : R;
  pbc_ : bool;
  mel_ : list C;
  flipsh_ : list (list nat)
}.

Definition Init (nspins : nat) (hfield : R) (pbc : bool) : t :=
  let mel := vresize [] (nspins + 1) Cplx.zero in
  let flipsh := vresize [] (nspins + 1) [] in
  let '(mel, flipsh) :=
    fold_left (fun '(mel, flipsh) i =>
                 (vset mel (i + 1) (Cplx.of_real (- hfield)),
                  vset flipsh (i + 1) [i]))
              (seq 0 nspins) (mel, flipsh) in
  mk nspins hfield pbc mel flipsh.

Definition FindConn (ham : t) (state : list Z)
    (flipsh : list (list nat)) (mel : list C) : list (list nat) * list C :=
  let mel := mel_ ham in
  let flipsh := flipsh_ ham in
  let mel := vset mel 0 Cplx.zero in
  let mel :=
    fold_left (fun mel i =>
                 vset mel 0 (nth 0 mel Cplx.zero
                             - Cplx.of_real (IZR (spin_at state i * spin_at state (i + 1))))%C)
              (seq 0 (nspins_ ham - 1)) mel in
  let mel :=
    if pbc_ ham
    then vset mel 0 (nth 0 mel Cplx.zero
                     - Cplx.of_real (IZR (spin_at state (nspins_ ham - 1) * spin_at state 0)))%C
    else mel in
  (flipsh, mel).

Definition MinFlips (ham : t) : Z := 1.

End Ising1d.

#[export] Instance Ising1d_Hamiltonian : Hamiltonian Ising1d.t :=
  {| FindConn := Ising1d.FindConn; MinFlips := Ising1d.MinFlips |}.

(** Antiferromagnetic Heisenberg chain, [class Heisenberg1d]. *)
Module Heisenberg1d.

Record t : Type := mk {
  nspins_ : nat;
  pbc_ : bool;
  jz_ : R
}.

(** The first half of [FindConn]: the diagonal element [mel[0]]. *)
Definition diagonal (ham : t) (state : list Z) : C :=
  let mel0 := Cplx.zero in
  let mel0 :=
    fold_left (fun mel0 i =>
                 (mel0 + Cplx.of_real (IZR (spin_at state i * spin_at state (i + 1))))%C)
              (seq 0 (nspins_ ham - 1)) mel0 in
  let mel0 :=
    if pbc_ ham
    then (mel0 + Cplx.of_real (IZR (spin_at state (nspins_ ham - 1) * spin_at state 0)))%C
    else mel0 in
  Cplx.scale_r mel0 (jz_ ham).

Definition FindConn (ham : t) (state : list Z)
    (flipsh : list (list nat)) (mel : list C) : list (list nat) * list C :=
  let mel := vresize mel 1 Cplx.zero in
  let flipsh := vresize flipsh 1 [] in
  let mel := vset mel 0 (diagonal ham state) in
  let '(mel, flipsh) :=
    fold_left (fun '(mel, flipsh) i =>
                 if (spin_at state i =? spin_at state (i + 1))%Z
                 then (mel, flipsh)
                 else (mel ++ [Cplx.of_real (-2)], flipsh ++ [[i; (i + 1)%nat]]))
              (seq 0 (nspins_ ham - 1)) (mel, flipsh) in
  let '(mel, flipsh) :=
    if pbc_ ham
    then if (spin_at state (nspins_ ham - 1) =? spin_at state 0)%Z
         then (mel, flipsh)
         else (mel ++ [Cplx.of_real (-2)], flipsh ++ [[(nspins_ ham - 1)%nat; 0%nat]])
    else (mel, flipsh) in
  (flipsh, mel).

Definition MinFlips (ham : t) : Z := 2.

(** The bonds the two loops of [FindConn] run over. *)
Definition bonds (ham : t) : list (nat * nat) :=
  map (fun i => (i, (i + 1)%nat)) (seq 0 (nspins_ ham - 1))
  ++ (if pbc_ ham then [((nspins_ ham - 1)%nat, 0%nat)] else []).

End Heisenberg1d.

#[export] Instance Heisenberg1d_Hamiltonian : Hamiltonian Heisenberg1d.t :=
  {| FindConn := Heisenberg1d.FindConn; MinFlips := Heisenberg1d.MinFlips |}.

(** What a fatal error leaves behind. *)
Inductive outcome (A : Type) : Type :=
| Done (a : A)
| Aborted (msg : string) (a : A)
| OutOfFuel.
Arguments Done {A} a.
Arguments Aborted {A} msg a.
Arguments OutOfFuel {A}.

(** Antiferromagnetic Heisenberg model on the square lattice,
    [class Heisenberg2d]. *)
Module Heisenberg2d.

Open Scope Z_scope.

Record t : Type := mk {
  nspins_ : Z;
  l_ : Z;
  pbc_ : bool;
  jz_ : R;
  nn_ : list (list Z);
  bonds_ : list (Z * Z)
}.

(** C++ [%] truncates towards zero: [Z.rem]. *)
Definition PbcH (l nn s : Z) : Z :=
  if (Z.rem s l =? 0) && (nn =? s - 1) then s + l - 1
  else if (Z.rem (s + 1) l =? 0) && (nn =? s + 1) then s - l + 1
  else nn.

Definition PbcV (nspins nn : Z) : Z :=
  if nn >=? nspins then nn - nspins
  else if nn <? 0 then nspins + nn
  else nn.

Definition H (l nn s : Z) : Z :=
  if (Z.rem s l =? 0) && (nn =? s - 1) then -1
  else if (Z.rem (s + 1) l =? 0) && (nn =? s + 1) then -1
  else nn.

Definition V (nspins nn : Z) : Z :=
  if nn >=? nspins then -1
  else if nn <? 0 then -1
  else nn.

(** The four neighbours of site [i]: left, right, up, down. *)
Definition neighbours (nspins l : Z) (pbc : bool) (i : Z) : list Z :=
  [ if pbc then PbcH l (i - 1) i else H l (i - 1) i;
    if pbc then PbcH l (i + 1) i else H l (i + 1) i;
    if pbc then PbcV nspins (i - l) else V nspins (i - l);
    if pbc then PbcV nspins (i + l) else V nspins (i + l) ].

(** The sites [0 .. nspins-1] of a loop [for(int i=0;i<nspins;i++)]. *)
Definition sites (nspins : Z) : list Z :=
  map Z.of_nat (seq 0 (Z.to_nat nspins)).

(** The second loop of [InitLattice]. *)
Definition make_bonds (nspins : Z) (nn : list (list Z)) : list (Z * Z) :=
  fold_left (fun bonds i =>
               fold_left (fun bonds k =>
                            let j := nth k (nth (Z.to_nat i) nn []) 0 in
                            if i <? j then bonds ++ [(i, j)] else bonds)
                         (seq 0 4) bonds)
            (sites nspins) [].

Definition InitLattice (ham : t) : outcome t :=
  if negb (l_ ham * l_ ham =? nspins_ ham)
  then Aborted "# Error , the number of spins is not compabitle with a square lattice " ham
  else
    let nn := map (neighbours (nspins_ ham) (l_ ham) (pbc_ ham)) (sites (nspins_ ham)) in
    Done (mk (nspins_ ham) (l_ ham) (pbc_ ham) (jz_ ham) nn
             (make_bonds (nspins_ ham) nn)).

(** The constructor; [l_] is the integer part of the square root. *)
Definition make (nspins : Z) (jz : R) (pbc : bool) : outcome t :=
  InitLattice (mk nspins (Z.sqrt nspins) pbc jz [] []).

Definition spin_atZ (state : list Z) (i : Z) : Z := nth (Z.to_nat i) state 0.

(** The first half of [FindConn]: the diagonal element [mel[0]]. *)
Definition diagonal (ham : t) (state : list Z) : C :=
  let mel0 :=
    fold_left (fun mel0 i =>
                 let b := nth i (bonds_ ham) (0, 0) in
                 (mel0 + Cplx.of_real (IZR (spin_atZ state (fst b) * spin_atZ state (snd b))))%C)
              (seq 0 (length (bonds_ ham))) Cplx.zero in
  Cplx.scale_r mel0 (jz_ ham).

Definition FindConn (ham : t) (state : list Z)
    (flipsh : list (list nat)) (mel : list C) : list (list nat) * list C :=
  let mel := vresize mel 1 Cplx.zero in
  let flipsh := vresize flipsh 1 [] in
  let mel := vset mel 0 (diagonal ham state) in
  let '(mel, flipsh) :=
    fold_left (fun '(mel, flipsh) i =>
                 let si := fst (nth i (bonds_ ham) (0, 0)) in
                 let sj := snd (nth i (bonds_ ham) (0, 0)) in
                 if spin_atZ state si =? spin_atZ state sj
                 then (mel, flipsh)
                 else (mel ++ [Cplx.of_real (-2)],
                       flipsh ++ [[Z.to_nat si; Z.to_nat sj]]))
              (seq 0 (length (bonds_ ham))) (mel, flipsh) in
  (flipsh, mel).

Definition MinFlips (ham : t) : Z := 2.

End Heisenberg2d.

#[export] Instance Heisenberg2d_Hamiltonian : Hamiltonian Heisenberg2d.t :=
  {| FindConn := Heisenberg2d.FindConn; MinFlips := Heisenberg2d.MinFlips |}.

(** ** The sampler, [class Sampler] *)

(** The number of turns of [for(double n=0; n<x; n+=1)]: the number of
    naturals below [x]. *)
Definition sweep_count (x : R) : nat := Z.to_nat (1 - up (- x)).

(** What [OutputEnergy] prints. *)
Module Report.

Record t : Type := mk {
  estav : R;        (* estimated average energy per spin *)
  esterror : R;     (* its error *)
  nblocks : nat;    (* number of bins *)
  blocksize : nat;  (* block size *)
  autocorr : R      (* estimated autocorrelation time *)
}.

End Report.

(** The estimator in the words of its description: the retained samples,
    their blocks, means and sample variances. *)
Module Estimator.

Definition mean (l : list R) : R := (Rsum l / INR (length l))%R.

(** Sample variance, divisor one less than the number of values. *)
Definition sample_variance (l : list R) : R :=
  (Rsum (map (fun x => (x - mean l) * (x - mean l))%R l) / (INR (length l) - 1))%R.

Definition nblocks : nat := 50.

Definition blocksize (samples : list R) : nat := Nat.div (length samples) nblocks.

(** The samples kept: the first [nblocks * blocksize]. *)
Definition retained (samples : list R) : list R :=
  firstn (nblocks * blocksize samples) samples.

(** Block [i]: [blocksize] contiguous samples from [i * blocksize] on. *)
Definition block (samples : list R) (i : nat) : list R :=
  firstn (blocksize samples) (skipn (i * blocksize samples) samples).

Definition block_means (samples : list R) : list R :=
  map (fun i => mean (block samples i)) (seq 0 nblocks).

(** The invariant of Welford's recurrence after [k] values of [x]:
    the running mean times [k] is their sum, and the running sum of
    squared deviations is the sum of squares less [k] times the mean
    squared. *)
Definition welford_inv (x : nat -> R) (k : nat) (mu m2 : R) : Prop :=
  (INR k * mu = Rsum (map x (seq 0 k)) /\
   m2 = Rsum (map (fun j => x j * x j) (seq 0 k)) - INR k * (mu * mu))%R.

(** The mean of block [i] of the samples [x] read by index. *)
Definition block_mean_of (x : nat -> R) (bs i : nat) : R :=
  (Rsum (map x (seq (i * bs) bs)) / INR bs)%R.

End Estimator.

Module Sampler.

Section WithGenerator.

(** The state of [std::mt19937] and the two distributions drawing from
    it: [distu_(gen_)] on [0,1) and [distn_(gen_)] on [0, nspins_-1]. *)
Context {G : Type} (distu_ : G -> R * G) (distn_ : G -> nat * G).

Context {H : Type} `{Hamiltonian H}.

Record t : Type := mk {
  wf_ : Nqs.t;
  hamiltonian_ : H;
  nspins_ : nat;
  state_ : list Z;
  gen_ : G;
  accept_ : R;
  nmoves_ : R;
  flips_ : list nat;
  writestates_ : bool;
  filestates_ : list (list Z);   (* the lines written so far *)
  mel_ : list C;
  flipsh_ : list (list nat);
  energy_ : list C
}.

Definition set_wf (s : t) (wf : Nqs.t) : t :=
  mk wf (hamiltonian_ s) (nspins_ s) (state_ s) (gen_ s) (accept_ s) (nmoves_ s)
     (flips_ s) (writestates_ s) (filestates_ s) (mel_ s) (flipsh_ s) (energy_ s).
Definition set_state (s : t) (state : list Z) : t :=
  mk (wf_ s) (hamiltonian_ s) (nspins_ s) state (gen_ s) (accept_ s) (nmoves_ s)
     (flips_ s) (writestates_ s) (filestates_ s) (mel_ s) (flipsh_ s) (energy_ s).
Definition set_gen (s : t) (g : G) : t :=
  mk (wf_ s) (hamiltonian_ s) (nspins_ s) (state_ s) g (accept_ s) (nmoves_ s)
     (flips_ s) (writestates_ s) (filestates_ s) (mel_ s) (flipsh_ s) (energy_ s).
Definition set_accept (s : t) (a : R) : t :=
  mk (wf_ s) (hamiltonian_ s) (nspins_ s) (state_ s) (gen_ s) a (nmoves_ s)
     (flips_ s) (writestates_ s) (filestates_ s) (mel_ s) (flipsh_ s) (energy_ s).
Definition set_nmoves (s : t) (n : R) : t :=
  mk (wf_ s) (hamiltonian_ s) (nspins_ s) (state_ s) (gen_ s) (accept_ s) n
     (flips_ s) (writestates_ s) (filestates_ s) (mel_ s) (flipsh_ s) (energy_ s).
Definition set_flips (s : t) (flips : list nat) : t :=
  mk (wf_ s) (hamiltonian_ s) (nspins_ s) (state_ s) (gen_ s) (accept_ s) (nmoves_ s)
     flips (writestates_ s) (filestates_ s) (mel_ s) (flipsh_ s) (energy_ s).
Definition set_filestates (s : t) (lines : list (list Z)) : t :=
  mk (wf_ s) (hamiltonian_ s) (nspins_ s) (state_ s) (gen_ s) (accept_ s) (nmoves_ s)
     (flips_ s) (writestates_ s) lines (mel_ s) (flipsh_ s) (energy_ s).
Definition set_conn (s : t) (flipsh : list (list nat)) (mel : list C) : t :=
  mk (wf_ s) (hamiltonian_ s) (nspins_ s) (state_ s) (gen_ s) (accept_ s) (nmoves_ s)
     (flips_ s) (writestates_ s) (filestates_ s) mel flipsh (energy_ s).
Definition set_energy (s : t) (energy : list C) : t :=
  mk (wf_ s) (hamiltonian_ s) (nspins_ s) (state_ s) (gen_ s) (accept_ s) (nmoves_ s)
     (flips_ s) (writestates_ s) (filestates_ s) (mel_ s) (flipsh_ s) energy.

Definition ResetAv (s : t) : t := set_nmoves (set_accept s 0%R) 0%R.

(** The constructor; [g] is the generator as [Seed] leaves it. *)
Definition make (wf : Nqs.t) (hamiltonian : H) (g : G) : t :=
  ResetAv (mk wf hamiltonian (Nqs.Nspins wf) [] g 0%R 0%R [] false [] [] [] []).

(** [Uniform()]. *)
Definition Uniform (s : t) : R * t :=
  let '(u, g) := distu_ (gen_ s) in (u, set_gen s g).

(** [distn_(gen_)]. *)
Definition RandSite (s : t) : nat * t :=
  let '(n, g) := distn_ (gen_ s) in (n, set_gen s g).

(** [RandSpin(flips_, nflips)] with [mag0] at its default [true]. *)
Definition RandSpin (s : t) (nflips : Z) (mag0 : bool) : bool * t :=
  let flips := vresize (flips_ s) (Z.to_nat nflips) 0%nat in
  let '(f0, s) := RandSite s in
  let flips := vset flips 0 f0 in
  if (nflips =? 2)%Z then
    let '(f1, s) := RandSite s in
    let flips := vset flips 1 f1 in
    let s := set_flips s flips in
    if negb mag0
    then (negb (nth 1 flips 0 =? nth 0 flips 0)%nat, s)
    else (negb (spin_at (state_ s) (nth 1 flips 0%nat)
                =? spin_at (state_ s) (nth 0 flips 0%nat))%Z, s)
  else (true, set_flips s flips).

(** [rs=distn_(gen_); while(p(rs)){ rs=distn_(gen_); }] *)
Fixpoint draw_while (fuel : nat) (p : nat -> bool) (g : G) : option (nat * G) :=
  match fuel with
  | O => None
  | S fuel =>
    let '(rs, g) := distn_ g in
    if p rs then draw_while fuel p g else Some (rs, g)
  end.

(** [magt], the sum of the spins. *)
Definition magnetization (state : list Z) : Z := fold_left Z.add state 0%Z.

(** The loop [while(magt!=0)] of [InitRandomState]. *)
Fixpoint balance (fuel : nat) (magt : Z) (state : list Z) (g : G)
  : option (list Z * G) :=
  match fuel with
  | O => None
  | S fuel =>
    if (magt =? 0)%Z then Some (state, g)
    else
      let magt := magnetization state in
      if (magt >? 0)%Z then
        match draw_while fuel (fun rs => (spin_at state rs <? 0)%Z) g with
        | None => None
        | Some (rs, g) => balance fuel (magt - 1)%Z (vset state rs (-1)%Z) g
        end
      else if (magt <? 0)%Z then
        match draw_while fuel (fun rs => (spin_at state rs >? 0)%Z) g with
        | None => None
        | Some (rs, g) => balance fuel (magt + 1)%Z (vset state rs 1%Z) g
        end
      else balance fuel magt state g
  end.

Definition InitRandomState (fuel : nat) (s : t) (mag0 : bool) : outcome t :=
  let s := set_state s (vresize (state_ s) (nspins_ s) 0%Z) in
  let s :=
    fold_left (fun s i =>
                 let '(u, s) := Uniform s in
                 set_state s (vset (state_ s) i (if Rlt_dec u (1 / 2) then (-1)%Z else 1%Z)))
              (seq 0 (nspins_ s)) s in
  if mag0 then
    if negb (Nat.modulo (nspins_ s) 2 =? 0)%nat
    then Aborted "# Error : Cannot initializate a random state with zero magnetization for odd number of spins" s
    else
      match balance fuel 1%Z (state_ s) (gen_ s) with
      | None => OutOfFuel
      | Some (state, g) => Done (set_gen (set_state s state) g)
      end
  else Done s.

Definition Acceptance (s : t) : R := (accept_ s / nmoves_ s)%R.

(** The local [acceptance] of [Move], once [RandSpin] has filled [flips_]. *)
Definition acceptance (s : t) : R :=
  Cplx.norm (Nqs.PoP (wf_ s) (state_ s) (flips_ s)).

(** The body of the Metropolis test when it passes. *)
Definition accept_move (s : t) : t :=
  let s := set_wf s (Nqs.UpdateLt (wf_ s) (state_ s) (flips_ s)) in
  let s := set_state s (flip_sites (state_ s) (flips_ s)) in
  set_accept s (accept_ s + 1)%R.

Definition Move (s : t) (nflips : Z) : t :=
  let '(ok, s) := RandSpin s nflips true in
  let s :=
    if ok then
      let acceptance := acceptance s in
      let '(u, s) := Uniform s in
      if Rgt_dec acceptance u then accept_move s else s
    else s in
  set_nmoves s (nmoves_ s + 1)%R.

Definition WriteState (s : t) : t :=
  set_filestates s (filestates_ s ++ [state_ s]).

Definition MeasureEnergy (s : t) : t :=
  let en := Cplx.zero in
  let '(flipsh, mel) := FindConn (hamiltonian_ s) (state_ s) (flipsh_ s) (mel_ s) in
  let s := set_conn s flipsh mel in
  let en :=
    fold_left (fun en i =>
                 (en + Nqs.PoP (wf_ s) (state_ s) (nth i (flipsh_ s) [])
                       * nth i (mel_ s) Cplx.zero)%C)
              (seq 0 (length (flipsh_ s))) en in
  set_energy s (energy_ s ++ [en]).

(** One sweep: [for(int i=0;i<nspins_*sweepfactor;i++){ Move(nflips); }] *)
Definition sweep (nflips sweepfactor : Z) (s : t) : t :=
  Nat.iter (Z.to_nat (Z.of_nat (nspins_ s) * sweepfactor))
           (fun s => Move s nflips) s.

(** One turn of the measuring loop of [Run]. *)
Definition measured_sweep (nflips sweepfactor : Z) (s : t) : t :=
  let s := sweep nflips sweepfactor s in
  let s := if writestates_ s then WriteState s else s in
  MeasureEnergy s.

(** The running state of the two nested loops of [OutputEnergy]. *)
Record Welford : Type := mkWelford {
  enmean : R;
  enmeansq : R;
  enmean_unblocked : R;
  enmeansq_unblocked : R
}.

(** [energy_[j].real()]. *)
Definition energy_re (s : t) (j : nat) : R := Cplx.re (nth j (energy_ s) Cplx.zero).

(** The body of the inner loop of [OutputEnergy], on the samples [x]. *)
Definition sample_step (x : nat -> R) (acc : R * R * R) (j : nat) : R * R * R :=
  let '(eblock, enmean_unblocked, enmeansq_unblocked) := acc in
  let eblock := (eblock + x j)%R in
  let delta := (x j - enmean_unblocked)%R in
  let enmean_unblocked := (enmean_unblocked + delta / INR (j + 1))%R in
  let delta2 := (x j - enmean_unblocked)%R in
  let enmeansq_unblocked := (enmeansq_unblocked + delta * delta2)%R in
  (eblock, enmean_unblocked, enmeansq_unblocked).

(** The body of the outer loop of [OutputEnergy]. *)
Definition block_step (x : nat -> R) (blocksize : nat) (w : Welford) (i : nat)
  : Welford :=
  let '(eblock, enmean_unblocked, enmeansq_unblocked) :=
    fold_left (sample_step x) (seq (i * blocksize) blocksize)
              (0%R, enmean_unblocked w, enmeansq_unblocked w) in
  let eblock := (eblock / INR blocksize)%R in
  let delta := (eblock - enmean w)%R in
  let enmean := (enmean w + delta / INR (i + 1))%R in
  let delta2 := (eblock - enmean)%R in
  let enmeansq := (enmeansq w + delta * delta2)%R in
  mkWelford enmean enmeansq enmean_unblocked enmeansq_unblocked.

Definition OutputEnergy (s : t) : Report.t :=
  let nblocks := 50%nat in
  let blocksize :=
    Z.to_nat (Int_part (INR (length (energy_ s)) / INR nblocks)) in
  let w := fold_left (block_step (energy_re s) blocksize) (seq 0 nblocks)
                     (mkWelford 0 0 0 0) in
  let enmeansq := (enmeansq w / INR (nblocks - 1))%R in
  let enmeansq_unblocked :=
    (enmeansq_unblocked w / IZR (Z.of_nat nblocks * Z.of_nat blocksize - 1))%R in
  let estav := (enmean w / INR (nspins_ s))%R in
  let esterror := (sqrt (enmeansq / INR nblocks) / INR (nspins_ s))%R in
  Report.mk estav esterror nblocks blocksize
           (0.5 * INR blocksize * enmeansq / enmeansq_unblocked)%R.

(** [Run]; its last act is to print [OutputEnergy] of the sampler it
    leaves. *)
Definition Run (fuel : nat) (s : t) (nsweeps thermfactor : R)
    (sweepfactor nflipss : Z) : outcome t :=
  let nflips := nflipss in
  let nflips := if (nflips =? -1)%Z then MinFlips (hamiltonian_ s) else nflips in
  if ((nflips >? 2) || (nflips <? 1))%Z then
    Aborted "# Error : The number of spin flips should be equal to 1 or 2." s
  else if Rgt_dec thermfactor 1 then
    Aborted "# Error : The thermalization factor should be a real number between 0 and 1" s
  else if Rlt_dec thermfactor 0 then
    Aborted "# Error : The thermalization factor should be a real number between 0 and 1" s
  else if Rlt_dec nsweeps 50 then
    Aborted "# Error : Please enter a number of sweeps sufficiently large (>50)" s
  else
    match InitRandomState fuel s true with
    | Done s =>
      let s := set_flips s (vresize (flips_ s) (Z.to_nat nflips) 0%nat) in
      let s := set_wf s (Nqs.InitLt (wf_ s) (state_ s)) in
      let s := ResetAv s in
      let s := Nat.iter (sweep_count (nsweeps * thermfactor))
                        (sweep nflips sweepfactor) s in
      let s := ResetAv s in
      let s := Nat.iter (sweep_count nsweeps)
                        (measured_sweep nflips sweepfactor) s in
      Done s
    | Aborted msg s => Aborted msg s
    | OutOfFuel => OutOfFuel
    end.

(** The generator after [k] more draws of a site. *)
Definition skip (k : nat) (g : G) : G :=
  Nat.iter k (fun g => snd (distn_ g)) g.

(** What the two distributions promise: variates in [0,1), sites in
    [0, nspins-1], and every site turning up sooner or later. *)
Definition unit_interval : Prop := forall g, (0 <= fst (distu_ g) < 1)%R.
Definition in_range (n : nat) : Prop := forall g, (fst (distn_ g) < n)%nat.
Definition fair (n : nat) : Prop :=
  forall g i, (i < n)%nat -> exists k, fst (distn_ (skip k g)) = i.

(** The number of flips [Run] settles on. *)
Definition effective_flips (s : t) (nflipss : Z) : Z :=
  if (nflipss =? -1)%Z then MinFlips (hamiltonian_ s) else nflipss.

(** The parameters [Run] accepts. *)
Definition valid_parameters (s : t) (nsweeps thermfactor : R) (nflipss : Z) : Prop :=
  (1 <= effective_flips s nflipss <= 2)%Z /\
  (0 <= thermfactor <= 1)%R /\ (50 <= nsweeps)%R.

(** The messages of the three checks of [Run]. *)
Definition validation_messages : list string :=
  [ "# Error : The number of spin flips should be equal to 1 or 2.";
    "# Error : The thermalization factor should be a real number between 0 and 1";
    "# Error : Please enter a number of sweeps sufficiently large (>50)" ]%string.

(** What [Run] does once the initial configuration stands. *)
Definition sample (s : t) (nsweeps thermfactor : R) (sweepfactor nflips : Z) : t :=
  let s := set_flips s (vresize (flips_ s) (Z.to_nat nflips) 0%nat) in
  let s := set_wf s (Nqs.InitLt (wf_ s) (state_ s)) in
  let s := ResetAv s in
  let s := Nat.iter (sweep_count (nsweeps * thermfactor))
                    (sweep nflips sweepfactor) s in
  let s := ResetAv s in
  Nat.iter (sweep_count nsweeps) (measured_sweep nflips sweepfactor) s.

(** The message of [InitRandomState]. *)
Definition odd_message : string :=
  "# Error : Cannot initializate a random state with zero magnetization for odd number of spins".

(** What the moves leave alone: the number of spins, the Hamiltonian, the
    choice to write configurations and the samples taken so far. *)
Definition same_frame (s s' : t) : Prop :=
  nspins_ s' = nspins_ s /\
  hamiltonian_ s' = hamiltonian_ s /\
  writestates_ s' = writestates_ s /\
  energy_ s' = energy_ s.

(** The moves of one sweep. *)
Definition moves_per_sweep (s : t) (sweepfactor : Z) : nat :=
  Z.to_nat (Z.of_nat (nspins_ s) * sweepfactor).

(** The sampler between two moves: as many spins as the wave function has
    visible units, a configuration of 1 and -1, and a look-up table that
    agrees with it. *)
Definition consistent (s : t) : Prop :=
  nspins_ s = Nqs.nv_ (wf_ s) /\
  is_config (nspins_ s) (state_ s) /\
  Nqs.coherent (wf_ s) (state_ s).

End WithGenerator.

End Sampler.

(** ** Nearest-neighbour pairs, for the description of the diagonal *)

Module Lattice.

(** The sum of [state[i] * state[j]] over a list of pairs of sites. *)
Definition bond_sum (state : list Z) (pairs : list (nat * nat)) : R :=
  Rsum (map (fun p => IZR (spin_at state (fst p) * spin_at state (snd p))) pairs).

(** Every pair [i < j] of the sites [0 .. n-1] that [adjacent] relates,
    each listed once. *)
Definition undirected_pairs (n : nat) (adjacent : nat -> nat -> bool)
  : list (nat * nat) :=
  filter (fun p => (fst p <? snd p)%nat && adjacent (fst p) (snd p))
         (list_prod (seq 0 n) (seq 0 n)).

(** A bond as an undirected pair: lower site first. *)
Definition ordered (p : nat * nat) : nat * nat :=
  (Nat.min (fst p) (snd p), Nat.max (fst p) (snd p)).

(** Neighbours on a chain of [n] sites: next to each other, or the two
    ends when the chain is closed. *)
Definition chain_adjacent (n : nat) (pbc : bool) (i j : nat) : bool :=
  ((j =? i + 1) || (i =? j + 1)
   || (pbc && (((i =? 0) && (j =? n - 1)) || ((j =? 0) && (i =? n - 1)))))%nat.

(** Neighbours on an [l] by [l] square lattice, site [i] in row [i / l]
    and column [i mod l]: same row and adjacent columns, or same column and
    adjacent rows, the first and last column (row) being adjacent when the
    boundary is periodic. *)
Definition square_adjacent (l : nat) (pbc : bool) (i j : nat) : bool :=
  (((i / l =? j / l) && chain_adjacent l pbc (i mod l) (j mod l))
   || ((i mod l =? j mod l) && chain_adjacent l pbc (i / l) (j / l)))%nat.

(** Site in row [r] and column [c] of a lattice of side [l]. *)
Definition site (l r c : Z) : Z := (l * r + c)%Z.

(** A bond of [Heisenberg2d] as a pair of vector indices. *)
Definition to_sites (p : Z * Z) : nat * nat := (Z.to_nat (fst p), Z.to_nat (snd p)).

End Lattice.

(** ** A small instance *)

(** Two spins, one hidden unit, complex weights. *)
Module Tiny.

Definition wf : Nqs.t :=
  Nqs.mk [[Cplx.mk 1 0]; [Cplx.mk 2 1]]
         [Cplx.mk 1 0; Cplx.mk 0 (-1)]
         [Cplx.mk 0 1]
         1 2 [].

Definition up_down : list Z := [1; -1]%Z.

(** A generator that counts: the variate 1/4 and, for [n] spins, the
    site [g mod n]. *)
Definition distu_ (g : nat) : R * nat := ((1 / 4)%R, S g).
Definition distn_ (n : nat) (g : nat) : nat * nat := (Nat.modulo g n, S g).

Definition chain : Heisenberg1d.t := Heisenberg1d.mk 2 false 1.

Definition sampler : Sampler.t (G := nat) (H := Heisenberg1d.t) :=
  Sampler.make wf chain 0%nat.

(** One spin with visible bias 1 and no hidden unit, the spin down, site 0
    proposed: the amplitude ratio is exp(2). *)
Definition wf1 : Nqs.t := Nqs.mk [[]] [Cplx.mk 1 0] [] 0 1 [].

Definition uphill : Sampler.t (G := nat) (H := Ising1d.t) :=
  Sampler.mk wf1 (Ising1d.Init 1 1 true) 1 [-1]%Z 0%nat 0 0 [0%nat]
             false [] [] [] [].

(** A sampler holding the 120 energy samples 0, 1, ..., 119. *)
Definition measured : Sampler.t (G := nat) (H := Heisenberg1d.t) :=
  Sampler.set_energy sampler
    (map (fun k => Cplx.of_real (INR k)) (seq 0 120)).

End Tiny.

(** ** A hidden unit on the cut of the logarithm *)

(** One spin, one hidden unit: with the spin up the angle of the hidden
    unit is 2 PI, with the spin down it is PI, on the cut of [std::log].
    [perturbed delta] is the same wave function with the imaginary part of
    its table entry off by [delta]. *)
Module Cut.

Definition wf : Nqs.t :=
  Nqs.mk [[Cplx.mk 0 (PI / 2)]] [Cplx.zero] [Cplx.mk 1 (3 * PI / 2)] 1 1
         [Cplx.mk 1 (2 * PI)].

Definition state : list Z := [1%Z].


End Cut.

(** ** The connections of the Hamiltonians *)

(** The pairs of sites the two loops of [Ising1d::FindConn] run over. *)
Definition Ising1d_bonds (ham : Ising1d.t) : list (nat * nat) :=
  map (fun i => (i, (i + 1)%nat)) (seq 0 (Ising1d.nspins_ ham - 1))
  ++ (if Ising1d.pbc_ ham then [((Ising1d.nspins_ ham - 1)%nat, 0%nat)] else []).

(** A bond whose two spins differ, and the flip of its two sites. *)
Definition antiparallel (state : list Z) (p : nat * nat) : bool :=
  negb (spin_at state (fst p) =? spin_at state (snd p))%Z.
Definition pair_flip (p : nat * nat) : list nat := [fst p; snd p].

(** ** The hyperbolic cosine *)

(** The hyperbolic cosine of a complex number. *)
Definition ccosh (z : C) : C :=
  Cplx.mk (cosh (Cplx.re z) * cos (Cplx.im z)) (sinh (Cplx.re z) * sin (Cplx.im z)).

(** ** Reading the options, [readoptions.cc] *)

Module Options.

Open Scope string_scope.

(** [strarg.find(pattern, pos)], [None] for [npos]. *)
Definition find (strarg pattern : string) (pos : nat) : option nat :=
  String.index pos pattern strarg.

Definition FindModel (strarg : string) : string :=
  match find strarg "Ising" 0 with
  | Some _ => "Ising1d"
  | None =>
    match find strarg "Heisenberg1d" 0 with
    | Some _ => "Heisenberg1d"
    | None =>
      match find strarg "Heisenberg2d" 0 with
      | Some _ => "Heisenberg2d"
      | None => "None"
      end
    end
  end.

(** The coupling on the left, the message of the abort on the right. *)
Definition FindCoupling (strarg : string) : string + string :=
  let found := find strarg "_" 0 in
  let found1 :=
    match found with
    | Some found => find strarg "_" (found + 1)
    | None => None
    end in
  let found2 :=
    match found1 with
    | Some found1 => find strarg "_" (found1 + 1)
    | None => None
    end in
  match found1, found2 with
  | Some found1, Some found2 =>
    inl (String.substring (found1 + 1) (found2 - found1 - 1) strarg)
  | _, _ =>
    inr "# Error : the filename is not in the format specified for the Ising/Heisenberg model"
  end.

(** The number of underscores of a string, and a pattern standing at a
    position of a string. *)
Fixpoint underscores (s : string) : nat :=
  match s with
  | EmptyString => 0
  | String c s => (if Ascii.eqb c "_" then 1 else 0) + underscores s
  end.

Definition occurs (pattern strarg : string) : Prop :=
  exists m, String.substring m (String.length pattern) strarg = pattern.

(** [std::map<std::string,std::string>] as its entries, one for each
    key. *)
Definition map_t : Type := list (string * string).

Fixpoint lookup (options : map_t) (key : string) : option string :=
  match options with
  | [] => None
  | (k, v) :: rest => if String.eqb k key then Some v else lookup rest key
  end.

(** [options.count(key)]. *)
Definition count (options : map_t) (key : string) : nat :=
  match lookup options key with Some _ => 1 | None => 0 end.

(** [options[key]=value]. *)
Fixpoint assign (options : map_t) (key value : string) : map_t :=
  match options with
  | [] => [(key, value)]
  | (k, v) :: rest =>
    if String.eqb k key then (k, value) :: rest else (k, v) :: assign rest key value
  end.

(** [options[key]] read: an absent key is entered with the empty string. *)
Definition read (options : map_t) (key : string) : string * map_t :=
  match lookup options key with
  | Some v => (v, options)
  | None => (EmptyString, assign options key EmptyString)
  end.

(** How [ReadOptions] ends: it returns the options, or the process exits
    with a status, or it aborts after a message (none for the [default]
    case of the switch). *)
Inductive result : Type :=
| Returned (options : map_t)
| Exited (status : Z)
| Fatal (msg : string).

(** The loop over the command line; [args] are the values of [c] and
    [optarg] that successive calls of [getopt_long] hand over before it
    returns -1. *)
Fixpoint parse (args : list (ascii * string)) (options : map_t) : option map_t :=
  match args with
  | [] => Some options
  | (c, optarg) :: rest =>
    if Ascii.eqb c "a" then parse rest (assign options "filename" optarg)
    else if Ascii.eqb c "b" then parse rest (assign options "nsweeps" optarg)
    else if Ascii.eqb c "c" then parse rest (assign options "seed" optarg)
    else if Ascii.eqb c "d" then parse rest (assign options "filestates" optarg)
    else if Ascii.eqb c "?" then parse rest options
    else None
  end.

Definition ReadOptions (argc : Z) (args : list (ascii * string)) : result :=
  let options : map_t := [] in
  if (argc =? 1)%Z then Exited 0
  else
    match parse args options with
    | None => Fatal EmptyString
    | Some options =>
      if (count options "filename" =? 0)%nat then
        Fatal "# Error: Option filename must be specified with the option --filename=FILENAME"
      else
        let options :=
          if (count options "nsweeps" =? 0)%nat
          then assign options "nsweeps" "1.0e4" else options in
        let options :=
          if (count options "seed" =? 0)%nat
          then assign options "seed" "-1" else options in
        let '(filename, options) := read options "filename" in
        let options := assign options "model" (FindModel filename) in
        let '(model, options) := read options "model" in
        if String.eqb model "Ising1d" then
          let '(filename, options) := read options "filename" in
          match FindCoupling filename with
          | inl coupling => Returned (assign options "hfield" coupling)
          | inr msg => Fatal msg
          end
        else
          let '(filename, options) := read options "filename" in
          match FindCoupling filename with
          | inl coupling => Returned (assign options "jz" coupling)
          | inr msg => Fatal msg
          end
    end.

(** The argument of the last option [c] of the command line. *)
Fixpoint last_given (c : ascii) (args : list (ascii * string)) : option string :=
  match args with
  | [] => None
  | (c', optarg) :: rest =>
    match last_given c rest with
    | Some v => Some v
    | None => if Ascii.eqb c' c then Some optarg else None
    end
  end.

(** The key an option of the command line is stored under. *)
Definition key_of (c : ascii) : option string :=
  if Ascii.eqb c "a" then Some "filename"
  else if Ascii.eqb c "b" then Some "nsweeps"
  else if Ascii.eqb c "c" then Some "seed"
  else if Ascii.eqb c "d" then Some "filestates"
  else None.

(** Every option is one of the four of the program or the mark of an
    unknown one. *)
Definition known (args : list (ascii * string)) : Prop :=
  Forall (fun p => In (fst p) ["a"; "b"; "c"; "d"; "?"]%char) args.

End Options.

(** ** Further small instances *)

Module Small.

(** The two-spin sampler at the configuration up, down, its table
    initialised. *)
Definition prepared : Sampler.t (G := nat) (H := Heisenberg1d.t) :=
  Sampler.set_wf (Sampler.set_state Tiny.sampler Tiny.up_down)
                 (Nqs.InitLt Tiny.wf Tiny.up_down).

(** The same chain with the writing of configurations switched on. *)
Definition writing : Sampler.t (G := nat) (H := Heisenberg1d.t) :=
  Sampler.mk Tiny.wf Tiny.chain 2 [] 0%nat 0 0 [] true [] [] [] [].

(** A two by two open square lattice under a sampler at a configuration of
    zero magnetization. *)
Definition square : Heisenberg2d.t :=
  match Heisenberg2d.make 4 1 false with
  | Done ham => ham
  | _ => Heisenberg2d.mk 4 2 false 1 [] []
  end.
Definition on_square : Sampler.t (G := nat) (H := Heisenberg2d.t) :=
  Sampler.mk (Nqs.mk [[]; []; []; []] [Cplx.zero; Cplx.zero; Cplx.zero; Cplx.zero] [] 0 4 [])
             square 4 [1; -1; -1; 1]%Z 0%nat 0 0 [] false [] [] [] [].

End Small.

(* ================================================================== *)
(** * Part II: properties                                              *)
(* ================================================================== *)

(** ** Vectors *)

Lemma vset_length {A} (l : list A) i x : length (vset l i x) = length l.
Proof.
  revert i; induction l as [|h t IH]; intros [|j]; simpl; auto.
Qed.

Lemma nth_vset_eq {A} (l : list A) i x d :
  (i < length l)%nat -> nth i (vset l i x) d = x.
Proof.
  revert i; induction l as [|h t IH]; intros [|j] Hi; simpl in *; try lia; auto.
  apply IH; lia.
Qed.

Lemma nth_vset_neq {A} (l : list A) i j x d :
  i <> j -> nth j (vset l i x) d = nth j l d.
Proof.
  revert i j; induction l as [|h t IH]; intros [|i] [|j] Hij; simpl; auto; try lia.
Qed.

Lemma vset_nth_same {A} (l : list A) i d : vset l i (nth i l d) = l.
Proof.
  revert i; induction l as [|h t IH]; intros [|j]; simpl; auto.
  now rewrite IH.
Qed.

Lemma vset_vset {A} (l : list A) i x y : vset (vset l i x) i y = vset l i y.
Proof.
  revert i; induction l as [|h t IH]; intros [|j]; simpl; auto.
  now rewrite IH.
Qed.

Lemma vresize_length {A} (l : list A) n d : length (vresize l n d) = n.
Proof.
  revert l; induction n as [|m IH]; intros [|h t]; simpl; auto.
Qed.

Lemma fold_left_ext_in {A B} (f g : A -> B -> A) l a :
  (forall x acc, In x l -> f acc x = g acc x) ->
  fold_left f l a = fold_left g l a.
Proof.
  revert a; induction l as [|x l IH]; intros a H; simpl; auto.
  rewrite H by (left; reflexivity). apply IH.
  intros y acc Hy; apply H; right; assumption.
Qed.

(** ** Complex arithmetic *)

Module CplxFacts.

Import Cplx.
Open Scope R_scope.

Lemma C_eq (z w : C) : re z = re w -> im z = im w -> z = w.
Proof. destruct z, w; simpl; intros -> ->; reflexivity. Qed.

Ltac calc := apply C_eq; simpl; try ring; try lra.

Lemma add_zero_l z : (zero + z)%C = z.
Proof. calc. Qed.

Lemma add_zero_r z : (z + zero)%C = z.
Proof. calc. Qed.

Lemma add_assoc x y z : (x + (y + z))%C = ((x + y) + z)%C.
Proof. calc. Qed.

Lemma add_comm x y : (x + y)%C = (y + x)%C.
Proof. calc. Qed.

Lemma sub_add x y : ((x - y) + y)%C = x.
Proof. calc. Qed.

(** An accumulating loop is its start value plus the loop from zero. *)
Lemma fold_add_start {A} (f : A -> C) l a :
  fold_left (fun acc x => (acc + f x)%C) l a
  = (a + fold_left (fun acc x => (acc + f x)%C) l zero)%C.
Proof.
  revert a; induction l as [|x l IH]; intros a; simpl.
  - now rewrite add_zero_r.
  - rewrite IH, (IH (zero + f x)%C), add_zero_l. symmetry; apply add_assoc.
Qed.

Lemma fold_add_map {A} (f : A -> C) l a :
  fold_left (fun acc x => (acc + f x)%C) l a = (a + sum (map f l))%C.
Proof.
  unfold sum. rewrite fold_add_start. f_equal.
  generalize zero. induction l as [|x l IH]; intros z; simpl; auto.
Qed.

Lemma sum_cons x l : sum (x :: l) = (x + sum l)%C.
Proof.
  unfold sum; simpl.
  rewrite <- (map_id l) at 1. rewrite (fold_add_map (fun y => y)), map_id.
  now rewrite add_zero_l, <- (map_id l), (fold_add_map (fun y => y)), map_id, add_zero_l.
Qed.

Lemma fold_sub_start {A} (f : A -> C) l a :
  fold_left (fun acc x => (acc - f x)%C) l a
  = (a + fold_left (fun acc x => (acc - f x)%C) l zero)%C.
Proof.
  revert a; induction l as [|x l IH]; intros a; simpl.
  - now rewrite add_zero_r.
  - rewrite IH, (IH (zero - f x)%C). calc.
Qed.

Lemma norm_nonneg z : 0 <= norm z.
Proof. unfold norm. nra. Qed.

Lemma norm_cexp z : norm (cexp z) = exp (re z) * exp (re z).
Proof.
  unfold norm, cexp; simpl.
  pose proof (sin2_cos2 (im z)) as H. unfold Rsqr in H. nra.
Qed.

Lemma cexp_add z w : cexp (z + w)%C = (cexp z * cexp w)%C.
Proof.
  unfold cexp, add, mul. cbn [re im].
  rewrite exp_plus, cos_plus, sin_plus. f_equal; ring.
Qed.

End CplxFacts.

(** ** Flipping spins *)

Lemma flip_sites_length state flips :
  length (flip_sites state flips) = length state.
Proof.
  unfold flip_sites. revert state.
  induction flips as [|f fs IH]; intros state; simpl; auto.
  now rewrite IH, vset_length.
Qed.

Lemma flip_sites_cons state f fs :
  flip_sites state (f :: fs) = flip_sites (vset state f (nth f state 0 * -1)%Z) fs.
Proof. reflexivity. Qed.

Lemma flip_sites_notin state flips v :
  ~ In v flips -> nth v (flip_sites state flips) 0%Z = nth v state 0%Z.
Proof.
  revert state; induction flips as [|f fs IH]; intros state Hv; [reflexivity|].
  rewrite flip_sites_cons, IH by (simpl in Hv; tauto).
  apply nth_vset_neq; intros ->; simpl in Hv; tauto.
Qed.

Lemma flip_sites_in state flips v :
  NoDup flips -> In v flips -> (v < length state)%nat ->
  nth v (flip_sites state flips) 0%Z = (- nth v state 0)%Z.
Proof.
  revert state; induction flips as [|f fs IH]; intros state Hnd Hin Hlt.
  - destruct Hin.
  - inversion Hnd as [|? ? Hnotin Hnd']; subst.
    rewrite flip_sites_cons. destruct Hin as [->|Hin].
    + rewrite flip_sites_notin by assumption.
      rewrite nth_vset_eq by assumption. lia.
    + rewrite IH; auto.
      * rewrite nth_vset_neq; auto. intros ->; tauto.
      * now rewrite vset_length.
Qed.

(** ** The look-up table *)

Module NqsFacts.

Import Nqs CplxFacts.
Open Scope R_scope.

Lemma spin_vset_eq s f x : (f < length s)%nat -> spin (vset s f x) f = IZR x.
Proof. intros H; unfold spin; now rewrite nth_vset_eq. Qed.

Lemma spin_vset_neq s f v x : f <> v -> spin (vset s f x) v = spin s v.
Proof. intros H; unfold spin; now rewrite nth_vset_neq. Qed.

Lemma theta_eq_spec wf s h : theta wf s h = theta_spec wf s h.
Proof. unfold theta, theta_spec. apply fold_add_map. Qed.

(** Changing one spin changes one term of a sum that is linear in the
    spins, whatever the coefficients [c]. *)
Lemma sum_contrib_vset (c : nat -> C) s f x l :
  NoDup l -> (f < length s)%nat ->
  Cplx.sum (map (fun v => Cplx.scale_l (spin (vset s f x) v) (c v)) l)
  = (Cplx.sum (map (fun v => Cplx.scale_l (spin s v) (c v)) l)
     + (if in_dec Nat.eq_dec f l
        then Cplx.scale_l (IZR x - spin s f) (c f) else Cplx.zero))%C.
Proof.
  intros Hnd Hf. induction Hnd as [|v l Hnotin Hnd IH].
  - simpl. now rewrite add_zero_r.
  - cbn [map]. rewrite !sum_cons, IH.
    destruct (in_dec Nat.eq_dec f (v :: l)) as [Hin|Hout];
      destruct (in_dec Nat.eq_dec f l) as [Hin'|Hout'];
      try (exfalso; simpl in *; tauto).
    + rewrite spin_vset_neq by (intros ->; tauto). calc.
    + assert (v = f) as -> by (simpl in Hin; tauto).
      rewrite spin_vset_eq by assumption. calc.
    + rewrite spin_vset_neq by (intros ->; simpl in Hout; tauto). calc.
Qed.

(** Flipping the sites of a flip set shifts such a sum by twice the
    terms of the flipped sites, read off the configuration before the
    flips. *)
Lemma linear_flip_sites (c : nat -> C) n s flips a :
  flip_set n flips -> length s = n ->
  (a + Cplx.sum (map (fun v => Cplx.scale_l (spin (flip_sites s flips) v) (c v))
                     (seq 0 n)))%C
  = fold_left (fun t flip => (t - Cplx.scale_l (2 * spin s flip) (c flip))%C)
              flips
              (a + Cplx.sum (map (fun v => Cplx.scale_l (spin s v) (c v))
                                 (seq 0 n)))%C.
Proof.
  intros [Hnd Hrange]. revert s.
  induction flips as [|f fs IH]; intros s Hlen; [reflexivity|].
  inversion Hnd as [|? ? Hnotin Hnd']; subst.
  inversion Hrange as [|? ? Hf Hrange']; subst.
  rewrite flip_sites_cons, IH; auto; [|now rewrite vset_length].
  cbn [fold_left].
  rewrite sum_contrib_vset by (auto using seq_NoDup).
  destruct (in_dec Nat.eq_dec f (seq 0 (length s))) as [_|Hout].
  2:{ exfalso; apply Hout, in_seq; lia. }
  match goal with
  | |- fold_left _ _ ?x = fold_left _ _ ?y => replace x with y
  end.
  2:{ unfold spin. rewrite mult_IZR. calc. }
  apply fold_left_ext_in.
  intros g acc Hin. rewrite spin_vset_neq; auto. intros ->; tauto.
Qed.

(** The shift of one hidden unit's angle that [LogPoP] and [UpdateLt]
    both compute from the configuration before the flips. *)
Lemma theta_flip_sites wf s flips h :
  flip_set (nv_ wf) flips -> length s = nv_ wf ->
  theta wf (flip_sites s flips) h
  = fold_left (fun t flip =>
                 (t - Cplx.scale_l (2 * spin s flip) (W_at wf flip h))%C)
              flips (theta wf s h).
Proof.
  intros HF Hlen. rewrite !theta_eq_spec. unfold theta_spec.
  now apply (linear_flip_sites (fun v => W_at wf v h)).
Qed.

(** A loop over the rows [hs] of a table whose body rewrites entry [h]
    from its old value. *)
Lemma fold_rows (F : list C -> nat -> list C) (G : nat -> C -> C) hs lt :
  (forall lt h, (h < length lt)%nat ->
     F lt h = vset lt h (G h (nth h lt Cplx.zero))) ->
  NoDup hs -> Forall (fun h => (h < length lt)%nat) hs ->
  length (fold_left F hs lt) = length lt /\
  forall h, (h < length lt)%nat ->
    nth h (fold_left F hs lt) Cplx.zero
    = if in_dec Nat.eq_dec h hs then G h (nth h lt Cplx.zero)
      else nth h lt Cplx.zero.
Proof.
  intros HF Hnd. revert lt.
  induction Hnd as [|k hs Hnotin Hnd IH]; intros lt Hrange.
  - split; [reflexivity|]. intros h _. reflexivity.
  - inversion Hrange as [|? ? Hk Hrange']; subst.
    cbn [fold_left]. rewrite (HF lt k Hk).
    destruct (IH (vset lt k (G k (nth k lt Cplx.zero)))) as [Hlen Hnth].
    { now rewrite vset_length. }
    rewrite vset_length in Hlen, Hnth.
    split; [exact Hlen|]. intros h Hh. rewrite (Hnth h Hh).
    destruct (in_dec Nat.eq_dec h hs) as [Hin|Hout];
      destruct (in_dec Nat.eq_dec h (k :: hs)) as [Hin'|Hout'];
      try (exfalso; simpl in *; tauto).
    + rewrite nth_vset_neq; auto. intros ->; tauto.
    + assert (k = h) as -> by (simpl in Hin'; tauto).
      now rewrite nth_vset_eq.
    + rewrite nth_vset_neq; auto. intros ->; simpl in Hout'; tauto.
Qed.

Lemma seq_below n m : (n <= m)%nat -> Forall (fun h => (h < m)%nat) (seq 0 n).
Proof. intros H. apply Forall_forall. intros h Hh. apply in_seq in Hh. lia. Qed.

Lemma InitLt_rows wf s :
  length (Lt_ (InitLt wf s)) = nh_ wf /\
  forall h, (h < nh_ wf)%nat -> Lt_at (InitLt wf s) h = theta wf s h.
Proof.
  unfold Lt_at, InitLt; cbn [Lt_ set_Lt].
  destruct (fold_rows (fun lt h => vset lt h (theta wf s h))
              (fun h _ => theta wf s h) (seq 0 (nh_ wf))
              (vresize (Lt_ wf) (nh_ wf) Cplx.zero)) as [Hlen Hnth].
  - reflexivity.
  - apply seq_NoDup.
  - apply seq_below. now rewrite vresize_length.
  - rewrite vresize_length in Hlen, Hnth. split; [exact Hlen|].
    intros h Hh. rewrite (Hnth h Hh).
    destruct (in_dec Nat.eq_dec h (seq 0 (nh_ wf))) as [_|Hout]; [reflexivity|].
    exfalso; apply Hout, in_seq; lia.
Qed.

(** The inner loop of [UpdateLt] on one row. *)
Lemma UpdateLt_row (c : nat -> C) flips lt h :
  (h < length lt)%nat ->
  fold_left (fun lt flip => vset lt h (nth h lt Cplx.zero - c flip)%C) flips lt
  = vset lt h (fold_left (fun t flip => (t - c flip)%C) flips (nth h lt Cplx.zero)).
Proof.
  revert lt; induction flips as [|f fs IH]; intros lt Hh; cbn [fold_left].
  - now rewrite vset_nth_same.
  - rewrite IH by now rewrite vset_length.
    now rewrite nth_vset_eq, vset_vset.
Qed.

Lemma UpdateLt_rows wf s flips :
  length (Lt_ wf) = nh_ wf ->
  length (Lt_ (UpdateLt wf s flips)) = nh_ wf /\
  forall h, (h < nh_ wf)%nat ->
    Lt_at (UpdateLt wf s flips) h
    = fold_left (fun t flip =>
                   (t - Cplx.scale_l (2 * spin s flip) (W_at wf flip h))%C)
                flips (Lt_at wf h).
Proof.
  intros Hlen. unfold Lt_at, UpdateLt.
  destruct flips as [|f fs]; [now split|].
  cbn [Lt_ set_Lt]. set (flips := f :: fs).
  destruct (fold_rows
    (fun lt h => fold_left (fun lt flip =>
       vset lt h (nth h lt Cplx.zero
                  - Cplx.scale_l (2 * spin s flip) (W_at wf flip h))%C) flips lt)
    (fun h t => fold_left (fun t flip =>
       (t - Cplx.scale_l (2 * spin s flip) (W_at wf flip h))%C) flips t)
    (seq 0 (nh_ wf)) (Lt_ wf)) as [Hl Hnth].
  - intros lt h Hh.
    apply (UpdateLt_row (fun flip => Cplx.scale_l (2 * spin s flip) (W_at wf flip h))).
    exact Hh.
  - apply seq_NoDup.
  - apply seq_below. lia.
  - rewrite Hlen in Hl, Hnth. split; [exact Hl|].
    intros h Hh. rewrite (Hnth h Hh).
    destruct (in_dec Nat.eq_dec h (seq 0 (nh_ wf))) as [_|Hout]; [reflexivity|].
    exfalso; apply Hout, in_seq; lia.
Qed.

Lemma UpdateLt_params wf s flips :
  W_ (UpdateLt wf s flips) = W_ wf /\ a_ (UpdateLt wf s flips) = a_ wf /\
  b_ (UpdateLt wf s flips) = b_ wf /\ nh_ (UpdateLt wf s flips) = nh_ wf /\
  nv_ (UpdateLt wf s flips) = nv_ wf.
Proof. unfold UpdateLt; destruct flips; repeat split. Qed.

(** [theta] reads the parameters only, never the table. *)
Lemma theta_params wf wf' s h :
  W_ wf' = W_ wf -> b_ wf' = b_ wf -> nv_ wf' = nv_ wf ->
  theta wf' s h = theta wf s h.
Proof.
  intros HW Hb Hn. unfold theta, b_at, W_at. now rewrite HW, Hb, Hn.
Qed.

Lemma InitLt_coherent wf s : coherent (InitLt wf s) s.
Proof.
  destruct (InitLt_rows wf s) as [Hlen Hnth].
  split; [exact Hlen|]. intros h Hh. rewrite (Hnth h Hh).
  symmetry. now apply theta_params.
Qed.

Lemma UpdateLt_coherent wf s flips :
  coherent wf s -> flip_set (nv_ wf) flips -> length s = nv_ wf ->
  coherent (UpdateLt wf s flips) (flip_sites s flips).
Proof.
  intros [Hlen Hco] HF Hs.
  destruct (UpdateLt_rows wf s flips Hlen) as [Hl Hnth].
  destruct (UpdateLt_params wf s flips) as (HW & Ha & Hb & Hnh & Hnv).
  split; [now rewrite Hnh|]. rewrite Hnh. intros h Hh.
  rewrite (Hnth h Hh), (theta_params wf) by assumption.
  rewrite theta_flip_sites by assumption. now rewrite Hco.
Qed.

(** Coherence is equality with the freshly computed table. *)
Lemma coherent_fresh wf s : coherent wf s <-> Lt_ wf = fresh_Lt wf s.
Proof.
  unfold fresh_Lt. destruct (InitLt_rows wf s) as [Hlen Hnth]. split.
  - intros [Hl Hco]. apply (nth_ext _ _ Cplx.zero Cplx.zero); [lia|].
    intros h Hh. rewrite Hl in Hh.
    change (Lt_at wf h = Lt_at (InitLt wf s) h).
    now rewrite Hco, Hnth.
  - intros Heq. split; [now rewrite Heq|].
    intros h Hh. unfold Lt_at at 1. rewrite Heq.
    now apply Hnth.
Qed.

Lemma apply_flips_coherent moves : forall wf s,
  coherent wf s -> length s = nv_ wf ->
  Forall (flip_set (nv_ wf)) moves ->
  coherent (fst (apply_flips wf s moves)) (snd (apply_flips wf s moves)).
Proof.
  induction moves as [|flips rest IH]; intros wf s Hco Hs Hall; [exact Hco|].
  inversion Hall as [|? ? HF Hrest]; subst. cbn [apply_flips].
  destruct (UpdateLt_params wf s flips) as (_ & _ & _ & _ & Hnv).
  apply IH.
  - now apply UpdateLt_coherent.
  - now rewrite flip_sites_length, Hnv.
  - now rewrite Hnv.
Qed.

Lemma fold_sub_cancel {A} (c c' : A -> C) flips :
  (forall f, In f flips -> (c' f + c f)%C = Cplx.zero) ->
  forall a,
    fold_left (fun t f => (t - c' f)%C) flips
              (fold_left (fun t f => (t - c f)%C) flips a) = a.
Proof.
  induction flips as [|f fs IH]; intros Hc a; [reflexivity|].
  cbn [fold_left]. rewrite (fold_sub_start c fs).
  replace ((a - c f + fold_left (fun t f0 => (t - c f0)%C) fs Cplx.zero) - c' f)%C
    with (a + fold_left (fun t f0 => (t - c f0)%C) fs Cplx.zero)%C.
  - rewrite <- fold_sub_start. apply IH. intros g Hg; apply Hc; now right.
  - pose proof (Hc f (or_introl eq_refl)) as H0.
    apply (f_equal Cplx.re) in H0 as Hre. apply (f_equal Cplx.im) in H0 as Him.
    simpl in Hre, Him. calc.
Qed.

Lemma flip_sites_twice s flips :
  NoDup flips -> flip_sites (flip_sites s flips) flips = s.
Proof.
  intros Hnd. apply (nth_ext _ _ 0%Z 0%Z).
  - now rewrite !flip_sites_length.
  - intros v Hv. rewrite !flip_sites_length in Hv.
    destruct (in_dec Nat.eq_dec v flips) as [Hin|Hout].
    + rewrite !flip_sites_in; auto; [lia|now rewrite flip_sites_length].
    + now rewrite !flip_sites_notin.
Qed.

Lemma sum_map_sub {A} (x y : A -> C) l :
  Cplx.sum (map (fun h => (x h - y h)%C) l)
  = (Cplx.sum (map x l) - Cplx.sum (map y l))%C.
Proof.
  induction l as [|h l IH]; cbn [map].
  - calc.
  - rewrite !sum_cons, IH. calc.
Qed.

(** Neither [InitLt] nor the moves touch the parameters. *)
Lemma same_parameters_refl wf : same_parameters wf wf.
Proof. repeat split. Qed.

Lemma same_parameters_trans wf1 wf2 wf3 :
  same_parameters wf1 wf2 -> same_parameters wf2 wf3 -> same_parameters wf1 wf3.
Proof.
  intros (A1 & A2 & A3 & A4 & A5) (B1 & B2 & B3 & B4 & B5).
  repeat split; congruence.
Qed.

Lemma InitLt_same_parameters wf s : same_parameters wf (InitLt wf s).
Proof. repeat split. Qed.

Lemma UpdateLt_same_parameters wf s flips : same_parameters wf (UpdateLt wf s flips).
Proof. exact (UpdateLt_params wf s flips). Qed.

Lemma apply_flips_same_parameters moves : forall wf s,
  same_parameters wf (fst (apply_flips wf s moves)).
Proof.
  induction moves as [|flips moves IH]; intros wf s; cbn [apply_flips fst].
  - apply same_parameters_refl.
  - eapply same_parameters_trans; [apply (UpdateLt_same_parameters wf s flips)|apply IH].
Qed.

Lemma apply_flips_state moves : forall wf s,
  snd (apply_flips wf s moves) = fold_left flip_sites moves s.
Proof.
  induction moves as [|flips moves IH]; intros wf s; cbn [apply_flips snd fold_left].
  - reflexivity.
  - apply IH.
Qed.

Lemma theta_spec_same_parameters wf wf' s h :
  same_parameters wf wf' -> theta_spec wf' s h = theta_spec wf s h.
Proof.
  intros (HW & _ & Hb & _ & Hnv). unfold theta_spec, b_at, W_at.
  now rewrite HW, Hb, Hnv.
Qed.

(** A coherent table is the table of the data model. *)
Lemma coherent_table_spec wf s : coherent wf s -> Lt_ wf = table_spec wf s.
Proof.
  intros [Hlen Hco]. unfold table_spec.
  apply (nth_ext _ _ Cplx.zero (theta_spec wf s 0)).
  - now rewrite length_map, length_seq.
  - intros h Hh. rewrite Hlen in Hh.
    rewrite (map_nth (theta_spec wf s)), seq_nth by exact Hh. cbn [Nat.add].
    change (Lt_at wf h = theta_spec wf s h). rewrite <- theta_eq_spec. now apply Hco.
Qed.

End NqsFacts.

(** C1.  After [InitLt] on any configuration, whatever the table held
    before, and any sequence of accepted moves, each an [UpdateLt] on the
    configuration before the flips followed by the flips themselves: the
    configuration is the initial one with the flips applied in turn; the
    weights, the biases and the sizes are those of the wave function given;
    the look-up table has [nh_] entries, entry [h] being
    b[h] + sum over v of state[v] * W[v][h] for the current configuration and
    the parameters given; and it is the table [InitLt] makes of the wave
    function given on the current configuration. *)
Theorem lookup_table_coherence (wf : Nqs.t) (s : list Z) (moves : list (list nat)) :
  length s = Nqs.nv_ wf ->
  Forall (flip_set (Nqs.nv_ wf)) moves ->
  let wf' := fst (apply_flips (Nqs.InitLt wf s) s moves) in
  let s' := snd (apply_flips (Nqs.InitLt wf s) s moves) in
  s' = fold_left flip_sites moves s /\
  Nqs.same_parameters wf wf' /\
  length (Nqs.Lt_ wf') = Nqs.nh_ wf /\
  (forall h, (h < Nqs.nh_ wf)%nat -> Nqs.Lt_at wf' h = Nqs.theta_spec wf s' h) /\
  Nqs.Lt_ wf' = Nqs.table_spec wf s' /\
  Nqs.Lt_ wf' = Nqs.fresh_Lt wf s' /\
  Nqs.fresh_Lt wf s' = Nqs.table_spec wf s'.
Proof.
  intros Hs Hall wf' s'.
  assert (Hco : Nqs.coherent wf' s').
  { apply NqsFacts.apply_flips_coherent; auto. apply NqsFacts.InitLt_coherent. }
  assert (Hpar : Nqs.same_parameters wf wf').
  { eapply NqsFacts.same_parameters_trans;
      [apply (NqsFacts.InitLt_same_parameters wf s)
      |apply NqsFacts.apply_flips_same_parameters]. }
  assert (Hspec : forall h, Nqs.theta_spec wf' s' h = Nqs.theta_spec wf s' h).
  { intros h. now apply NqsFacts.theta_spec_same_parameters. }
  assert (Hnh : Nqs.nh_ wf' = Nqs.nh_ wf) by (destruct Hpar as (_ & _ & _ & E & _); exact E).
  assert (Htable : Nqs.Lt_ wf' = Nqs.table_spec wf s').
  { rewrite (NqsFacts.coherent_table_spec wf' s' Hco). unfold Nqs.table_spec.
    rewrite Hnh. apply map_ext. exact Hspec. }
  assert (Hfresh : Nqs.fresh_Lt wf s' = Nqs.table_spec wf s').
  { unfold Nqs.fresh_Lt.
    rewrite (NqsFacts.coherent_table_spec _ _ (NqsFacts.InitLt_coherent wf s')).
    unfold Nqs.table_spec. cbn [Nqs.nh_ Nqs.InitLt Nqs.set_Lt]. apply map_ext.
    intros h. apply NqsFacts.theta_spec_same_parameters.
    apply NqsFacts.InitLt_same_parameters. }
  split; [apply NqsFacts.apply_flips_state|].
  split; [exact Hpar|].
  split; [destruct Hco as [Hlen _]; now rewrite Hlen|].
  split.
  { intros h Hh. rewrite <- Hspec, <- NqsFacts.theta_eq_spec. apply Hco. now rewrite Hnh. }
  split; [exact Htable|].
  split; [now rewrite Hfresh|exact Hfresh].
Qed.

Lemma lookup_table_coherence_witness :
  let wf' := fst (apply_flips (Nqs.InitLt Tiny.wf Tiny.up_down) Tiny.up_down
                              [[0%nat]; [0%nat; 1%nat]; [1%nat]]) in
  let s' := snd (apply_flips (Nqs.InitLt Tiny.wf Tiny.up_down) Tiny.up_down
                             [[0%nat]; [0%nat; 1%nat]; [1%nat]]) in
  s' = fold_left flip_sites [[0%nat]; [0%nat; 1%nat]; [1%nat]] Tiny.up_down /\
  Nqs.same_parameters Tiny.wf wf' /\
  length (Nqs.Lt_ wf') = Nqs.nh_ Tiny.wf /\
  (forall h, (h < Nqs.nh_ Tiny.wf)%nat -> Nqs.Lt_at wf' h = Nqs.theta_spec Tiny.wf s' h) /\
  Nqs.Lt_ wf' = Nqs.table_spec Tiny.wf s' /\
  Nqs.Lt_ wf' = Nqs.fresh_Lt Tiny.wf s' /\
  Nqs.fresh_Lt Tiny.wf s' = Nqs.table_spec Tiny.wf s'.
Proof.
  apply (lookup_table_coherence Tiny.wf Tiny.up_down).
  - reflexivity.
  - repeat constructor; simpl; try lia; intuition lia.
Defined.

(** C9.  With a coherent table, updating the table for a flip set and
    flipping its sites, then doing both once more with the same flip set,
    restores the look-up table and the configuration. *)
Theorem double_flip_round_trip (wf : Nqs.t) (s : list Z) (flips : list nat) :
  Nqs.coherent wf s -> flip_set (Nqs.nv_ wf) flips -> length s = Nqs.nv_ wf ->
  let wf1 := Nqs.UpdateLt wf s flips in
  let s1 := flip_sites s flips in
  let wf2 := Nqs.UpdateLt wf1 s1 flips in
  let s2 := flip_sites s1 flips in
  Nqs.Lt_ wf2 = Nqs.Lt_ wf /\ s2 = s.
Proof.
  intros [Hlen Hco] [Hnd Hrange] Hs wf1 s1 wf2 s2.
  split; [|now apply NqsFacts.flip_sites_twice].
  destruct (NqsFacts.UpdateLt_params wf s flips) as (HW & _ & _ & Hnh & _).
  destruct (NqsFacts.UpdateLt_rows wf s flips Hlen) as [Hl1 Hn1].
  fold wf1 in HW, Hnh, Hl1, Hn1.
  assert (Hlen1 : length (Nqs.Lt_ wf1) = Nqs.nh_ wf1) by now rewrite Hnh.
  destruct (NqsFacts.UpdateLt_rows wf1 s1 flips Hlen1) as [Hl2 Hn2].
  fold wf2 in Hl2, Hn2. rewrite Hnh in Hl2, Hn2.
  apply (nth_ext _ _ Cplx.zero Cplx.zero); [lia|].
  intros h Hh. rewrite Hl2 in Hh.
  change (Nqs.Lt_at wf2 h = Nqs.Lt_at wf h).
  rewrite (Hn2 h Hh), (Hn1 h Hh).
  apply (NqsFacts.fold_sub_cancel
           (fun flip => Cplx.scale_l (2 * Nqs.spin s flip) (Nqs.W_at wf flip h))).
  intros f Hf. unfold Nqs.W_at, Nqs.spin. rewrite HW.
  unfold s1. rewrite flip_sites_in; auto.
  - rewrite opp_IZR. CplxFacts.calc.
  - rewrite Forall_forall in Hrange. rewrite Hs. now apply Hrange.
Qed.

Lemma double_flip_round_trip_witness :
  let wf := Nqs.InitLt Tiny.wf Tiny.up_down in
  let wf1 := Nqs.UpdateLt wf Tiny.up_down [0%nat; 1%nat] in
  let s1 := flip_sites Tiny.up_down [0%nat; 1%nat] in
  let wf2 := Nqs.UpdateLt wf1 s1 [0%nat; 1%nat] in
  let s2 := flip_sites s1 [0%nat; 1%nat] in
  Nqs.Lt_ wf2 = Nqs.Lt_ wf /\ s2 = Tiny.up_down.
Proof.
  apply (double_flip_round_trip (Nqs.InitLt Tiny.wf Tiny.up_down) Tiny.up_down).
  - apply NqsFacts.InitLt_coherent.
  - repeat constructor; simpl; try lia; intuition lia.
  - reflexivity.
Defined.

Module RatioFacts.

(** Over exact reals and with a table that is coherent exactly, the
    logarithm of the ratio read off the table is the difference of the
    recomputed logarithms, for any flip set. *)
Lemma LogPoP_LogVal wf s flips :
  Nqs.coherent wf s -> flip_set (Nqs.nv_ wf) flips -> length s = Nqs.nv_ wf ->
  Nqs.LogPoP wf s flips
  = (Nqs.LogVal wf (flip_sites s flips) - Nqs.LogVal wf s)%C.
Proof.
  intros [Hlen Hco] HF Hs.
  destruct flips as [|f0 fs0].
  { cbn. apply CplxFacts.C_eq; simpl; lra. }
  unfold Nqs.LogPoP.
  remember (f0 :: fs0) as flips eqn:E. clear E.
  rewrite (fold_left_ext_in _
             (fun logpop h =>
                (logpop + (Nqs.lncoshC (Nqs.theta wf (flip_sites s flips) h)
                           - Nqs.lncoshC (Nqs.theta wf s h)))%C)).
  2:{ intros h acc Hh. apply in_seq in Hh. cbn zeta.
      rewrite NqsFacts.theta_flip_sites by assumption.
      rewrite Hco by lia. reflexivity. }
  rewrite (CplxFacts.fold_add_map
             (fun h => (Nqs.lncoshC (Nqs.theta wf (flip_sites s flips) h)
                        - Nqs.lncoshC (Nqs.theta wf s h))%C)).
  rewrite (NqsFacts.sum_map_sub
             (fun h => Nqs.lncoshC (Nqs.theta wf (flip_sites s flips) h))
             (fun h => Nqs.lncoshC (Nqs.theta wf s h))).
  unfold Nqs.LogVal.
  rewrite !(CplxFacts.fold_add_map (fun h => Nqs.lncoshC (Nqs.theta wf _ h))).
  rewrite !(CplxFacts.fold_add_map (fun v => Cplx.scale_r (Nqs.a_at wf v) (Nqs.spin _ v))).
  rewrite !(map_ext (fun v => Cplx.scale_r (Nqs.a_at wf v) (Nqs.spin _ v))
                    (fun v => Cplx.scale_l (Nqs.spin _ v) (Nqs.a_at wf v)))
    by (intros v; CplxFacts.calc).
  rewrite (NqsFacts.linear_flip_sites (Nqs.a_at wf) (Nqs.nv_ wf) s flips Cplx.zero HF Hs).
  rewrite (CplxFacts.fold_sub_start
             (fun flip => Cplx.scale_l (2 * Nqs.spin s flip) (Nqs.a_at wf flip))).
  rewrite (fold_left_ext_in
             (fun logpop flip =>
                (logpop - Cplx.scale_r (Cplx.scale_r (Nqs.a_at wf flip) 2)
                                       (Nqs.spin s flip))%C)
             (fun t flip =>
                (t - Cplx.scale_l (2 * Nqs.spin s flip) (Nqs.a_at wf flip))%C)).
  2:{ intros v acc _. f_equal. CplxFacts.calc. }
  CplxFacts.calc.
Qed.

End RatioFacts.



(** ** The real [lncosh] *)

Module LncoshFacts.

Import Nqs.
Open Scope R_scope.

Lemma cosh_pos x : 0 < cosh x.
Proof.
  unfold cosh. pose proof (exp_pos x). pose proof (exp_pos (- x)). lra.
Qed.

Lemma cosh_increasing x y : 0 <= x -> x < y -> cosh x < cosh y.
Proof.
  intros Hx Hxy. unfold cosh. rewrite !exp_Ropp.
  assert (Ha : 1 <= exp x).
  { destruct Hx as [Hx| <-]; [|rewrite exp_0; lra].
    left. rewrite <- exp_0. now apply exp_increasing. }
  assert (Hb : exp x < exp y) by now apply exp_increasing.
  set (a := exp x) in *. set (b := exp y) in *.
  assert (Hia : a * / a = 1) by (apply Rinv_r; lra).
  assert (Hib : b * / b = 1) by (apply Rinv_r; lra).
  assert (Hpa : 0 < / a) by (apply Rinv_0_lt_compat; lra).
  assert (Hpb : 0 < / b) by (apply Rinv_0_lt_compat; lra).
  assert (Hla : / a <= 1) by nra.
  assert (Hlb : / b < 1) by nra.
  assert (Hdiff : / a - / b = (b - a) * (/ a * / b)).
  { transitivity ((b * / b) * / a - (a * / a) * / b); [rewrite Hia, Hib; ring|ring]. }
  assert (Hprod : / a * / b < 1) by nra.
  assert (/ a - / b < b - a) by (rewrite Hdiff; nra).
  lra.
Qed.

Lemma lncosh_below x : 0 <= x <= 12 -> lncosh x = ln (cosh x).
Proof.
  intros [H0 H12]. unfold lncosh. rewrite Rabs_right by lra.
  destruct (Rle_dec x 12); [reflexivity|lra].
Qed.

Lemma lncosh_above x : 12 < x -> lncosh x = x - ln 2.
Proof.
  intros H12. unfold lncosh, log2_. rewrite Rabs_right by lra.
  destruct (Rle_dec x 12); [lra|reflexivity].
Qed.

Lemma cutoff_gap_pos : 0 < cutoff_gap.
Proof.
  unfold cutoff_gap. rewrite <- ln_1.
  apply ln_increasing; [lra|]. pose proof (exp_pos (-24)). lra.
Qed.

Lemma ln_cosh_12 : ln (cosh 12) = 12 - ln 2 + cutoff_gap.
Proof.
  unfold cutoff_gap, cosh.
  replace (exp (Ropp 12)) with (exp 12 * exp (-24))
    by (rewrite <- exp_plus; f_equal; lra).
  replace ((exp 12 + exp 12 * exp (-24)) / 2)
    with (exp 12 * ((1 + exp (-24)) * / 2)) by (unfold Rdiv; ring).
  pose proof (exp_pos 12). pose proof (exp_pos (-24)).
  rewrite ln_mult; [|lra|nra].
  rewrite ln_mult; [|lra|lra].
  rewrite ln_Rinv, ln_exp by lra. ring.
Qed.

Lemma lncosh_increasing_below x y :
  0 < x -> x < y -> y <= 12 -> lncosh x < lncosh y.
Proof.
  intros Hx Hxy Hy. rewrite !lncosh_below by lra.
  apply ln_increasing; [apply cosh_pos|]. apply cosh_increasing; lra.
Qed.

Lemma lncosh_increasing_above x y :
  12 < x -> x < y -> lncosh x < lncosh y.
Proof.
  intros Hx Hxy. rewrite !lncosh_above by lra. lra.
Qed.

Lemma ln_cosh_continuous x : continuity_pt (fun y => ln (cosh y)) x.
Proof.
  apply (continuity_pt_comp cosh ln).
  - apply derivable_continuous_pt, derivable_pt_cosh.
  - apply derivable_continuous_pt. exists (/ cosh x).
    apply derivable_pt_lim_ln, cosh_pos.
Qed.

Lemma lncosh_continuous_below x : 0 < x < 12 -> continuity_pt lncosh x.
Proof.
  intros [H0 H12].
  apply (continuity_pt_locally_ext (fun y => ln (cosh y)) lncosh (Rmin x (12 - x))).
  - apply Rmin_glb_lt; lra.
  - intros y Hy. symmetry. apply lncosh_below.
    unfold Rdist in Hy.
    pose proof (Rmin_l x (12 - x)). pose proof (Rmin_r x (12 - x)).
    destruct (Rabs_def2 _ _ Hy). lra.
  - apply ln_cosh_continuous.
Qed.

Lemma lncosh_continuous_above x : 12 < x -> continuity_pt lncosh x.
Proof.
  intros H12.
  apply (continuity_pt_locally_ext (fun y => y - ln 2) lncosh (x - 12)).
  - lra.
  - intros y Hy. symmetry. apply lncosh_above.
    unfold Rdist in Hy. destruct (Rabs_def2 _ _ Hy). lra.
  - apply derivable_continuous_pt. exists 1.
    replace 1 with (1 - 0) by lra.
    apply (derivable_pt_lim_minus id (fun _ => ln 2)).
    + apply derivable_pt_lim_id.
    + apply derivable_pt_lim_const.
Qed.

(** Just above the cutoff the asymptotic branch lies below the value at
    the cutoff itself. *)
Lemma lncosh_drop y : 12 < y -> lncosh y - lncosh 12 = (y - 12) - cutoff_gap.
Proof.
  intros Hy. rewrite lncosh_above by assumption.
  rewrite lncosh_below by lra. rewrite ln_cosh_12. ring.
Qed.

Lemma lncosh_discontinuous_at_cutoff : ~ continuity_pt lncosh 12.
Proof.
  intros Hc. pose proof cutoff_gap_pos as Hg.
  destruct (Hc (cutoff_gap / 2)) as (d & Hd & Hlim); [lra|].
  set (y := 12 + Rmin (d / 2) (cutoff_gap / 4)).
  pose proof (Rmin_l (d / 2) (cutoff_gap / 4)).
  pose proof (Rmin_r (d / 2) (cutoff_gap / 4)).
  assert (0 < Rmin (d / 2) (cutoff_gap / 4)) by (apply Rmin_glb_lt; lra).
  specialize (Hlim y). simpl in Hlim. unfold Rdist in Hlim.
  assert (Hy : 12 < y) by (unfold y; lra).
  assert (Hclose : Rabs (lncosh y - lncosh 12) < cutoff_gap / 2).
  { apply Hlim. split.
    - split; [exact I|]. lra.
    - unfold y. rewrite Rabs_right; lra. }
  rewrite lncosh_drop in Hclose by assumption.
  rewrite Rabs_left in Hclose; unfold y in *; lra.
Qed.

End LncoshFacts.

(** ** The cut of the logarithm *)

Module CutFacts.

Open Scope R_scope.















End CutFacts.


(** C5, amended.  The real [lncosh] is continuous at every positive argument
    other than the cutoff 12 and strictly increasing on (0,12] and on
    (12,infinity); on crossing the cutoff it drops by ln(1 + exp(-24)), the
    error of the asymptotic branch. *)
Theorem lncosh_piecewise_regular :
  (forall x, (0 < x)%R -> x <> 12%R -> continuity_pt Nqs.lncosh x) /\
  (forall x y, (0 < x)%R -> (x < y)%R -> (y <= 12)%R \/ (12 < x)%R ->
               (Nqs.lncosh x < Nqs.lncosh y)%R) /\
  (forall y, (12 < y)%R ->
             (Nqs.lncosh y - Nqs.lncosh 12 = (y - 12) - Nqs.cutoff_gap)%R) /\
  (0 < Nqs.cutoff_gap)%R.
Proof.
  repeat split.
  - intros x Hx Hne. destruct (Rlt_dec x 12).
    + apply LncoshFacts.lncosh_continuous_below; lra.
    + apply LncoshFacts.lncosh_continuous_above; lra.
  - intros x y Hx Hxy [Hy|Hx12].
    + now apply LncoshFacts.lncosh_increasing_below.
    + now apply LncoshFacts.lncosh_increasing_above.
  - apply LncoshFacts.lncosh_drop.
  - apply LncoshFacts.cutoff_gap_pos.
Qed.

Lemma lncosh_piecewise_regular_witness :
  continuity_pt Nqs.lncosh 1 /\ (Nqs.lncosh 1 < Nqs.lncosh 2)%R /\
  (Nqs.lncosh 13 - Nqs.lncosh 12 = (13 - 12) - Nqs.cutoff_gap)%R.
Proof.
  destruct lncosh_piecewise_regular as (Hc & Hm & Hd & _).
  split; [|split].
  - apply Hc; lra.
  - apply Hm; lra.
  - apply Hd; lra.
Defined.

(** C5 as stated fails: 12 and [just_above_cutoff] are positive and ordered,
    yet [lncosh] is larger at 12. *)
Lemma lncosh_not_increasing_across_cutoff :
  (0 < 12)%R /\ (12 < Nqs.just_above_cutoff)%R /\
  (Nqs.lncosh Nqs.just_above_cutoff < Nqs.lncosh 12)%R /\
  ~ continuity_pt Nqs.lncosh 12.
Proof.
  pose proof LncoshFacts.cutoff_gap_pos as Hg.
  assert (H12 : (12 < Nqs.just_above_cutoff)%R) by (unfold Nqs.just_above_cutoff; lra).
  repeat split; try lra.
  - pose proof (LncoshFacts.lncosh_drop _ H12) as Hd.
    unfold Nqs.just_above_cutoff in Hd at 2. lra.
  - apply LncoshFacts.lncosh_discontinuous_at_cutoff.
Qed.

(** ** The sampler *)

Section SamplerFacts.

Context {G : Type} (distu_ : G -> R * G) (distn_ : G -> nat * G).
Context {H : Type} `{Hamiltonian H}.

Open Scope R_scope.

Lemma acceptance_nonneg (s : Sampler.t (G := G) (H := H)) :
  0 <= Sampler.acceptance s.
Proof. apply CplxFacts.norm_nonneg. Qed.

(** [Move] in two steps: the proposal, then the test. *)
Lemma Move_unfold (s : Sampler.t (G := G) (H := H)) nflips :
  Sampler.Move distu_ distn_ s nflips
  = let p := Sampler.RandSpin distn_ s nflips true in
    let s1 := snd p in
    let u := fst (distu_ (Sampler.gen_ s1)) in
    let s2 := Sampler.set_gen s1 (snd (distu_ (Sampler.gen_ s1))) in
    let s3 :=
      if fst p
      then if Rgt_dec (Sampler.acceptance s1) u then Sampler.accept_move s2 else s2
      else s1 in
    Sampler.set_nmoves s3 (Sampler.nmoves_ s3 + 1).
Proof.
  unfold Sampler.Move, Sampler.Uniform.
  destruct (Sampler.RandSpin distn_ s nflips true) as [ok s1]. cbn [fst snd].
  destruct ok; [|reflexivity].
  destruct (distu_ (Sampler.gen_ s1)) as [u g]. reflexivity.
Qed.

End SamplerFacts.

(** C10.  [MeasureEnergy] appends exactly one value to the energy samples
    and leaves the configuration, the wave function with its look-up table,
    the generator and the move counters as they were, whatever the
    Hamiltonian. *)
Theorem MeasureEnergy_frame {G H : Type} {ham : Hamiltonian H}
    (s : Sampler.t (G := G) (H := H)) :
  (exists en, Sampler.energy_ (Sampler.MeasureEnergy s) = Sampler.energy_ s ++ [en]) /\
  length (Sampler.energy_ (Sampler.MeasureEnergy s)) = S (length (Sampler.energy_ s)) /\
  Sampler.state_ (Sampler.MeasureEnergy s) = Sampler.state_ s /\
  Sampler.wf_ (Sampler.MeasureEnergy s) = Sampler.wf_ s /\
  Nqs.Lt_ (Sampler.wf_ (Sampler.MeasureEnergy s)) = Nqs.Lt_ (Sampler.wf_ s) /\
  Sampler.gen_ (Sampler.MeasureEnergy s) = Sampler.gen_ s /\
  Sampler.accept_ (Sampler.MeasureEnergy s) = Sampler.accept_ s /\
  Sampler.nmoves_ (Sampler.MeasureEnergy s) = Sampler.nmoves_ s.
Proof.
  unfold Sampler.MeasureEnergy.
  destruct (FindConn (Sampler.hamiltonian_ s) (Sampler.state_ s)
                     (Sampler.flipsh_ s) (Sampler.mel_ s)) as [flipsh mel].
  cbn. repeat split.
  - eexists; reflexivity.
  - rewrite length_app. simpl. lia.
Qed.

Lemma uphill_proposal :
  Sampler.RandSpin (Tiny.distn_ 1) Tiny.uphill 1 true
  = (true, Sampler.set_gen Tiny.uphill 1%nat).
Proof. reflexivity. Qed.

Lemma uphill_acceptance g :
  Sampler.acceptance (Sampler.set_gen Tiny.uphill g) = (exp 2 * exp 2)%R.
Proof.
  unfold Sampler.acceptance, Nqs.PoP. rewrite CplxFacts.norm_cexp.
  assert (E : Cplx.re (Nqs.LogPoP (Sampler.wf_ (Sampler.set_gen Tiny.uphill g))
                (Sampler.state_ (Sampler.set_gen Tiny.uphill g))
                (Sampler.flips_ (Sampler.set_gen Tiny.uphill g))) = 2%R).
  { cbn. unfold Nqs.spin. cbn. lra. }
  now rewrite E.
Qed.

Lemma exp_2_gt_1 : (1 < exp 2)%R.
Proof. rewrite <- exp_0. apply exp_increasing. lra. Qed.

(** C4 as stated fails: on [Tiny.uphill] the quantity [Move] compares with
    the variate is exp(2)^2, larger than 1. *)
Lemma acceptance_exceeds_one :
  ~ (0 <= Sampler.acceptance
            (snd (Sampler.RandSpin (Tiny.distn_ 1) Tiny.uphill 1 true)) <= 1)%R.
Proof.
  rewrite uphill_proposal. cbn [snd]. rewrite uphill_acceptance.
  pose proof exp_2_gt_1. nra.
Qed.

(** C4, amended.  The quantity [Move] computes is |PoP|^2 itself, never
    negative but not clamped.  When the proposal stands, [Move] draws one
    variate and accepts iff the variate is below that quantity; for a variate
    in [0,1) this is the same as being below min(1, |PoP|^2).  A two-flip
    proposal of equal spins is rejected without a draw. *)
Theorem Move_acceptance_test {G H : Type} {ham : Hamiltonian H}
    (distu_ : G -> R * G) (distn_ : G -> nat * G)
    (s : Sampler.t (G := G) (H := H)) (nflips : Z) :
  (forall g, 0 <= fst (distu_ g) < 1)%R ->
  let p := Sampler.RandSpin distn_ s nflips true in
  let s1 := snd p in
  let u := fst (distu_ (Sampler.gen_ s1)) in
  let s2 := Sampler.set_gen s1 (snd (distu_ (Sampler.gen_ s1))) in
  let moved := Sampler.Move distu_ distn_ s nflips in
  (0 <= Sampler.acceptance s1)%R /\
  (0 <= Rmin 1 (Sampler.acceptance s1) <= 1)%R /\
  ((u < Sampler.acceptance s1)%R <-> (u < Rmin 1 (Sampler.acceptance s1))%R) /\
  (fst p = true -> (u < Rmin 1 (Sampler.acceptance s1))%R ->
   moved = Sampler.set_nmoves (Sampler.accept_move s2)
                              (Sampler.nmoves_ s1 + 1)%R) /\
  (fst p = true -> ~ (u < Rmin 1 (Sampler.acceptance s1))%R ->
   moved = Sampler.set_nmoves s2 (Sampler.nmoves_ s1 + 1)%R) /\
  (fst p = false ->
   moved = Sampler.set_nmoves s1 (Sampler.nmoves_ s1 + 1)%R).
Proof.
  intros Hu p s1 u s2 moved.
  pose proof (acceptance_nonneg s1) as H0.
  assert (Hiff : (u < Sampler.acceptance s1 <-> u < Rmin 1 (Sampler.acceptance s1))%R).
  { specialize (Hu (Sampler.gen_ s1)). fold u in Hu.
    unfold Rmin. destruct (Rle_dec 1 (Sampler.acceptance s1)); lra. }
  split; [exact H0|]. split.
  { unfold Rmin. destruct (Rle_dec 1 (Sampler.acceptance s1)); lra. }
  split; [exact Hiff|].
  unfold moved. rewrite (Move_unfold distu_ distn_ s nflips).
  fold p. cbn zeta. fold s1. fold u. fold s2.
  repeat split.
  - intros Hok Hlt. rewrite Hok.
    destruct (Rgt_dec (Sampler.acceptance s1) u) as [_|Hn]; [reflexivity|].
    exfalso; apply Hn. apply Hiff in Hlt. exact Hlt.
  - intros Hok Hlt. rewrite Hok.
    destruct (Rgt_dec (Sampler.acceptance s1) u) as [Hy|_]; [|reflexivity].
    exfalso; apply Hlt, Hiff. exact Hy.
  - intros Hok. rewrite Hok. reflexivity.
Qed.

Lemma Move_acceptance_test_witness :
  Sampler.Move Tiny.distu_ (Tiny.distn_ 1) Tiny.uphill 1
  = Sampler.set_nmoves
      (Sampler.accept_move (Sampler.set_gen Tiny.uphill 2%nat)) (0 + 1)%R.
Proof.
  assert (Hu : forall g, (0 <= fst (Tiny.distu_ g) < 1)%R)
    by (intros g; simpl; lra).
  destruct (Move_acceptance_test Tiny.distu_ (Tiny.distn_ 1) Tiny.uphill 1 Hu)
    as (_ & _ & _ & Hacc & _).
  rewrite uphill_proposal in Hacc. cbn [fst snd] in Hacc.
  apply Hacc; [reflexivity|].
  rewrite uphill_acceptance. pose proof exp_2_gt_1.
  unfold Rmin. destruct (Rle_dec 1 (exp 2 * exp 2)); simpl; [lra|nra].
Defined.


(** ** The estimator *)

Module EstimatorFacts.

Import Estimator.
Open Scope R_scope.

Lemma Rsum_start l a : fold_left Rplus l a = a + Rsum l.
Proof.
  unfold Rsum. revert a. induction l as [|x l IH]; intros a; simpl.
  - lra.
  - rewrite IH, (IH (0 + x)). lra.
Qed.

Lemma Rsum_nil : Rsum [] = 0.
Proof. reflexivity. Qed.

Lemma Rsum_cons x l : Rsum (x :: l) = x + Rsum l.
Proof. unfold Rsum at 1. simpl. rewrite Rsum_start. lra. Qed.

Lemma Rsum_app l l' : Rsum (l ++ l') = Rsum l + Rsum l'.
Proof.
  induction l as [|x l IH]; simpl.
  - unfold Rsum at 2. simpl. lra.
  - rewrite !Rsum_cons, IH. lra.
Qed.

Lemma Rsum_seq_S (x : nat -> R) a b :
  Rsum (map x (seq a (S b))) = Rsum (map x (seq a b)) + x (a + b)%nat.
Proof.
  rewrite seq_S, map_app, Rsum_app. cbn [map]. rewrite Rsum_cons, Rsum_nil. lra.
Qed.

Lemma Rsum_seq_split (x : nat -> R) a b :
  Rsum (map x (seq 0 (a + b))) = Rsum (map x (seq 0 a)) + Rsum (map x (seq a b)).
Proof. now rewrite seq_app, map_app, Rsum_app. Qed.

Lemma welford_inv_0 x : welford_inv x 0 0 0.
Proof. unfold welford_inv, Rsum. simpl. split; lra. Qed.

Lemma welford_inv_step x k mu m2 :
  welford_inv x k mu m2 ->
  welford_inv x (S k)
    (mu + (x k - mu) / INR (k + 1))
    (m2 + (x k - mu) * (x k - (mu + (x k - mu) / INR (k + 1)))).
Proof.
  intros [Hmu Hm2]. unfold welford_inv.
  rewrite !Rsum_seq_S, <- Hmu, Hm2. simpl (0 + k)%nat.
  replace (k + 1)%nat with (S k) by lia. rewrite S_INR.
  pose proof (pos_INR k) as Hk.
  split; field; lra.
Qed.

Lemma sample_fold x a b eblock mu m2 :
  welford_inv x a mu m2 ->
  exists mu' m2',
    fold_left (Sampler.sample_step x) (seq a b) (eblock, mu, m2)
    = (eblock + Rsum (map x (seq a b)), mu', m2') /\
    welford_inv x (a + b) mu' m2'.
Proof.
  intros Hinv. induction b as [|b IH].
  - exists mu, m2. simpl. rewrite Nat.add_0_r. split; [|exact Hinv].
    unfold Rsum; simpl. f_equal. f_equal. lra.
  - destruct IH as (mu' & m2' & Hfold & Hinv').
    rewrite Rsum_seq_S, seq_S, fold_left_app, Hfold.
    cbn [fold_left Sampler.sample_step].
    eexists _, _. split.
    + f_equal. f_equal. lra.
    + replace (a + S b)%nat with (S (a + b)) by lia.
      now apply welford_inv_step.
Qed.

Lemma block_fold x bs k :
  let w := fold_left (Sampler.block_step x bs) (seq 0 k) (Sampler.mkWelford 0 0 0 0) in
  welford_inv (block_mean_of x bs) k (Sampler.enmean w) (Sampler.enmeansq w) /\
  welford_inv x (k * bs) (Sampler.enmean_unblocked w) (Sampler.enmeansq_unblocked w).
Proof.
  induction k as [|k IH]; cbn zeta.
  - simpl. split; apply welford_inv_0.
  - rewrite seq_S, fold_left_app. cbn [fold_left]. cbn zeta in IH.
    set (w := fold_left (Sampler.block_step x bs) (seq 0 k) (Sampler.mkWelford 0 0 0 0)) in *.
    destruct IH as [Hb Hu]. simpl (0 + k)%nat.
    unfold Sampler.block_step.
    destruct (sample_fold x (k * bs) bs 0 _ _ Hu) as (mu' & m2' & Hfold & Hinv').
    rewrite Hfold. cbn [Sampler.enmean Sampler.enmeansq Sampler.enmean_unblocked
                        Sampler.enmeansq_unblocked].
    split.
    + rewrite Rplus_0_l. now apply (welford_inv_step (block_mean_of x bs)).
    + replace (S k * bs)%nat with (k * bs + bs)%nat by lia. exact Hinv'.
Qed.

(** The sum of squared deviations from the mean. *)
Lemma sum_sq_dev (x : nat -> R) k m :
  INR k * m = Rsum (map x (seq 0 k)) ->
  Rsum (map (fun j => (x j - m) * (x j - m)) (seq 0 k))
  = Rsum (map (fun j => x j * x j) (seq 0 k)) - INR k * (m * m).
Proof.
  intros Hm.
  assert (Hgen : Rsum (map (fun j => (x j - m) * (x j - m)) (seq 0 k))
                 = Rsum (map (fun j => x j * x j) (seq 0 k))
                   - 2 * m * Rsum (map x (seq 0 k)) + INR k * (m * m)).
  { clear Hm. induction k as [|k IH].
    - simpl. rewrite !Rsum_nil. lra.
    - rewrite !Rsum_seq_S, IH, S_INR. simpl (0 + k)%nat. ring. }
  rewrite Hgen, <- Hm. ring.
Qed.

Lemma sum_block_means x bs k :
  INR bs * Rsum (map (block_mean_of x bs) (seq 0 k)) = Rsum (map x (seq 0 (k * bs))).
Proof.
  destruct (Nat.eq_dec bs 0) as [->|Hbs].
  - rewrite Nat.mul_0_r. simpl. rewrite Rsum_nil. lra.
  - assert (Hpos : 0 < INR bs) by (apply lt_0_INR; lia).
    induction k as [|k IH].
    + simpl. rewrite !Rsum_nil. lra.
    + rewrite Rsum_seq_S. simpl (0 + k)%nat.
      replace (S k * bs)%nat with (k * bs + bs)%nat by lia.
      rewrite Rsum_seq_split, <- IH. unfold block_mean_of. field. lra.
Qed.

Lemma nth_map_seq {A} (f : nat -> A) a b i d :
  (i < b)%nat -> nth i (map f (seq a b)) d = f (a + i)%nat.
Proof.
  intros Hi. rewrite (nth_indep (map f (seq a b)) d (f 0%nat))
    by (rewrite length_map, length_seq; lia).
  now rewrite map_nth, seq_nth.
Qed.

Lemma firstn_skipn_seq (l : list R) a b :
  (a + b <= length l)%nat ->
  firstn b (skipn a l) = map (fun j => nth j l 0) (seq a b).
Proof.
  intros Hlen. apply (nth_ext _ _ 0 0).
  - rewrite length_firstn, length_skipn, length_map, length_seq. lia.
  - intros i Hi. rewrite length_firstn, length_skipn in Hi.
    assert (Hib : (i < b)%nat) by lia.
    rewrite nth_firstn, nth_skipn.
    apply Nat.ltb_lt in Hib as Hb. rewrite Hb.
    now rewrite nth_map_seq.
Qed.

Lemma firstn_seq (l : list R) k :
  (k <= length l)%nat -> firstn k l = map (fun j => nth j l 0) (seq 0 k).
Proof. intros Hk. now rewrite <- (firstn_skipn_seq l 0 k). Qed.

Lemma firstn_add {A} (l : list A) a b :
  firstn (a + b) l = firstn a l ++ firstn b (skipn a l).
Proof.
  revert l; induction a as [|a IH]; intros [|h t]; simpl; auto.
  - now rewrite firstn_nil.
  - now rewrite IH.
Qed.

Lemma concat_blocks {A} (l : list A) bs k :
  concat (map (fun i => firstn bs (skipn (i * bs) l)) (seq 0 k)) = firstn (k * bs) l.
Proof.
  induction k as [|k IH]; [reflexivity|].
  rewrite seq_S, map_app, concat_app, IH. simpl (0 + k)%nat. cbn [map concat].
  rewrite app_nil_r. replace (S k * bs)%nat with (k * bs + bs)%nat by lia.
  now rewrite firstn_add.
Qed.

Lemma blocksize_floor n :
  Z.to_nat (Int_part (INR n / INR 50)) = Nat.div n 50.
Proof.
  assert (H : Int_part (INR n / INR 50) = Z.of_nat (n / 50)).
  { unfold Int_part.
    assert (Hup : (Z.of_nat (n / 50) + 1)%Z = up (INR n / INR 50)).
    { apply up_tech.
      - rewrite <- INR_IZR_INZ.
        pose proof (Nat.Div0.mul_div_le n 50) as Hle.
        apply le_INR in Hle. rewrite mult_INR in Hle.
        replace (INR 50) with 50 in * by (simpl; lra).
        lra.
      - rewrite plus_IZR, <- INR_IZR_INZ.
        pose proof (Nat.mul_succ_div_gt n 50) as Hlt. specialize (Hlt ltac:(lia)).
        apply lt_INR in Hlt. rewrite mult_INR, (S_INR (n / 50)) in Hlt.
        replace (INR 50) with 50 in * by (simpl; lra).
        lra. }
    lia. }
  rewrite H. apply Nat2Z.id.
Qed.


Lemma INR_50 : INR 50 = 50.
Proof. rewrite INR_IZR_INZ. reflexivity. Qed.

Lemma INR_49 : INR (50 - 1) = 49.
Proof. rewrite INR_IZR_INZ. reflexivity. Qed.

Lemma blocksize_bounds (samples : list R) :
  (50 <= length samples)%nat ->
  (1 <= blocksize samples)%nat /\ (50 * blocksize samples <= length samples)%nat.
Proof.
  intros Hn. unfold blocksize, Estimator.nblocks. split.
  - apply Nat.div_le_lower_bound; lia.
  - apply Nat.Div0.mul_div_le.
Qed.

Lemma retained_as_seq (samples : list R) :
  (50 <= length samples)%nat ->
  retained samples
  = map (fun j => nth j samples 0) (seq 0 (50 * blocksize samples)).
Proof.
  intros Hn. destruct (blocksize_bounds samples Hn) as [_ HK].
  unfold retained, Estimator.nblocks.
  now apply firstn_seq.
Qed.

Lemma block_means_as_seq (samples : list R) :
  (50 <= length samples)%nat ->
  block_means samples
  = map (block_mean_of (fun j => nth j samples 0) (blocksize samples))
        (seq 0 50).
Proof.
  intros Hn. destruct (blocksize_bounds samples Hn) as [_ HK].
  unfold block_means, Estimator.nblocks. apply map_ext_in.
  intros i Hi. apply in_seq in Hi.
  unfold block, mean, block_mean_of.
  assert (Hi' : (i * blocksize samples + blocksize samples <= length samples)%nat).
  { apply Nat.le_trans with (50 * blocksize samples)%nat; [|exact HK].
    replace (i * blocksize samples + blocksize samples)%nat
      with (S i * blocksize samples)%nat by (simpl; lia).
    apply Nat.mul_le_mono_r. lia. }
  rewrite firstn_skipn_seq by exact Hi'.
  now rewrite length_map, length_seq.
Qed.

(** From the two invariants to the quantities of the description. *)
Lemma estimates_from_invariants (x : nat -> R) (bs : nat) (em eq um uq : R) :
  (1 <= bs)%nat ->
  welford_inv (block_mean_of x bs) 50 em eq ->
  welford_inv x (50 * bs) um uq ->
  let kept := map x (seq 0 (50 * bs)) in
  let means := map (block_mean_of x bs) (seq 0 50) in
  mean kept = em /\ mean means = em /\
  sample_variance means = eq / INR (50 - 1) /\
  sample_variance kept = uq / IZR (Z.of_nat 50 * Z.of_nat bs - 1).
Proof.
  intros Hbs [Hbm Hbq] [Hum Huq] kept means.
  assert (Hbspos : 0 < INR bs) by (apply lt_0_INR; lia).
  assert (HKR : INR (50 * bs) = 50 * INR bs) by (now rewrite mult_INR, INR_50).
  pose proof (sum_block_means x bs 50) as Hsum.
  assert (Hmean_ret : mean kept = um).
  { unfold mean, kept. rewrite length_map, length_seq, <- Hum, HKR. field. lra. }
  assert (Hmean_blk : mean means = em).
  { unfold mean, means. rewrite length_map, length_seq, <- Hbm, INR_50. field. }
  assert (Hsame : em = um).
  { rewrite INR_50 in Hbm. rewrite HKR in Hum.
    apply (Rmult_eq_reg_l (50 * INR bs)); [|lra].
    rewrite Hum, <- Hsum, <- Hbm. ring. }
  split; [now rewrite Hmean_ret|]. split; [exact Hmean_blk|]. split.
  - unfold sample_variance. rewrite Hmean_blk. unfold means.
    rewrite map_map, length_map, length_seq.
    rewrite (sum_sq_dev (block_mean_of x bs) 50 _ Hbm), <- Hbq.
    rewrite INR_50, INR_49. f_equal. lra.
  - unfold sample_variance. rewrite Hmean_ret. unfold kept.
    rewrite map_map, length_map, length_seq.
    rewrite (sum_sq_dev x (50 * bs) _ Hum), <- Huq.
    rewrite minus_IZR, mult_IZR, <- !INR_IZR_INZ, INR_50. f_equal. rewrite HKR. lra.
Qed.

Lemma welford_inv_ext (x x' : nat -> R) k mu m2 :
  (forall j, x j = x' j) ->
  welford_inv x k mu m2 -> welford_inv x' k mu m2.
Proof.
  intros Hx [Hm Hq]. unfold welford_inv.
  rewrite <- (map_ext x x' Hx).
  rewrite <- (map_ext (fun j => x j * x j) (fun j => x' j * x' j))
    by (intros j; now rewrite Hx).
  now split.
Qed.

Lemma block_mean_of_ext (x x' : nat -> R) bs i :
  (forall j, x j = x' j) ->
  block_mean_of x bs i = block_mean_of x' bs i.
Proof.
  intros Hx. unfold block_mean_of. now rewrite (map_ext x x' Hx).
Qed.

Lemma energy_re_nth {G H : Type} (s : Sampler.t (G := G) (H := H)) j :
  Sampler.energy_re s j = nth j (map Cplx.re (Sampler.energy_ s)) 0.
Proof.
  unfold Sampler.energy_re. symmetry.
  change 0 with (Cplx.re Cplx.zero). apply map_nth.
Qed.

(** What [OutputEnergy] prints, in terms of what its loops leave. *)
Lemma OutputEnergy_fields {G H : Type} (s : Sampler.t (G := G) (H := H)) :
  forall bs w,
  bs = Nat.div (length (Sampler.energy_ s)) 50 ->
  w = fold_left (Sampler.block_step (Sampler.energy_re s) bs) (seq 0 50)
                (Sampler.mkWelford 0 0 0 0) ->
  Sampler.OutputEnergy s
  = Report.mk (Sampler.enmean w / INR (Sampler.nspins_ s))
             (sqrt (Sampler.enmeansq w / INR (50 - 1) / INR 50) / INR (Sampler.nspins_ s))
             50 bs
             (0.5 * INR bs * (Sampler.enmeansq w / INR (50 - 1))
              / (Sampler.enmeansq_unblocked w / IZR (Z.of_nat 50 * Z.of_nat bs - 1))).
Proof.
  intros bs w Hbs Hw. unfold Sampler.OutputEnergy.
  rewrite blocksize_floor, <- Hbs, <- Hw. reflexivity.
Qed.

End EstimatorFacts.

(** C7.  With at least 50 samples, [OutputEnergy] keeps the first
    50 * floor(n/50) of them (their real parts), cut into 50 contiguous
    blocks, and reports: the mean of the kept samples over N, which is also
    the mean of the 50 block means over N; the square root of the sample
    variance of the block means (divisor 49) over 50, over N; and half the
    block size times the ratio of that variance to the sample variance of
    the kept samples. *)
Theorem OutputEnergy_estimates {G H : Type} (s : Sampler.t (G := G) (H := H)) :
  (50 <= length (Sampler.energy_ s))%nat ->
  let samples := map Cplx.re (Sampler.energy_ s) in
  let r := Sampler.OutputEnergy s in
  let N := INR (Sampler.nspins_ s) in
  Report.nblocks r = 50%nat /\
  Report.blocksize r = Estimator.blocksize samples /\
  (1 <= Estimator.blocksize samples)%nat /\
  concat (map (Estimator.block samples) (seq 0 50)) = Estimator.retained samples /\
  length (Estimator.retained samples) = (50 * Estimator.blocksize samples)%nat /\
  Report.estav r = (Estimator.mean (Estimator.retained samples) / N)%R /\
  Report.estav r = (Estimator.mean (Estimator.block_means samples) / N)%R /\
  Report.esterror r
  = (sqrt (Estimator.sample_variance (Estimator.block_means samples) / 50) / N)%R /\
  Report.autocorr r
  = (0.5 * INR (Estimator.blocksize samples)
     * Estimator.sample_variance (Estimator.block_means samples)
     / Estimator.sample_variance (Estimator.retained samples))%R.
Proof.
  intros Hn samples r N.
  assert (Hlen : length samples = length (Sampler.energy_ s))
    by (unfold samples; apply length_map).
  assert (Hn' : (50 <= length samples)%nat) by (rewrite Hlen; exact Hn).
  destruct (EstimatorFacts.blocksize_bounds samples Hn') as [Hbs1 HK].
  pose proof (EstimatorFacts.retained_as_seq samples Hn') as Hret.
  pose proof (EstimatorFacts.block_means_as_seq samples Hn') as Hblocks.
  assert (Hcat : concat (map (Estimator.block samples) (seq 0 50))
                 = Estimator.retained samples).
  { unfold Estimator.block, Estimator.retained, Estimator.nblocks.
    apply (EstimatorFacts.concat_blocks samples (Estimator.blocksize samples) 50). }
  assert (Hretlen : length (Estimator.retained samples)
                    = (50 * Estimator.blocksize samples)%nat).
  { rewrite Hret, length_map, length_seq. reflexivity. }
  assert (Hbs : Estimator.blocksize samples
                = Nat.div (length (Sampler.energy_ s)) 50).
  { unfold Estimator.blocksize, Estimator.nblocks. now rewrite Hlen. }
  remember (Estimator.blocksize samples) as bs eqn:Ebs.
  remember (fold_left (Sampler.block_step (Sampler.energy_re s) bs) (seq 0 50)
                      (Sampler.mkWelford 0 0 0 0)) as w eqn:Ew.
  assert (Hr : r = Sampler.OutputEnergy s) by reflexivity.
  rewrite (EstimatorFacts.OutputEnergy_fields s bs w Hbs Ew) in Hr.
  pose proof (EstimatorFacts.block_fold (Sampler.energy_re s) bs 50) as Hfold.
  cbv zeta in Hfold. rewrite <- Ew in Hfold. destruct Hfold as [Hb Hu].
  assert (Hx : forall j, Sampler.energy_re s j = nth j samples 0%R)
    by (intros j; apply EstimatorFacts.energy_re_nth).
  apply (EstimatorFacts.welford_inv_ext (Sampler.energy_re s)
           (fun j => nth j samples 0%R) _ _ _ Hx) in Hu.
  assert (Hb' : Estimator.welford_inv
                  (Estimator.block_mean_of (fun j => nth j samples 0%R) bs) 50
                  (Sampler.enmean w) (Sampler.enmeansq w)).
  { revert Hb. apply EstimatorFacts.welford_inv_ext.
    intros i. now apply EstimatorFacts.block_mean_of_ext. }
  destruct (EstimatorFacts.estimates_from_invariants
              (fun j => nth j samples 0%R) bs _ _ _ _ Hbs1 Hb' Hu)
    as (Hm1 & Hm2 & Hv1 & Hv2).
  cbv zeta in Hm1, Hm2, Hv1, Hv2.
  rewrite <- Hret in Hm1, Hv2. rewrite <- Hblocks in Hm2, Hv1.
  clear Ew Hb Hu Hb' Hx Hret Hblocks.
  rewrite Hr.
  cbn [Report.nblocks Report.blocksize Report.estav Report.esterror Report.autocorr].
  rewrite Hm1, Hm2, Hv1, Hv2, EstimatorFacts.INR_50. unfold N.
  split; [reflexivity|]. split; [reflexivity|]. split; [exact Hbs1|].
  split; [exact Hcat|]. split; [exact Hretlen|].
  split; [reflexivity|]. split; [reflexivity|]. split; reflexivity.
Qed.

Lemma OutputEnergy_estimates_witness :
  Report.blocksize (Sampler.OutputEnergy Tiny.measured) = 2%nat /\
  Report.estav (Sampler.OutputEnergy Tiny.measured)
  = (Estimator.mean (Estimator.retained
                       (map Cplx.re (Sampler.energy_ Tiny.measured)))
     / INR (Sampler.nspins_ Tiny.measured))%R.
Proof.
  assert (Hn : (50 <= length (Sampler.energy_ Tiny.measured))%nat).
  { apply Nat.leb_le. reflexivity. }
  destruct (OutputEnergy_estimates Tiny.measured Hn)
    as (_ & Hbs & _ & _ & _ & Hav & _).
  split; [|exact Hav].
  rewrite Hbs. reflexivity.
Defined.

(** ** The bonds of the Heisenberg models *)

Module LatticeFacts.

Import Lattice.

Lemma Rsum_perm l l' : Permutation l l' -> Rsum l = Rsum l'.
Proof.
  induction 1 as [|x l l' _ IH|x y l|l l' l'' _ IH1 _ IH2].
  - reflexivity.
  - rewrite !EstimatorFacts.Rsum_cons, IH. reflexivity.
  - rewrite !EstimatorFacts.Rsum_cons. lra.
  - now rewrite IH1.
Qed.

Lemma bond_sum_perm state l l' :
  Permutation l l' -> bond_sum state l = bond_sum state l'.
Proof. intros HP. unfold bond_sum. apply Rsum_perm. now apply Permutation_map. Qed.

Lemma bond_sum_ordered state l :
  bond_sum state (map ordered l) = bond_sum state l.
Proof.
  unfold bond_sum. rewrite map_map. f_equal. apply map_ext.
  intros [a b]. unfold ordered. cbn [fst snd].
  destruct (Nat.le_ge_cases a b) as [Hab|Hab].
  - now rewrite Nat.min_l, Nat.max_r.
  - rewrite Nat.min_r, Nat.max_l by assumption. f_equal. ring.
Qed.

Lemma list_prod_NoDup {A B} (l : list A) (l' : list B) :
  NoDup l -> NoDup l' -> NoDup (list_prod l l').
Proof.
  intros Hl Hl'. induction Hl as [|x l Hx Hl IH]; cbn [list_prod]; [constructor|].
  apply NoDup_app.
  - apply Finite.Injective_map_NoDup; [|exact Hl'].
    intros y z Hyz. now inversion Hyz.
  - exact IH.
  - intros [a b] Hin Hin'. apply in_map_iff in Hin as (y & Hy & _).
    inversion Hy; subst. apply in_prod_iff in Hin' as [Hin' _]. contradiction.
Qed.

Lemma undirected_pairs_NoDup n adj : NoDup (undirected_pairs n adj).
Proof.
  unfold undirected_pairs. apply NoDup_filter.
  apply list_prod_NoDup; apply seq_NoDup.
Qed.

Lemma undirected_pairs_In n adj a b :
  In (a, b) (undirected_pairs n adj)
  <-> (a < b)%nat /\ (b < n)%nat /\ adj a b = true.
Proof.
  unfold undirected_pairs. rewrite filter_In, in_prod_iff, !in_seq.
  cbn [fst snd]. rewrite andb_true_iff, Nat.ltb_lt. intuition lia.
Qed.

(** A loop adding real numbers to a complex accumulator. *)
Lemma fold_add_real {A} (f : A -> R) l z :
  fold_left (fun acc x => (acc + Cplx.of_real (f x))%C) l z
  = (z + Cplx.of_real (Rsum (map f l)))%C.
Proof.
  revert z. induction l as [|x l IH]; intros z; cbn [fold_left map].
  - rewrite EstimatorFacts.Rsum_nil. CplxFacts.calc.
  - rewrite IH, EstimatorFacts.Rsum_cons. CplxFacts.calc.
Qed.

Lemma Heisenberg1d_diagonal_bonds ham state :
  Heisenberg1d.diagonal ham state
  = Cplx.of_real (Heisenberg1d.jz_ ham * bond_sum state (Heisenberg1d.bonds ham)).
Proof.
  unfold Heisenberg1d.diagonal, Heisenberg1d.bonds, bond_sum.
  rewrite (fold_add_real (fun i => IZR (spin_at state i * spin_at state (i + 1)))).
  rewrite map_app, EstimatorFacts.Rsum_app, map_map. cbn [fst snd].
  destruct (Heisenberg1d.pbc_ ham); cbn [map fst snd].
  - rewrite EstimatorFacts.Rsum_cons, EstimatorFacts.Rsum_nil. CplxFacts.calc.
  - rewrite EstimatorFacts.Rsum_nil. CplxFacts.calc.
Qed.

Lemma chain_bonds_perm n pbc jz :
  pbc = false \/ (3 <= n)%nat ->
  Permutation (map ordered (Heisenberg1d.bonds (Heisenberg1d.mk n pbc jz)))
              (undirected_pairs n (chain_adjacent n pbc)).
Proof.
  intros Hcond. unfold Heisenberg1d.bonds. cbn [Heisenberg1d.nspins_ Heisenberg1d.pbc_].
  apply NoDup_Permutation.
  - rewrite map_app, map_map.
    assert (Hstep : map (fun i => ordered (i, (i + 1)%nat)) (seq 0 (n - 1))
                    = map (fun i => (i, (i + 1)%nat)) (seq 0 (n - 1))).
    { apply map_ext. intros i. unfold ordered. cbn [fst snd].
      now rewrite Nat.min_l, Nat.max_r by lia. }
    rewrite Hstep.
    assert (Hnd : NoDup (map (fun i => (i, (i + 1)%nat)) (seq 0 (n - 1)))).
    { apply Finite.Injective_map_NoDup; [|apply seq_NoDup].
      intros i j Hij. now inversion Hij. }
    destruct pbc; cbn [map]; [|now rewrite app_nil_r].
    destruct Hcond as [Hf|Hn]; [discriminate|].
    apply NoDup_app; [exact Hnd|repeat constructor; simpl; tauto|].
    intros p Hp [<-|[]]. apply in_map_iff in Hp as (i & Hi & Hin).
    apply in_seq in Hin. unfold ordered in Hi. cbn [fst snd] in Hi.
    rewrite Nat.min_r, Nat.max_l in Hi by lia. inversion Hi. lia.
  - apply undirected_pairs_NoDup.
  - intros [a b]. rewrite undirected_pairs_In. unfold chain_adjacent.
    rewrite in_map_iff. split.
    + intros ([i j] & Hord & Hin). unfold ordered in Hord. cbn [fst snd] in Hord.
      apply in_app_or in Hin as [Hin|Hin].
      * apply in_map_iff in Hin as (k & Hk & Hks). apply in_seq in Hks.
        inversion Hk; subst. rewrite Nat.min_l, Nat.max_r in Hord by lia.
        inversion Hord; subst. repeat split; try lia.
        rewrite Nat.eqb_refl. reflexivity.
      * destruct pbc; [|destruct Hin].
        destruct Hcond as [Hf|Hn]; [discriminate|].
        destruct Hin as [Hin|[]]. inversion Hin; subst.
        rewrite Nat.min_r, Nat.max_l in Hord by lia.
        inversion Hord; subst. repeat split; try lia.
        rewrite !Nat.eqb_refl. cbn. now rewrite !orb_true_r.
    + intros (Hab & Hb & Hadj).
      rewrite !orb_true_iff, andb_true_iff, orb_true_iff, !andb_true_iff, !Nat.eqb_eq in Hadj.
      destruct Hadj as [[Hadj|Hadj]|(Hp & [[Ha Hb']|[Hb' Ha]])]; try lia.
      * exists (a, b). unfold ordered. cbn [fst snd].
        rewrite Nat.min_l, Nat.max_r by lia. split; [reflexivity|].
        apply in_or_app. left. apply in_map_iff. exists a. subst b.
        split; [reflexivity|]. apply in_seq. lia.
      * exists (b, a). unfold ordered. cbn [fst snd].
        rewrite Nat.min_r, Nat.max_l by lia. split; [reflexivity|].
        apply in_or_app. right. rewrite Hp. subst. left. reflexivity.
Qed.

End LatticeFacts.

Module SquareFacts.

Import Heisenberg2d Lattice.
Open Scope Z_scope.

Lemma site_unique l r c r' c' :
  0 <= c < l -> 0 <= c' < l -> site l r c = site l r' c' -> r = r' /\ c = c'.
Proof.
  unfold site. intros Hc Hc' Heq.
  assert (Hr : r = r').
  { rewrite (Z.div_unique_pos (l * r + c) l r c Hc eq_refl).
    symmetry. apply (Z.div_unique_pos (l * r + c) l r' c' Hc' Heq). }
  subst r'. split; [reflexivity|lia].
Qed.

Lemma site_lt l r c r' c' :
  0 <= c < l -> 0 <= c' < l ->
  (site l r c < site l r' c' <-> r < r' \/ (r = r' /\ c < c')).
Proof.
  unfold site. intros Hc Hc'.
  destruct (Z.lt_trichotomy r r') as [Hlt|[Heq|Hgt]].
  - assert (l * (r + 1) <= l * r') by (apply Z.mul_le_mono_nonneg_l; lia). lia.
  - subst. lia.
  - assert (l * (r' + 1) <= l * r) by (apply Z.mul_le_mono_nonneg_l; lia). lia.
Qed.

Lemma site_nonneg l r c : 0 <= r -> 0 <= c < l -> 0 <= site l r c.
Proof. unfold site. intros. assert (0 <= l * r) by (apply Z.mul_nonneg_nonneg; lia). lia. Qed.

Lemma site_below l r c : 0 <= r < l -> 0 <= c < l -> site l r c < l * l.
Proof.
  unfold site. intros Hr Hc.
  assert (l * (r + 1) <= l * l) by (apply Z.mul_le_mono_nonneg_l; lia). lia.
Qed.

(** Every site of the lattice has a row and a column. *)
Lemma site_coords l i :
  0 < l -> 0 <= i < l * l ->
  exists r c, 0 <= r < l /\ 0 <= c < l /\ i = site l r c /\ r = i / l /\ c = i mod l.
Proof.
  intros Hl Hi.
  exists (i / l), (i mod l).
  pose proof (Z.mod_pos_bound i l Hl) as Hc.
  pose proof (Z.div_mod i l ltac:(lia)) as Hdm.
  assert (0 <= i / l) by (apply Z.div_pos; lia).
  assert (i / l < l) by (apply Z.div_lt_upper_bound; lia).
  unfold site. repeat split; lia.
Qed.

Lemma site_div l r c : 0 <= c < l -> site l r c / l = r.
Proof. intros Hc. symmetry. apply (Z.div_unique_pos _ l r c Hc). reflexivity. Qed.

Lemma site_mod l r c : 0 <= c < l -> site l r c mod l = c.
Proof. intros Hc. symmetry. apply (Z.mod_unique_pos _ l r c Hc). reflexivity. Qed.

Lemma site_rem l r c : 0 <= r -> 0 <= c < l -> Z.rem (site l r c) l = c.
Proof.
  intros Hr Hc. rewrite Z.rem_mod_nonneg; [apply site_mod; exact Hc| |lia].
  apply site_nonneg; assumption.
Qed.

Lemma site_succ_rem l r c :
  0 <= r -> 0 <= c < l ->
  Z.rem (site l r c + 1) l = if c =? l - 1 then 0 else c + 1.
Proof.
  intros Hr Hc. pose proof (site_nonneg l r c Hr Hc).
  rewrite Z.rem_mod_nonneg by lia.
  destruct (Z.eqb_spec c (l - 1)) as [->|Hne].
  - symmetry. apply (Z.mod_unique_pos _ l (r + 1) 0); [lia|]. unfold site. ring.
  - symmetry. apply (Z.mod_unique_pos _ l r (c + 1)); [lia|]. unfold site. ring.
Qed.

Lemma site_up l r c :
  0 <= r < l -> 0 <= c < l -> (site l r c - l <? 0) = (r =? 0).
Proof.
  intros Hr Hc. unfold site.
  destruct (Z.eqb_spec r 0) as [->|Hne].
  - apply Z.ltb_lt. lia.
  - apply Z.ltb_ge. assert (l * 1 <= l * r) by (apply Z.mul_le_mono_nonneg_l; lia). lia.
Qed.

Lemma site_down l r c :
  0 <= r < l -> 0 <= c < l -> (site l r c + l >=? l * l) = (r =? l - 1).
Proof.
  intros Hr Hc. unfold site. rewrite Z.geb_leb.
  destruct (Z.eqb_spec r (l - 1)) as [->|Hne].
  - apply Z.leb_le. lia.
  - apply Z.leb_gt.
    assert (l * (r + 2) <= l * l) by (apply Z.mul_le_mono_nonneg_l; lia). lia.
Qed.

(** The neighbours of a site, by row and column. *)
Lemma neighbours_pbc l r c :
  0 <= r < l -> 0 <= c < l ->
  neighbours (l * l) l true (site l r c)
  = [ site l r (if c =? 0 then l - 1 else c - 1);
      site l r (if c =? l - 1 then 0 else c + 1);
      site l (if r =? 0 then l - 1 else r - 1) c;
      site l (if r =? l - 1 then 0 else r + 1) c ].
Proof.
  intros Hr Hc. unfold neighbours, PbcH, PbcV.
  pose proof (site_nonneg l r c ltac:(lia) Hc) as H0.
  pose proof (site_below l r c Hr Hc) as HN.
  rewrite site_rem, site_succ_rem by lia.
  rewrite (site_up l r c Hr Hc).
  replace (site l r c + l >=? l * l) with (r =? l - 1) by (symmetry; now apply site_down).
  replace (site l r c - l >=? l * l) with false by (symmetry; rewrite Z.geb_leb; apply Z.leb_gt; lia).
  replace (site l r c + l <? 0) with false by (symmetry; apply Z.ltb_ge; lia).
  rewrite !Z.eqb_refl. rewrite !andb_true_r.
  replace (site l r c + 1 =? site l r c - 1) with false by (symmetry; apply Z.eqb_neq; lia).
  replace (site l r c - 1 =? site l r c + 1) with false by (symmetry; apply Z.eqb_neq; lia).
  rewrite !andb_false_r.
  f_equal; [|f_equal; [|f_equal; [|f_equal]]];
    repeat match goal with
           | |- context [?a =? ?b] => destruct (Z.eqb_spec a b)
           end; subst; unfold site; first [ring | lia].
Qed.

Lemma neighbours_open l r c :
  0 <= r < l -> 0 <= c < l ->
  neighbours (l * l) l false (site l r c)
  = [ if c =? 0 then -1 else site l r (c - 1);
      if c =? l - 1 then -1 else site l r (c + 1);
      if r =? 0 then -1 else site l (r - 1) c;
      if r =? l - 1 then -1 else site l (r + 1) c ].
Proof.
  intros Hr Hc. unfold neighbours, H, V.
  pose proof (site_nonneg l r c ltac:(lia) Hc) as H0.
  pose proof (site_below l r c Hr Hc) as HN.
  rewrite site_rem, site_succ_rem by lia.
  rewrite (site_up l r c Hr Hc).
  replace (site l r c + l >=? l * l) with (r =? l - 1) by (symmetry; now apply site_down).
  replace (site l r c - l >=? l * l) with false
    by (symmetry; rewrite Z.geb_leb; apply Z.leb_gt; lia).
  replace (site l r c + l <? 0) with false by (symmetry; apply Z.ltb_ge; lia).
  rewrite !Z.eqb_refl. rewrite !andb_true_r.
  replace (site l r c + 1 =? site l r c - 1) with false by (symmetry; apply Z.eqb_neq; lia).
  replace (site l r c - 1 =? site l r c + 1) with false by (symmetry; apply Z.eqb_neq; lia).
  rewrite !andb_false_r.
  f_equal; [|f_equal; [|f_equal; [|f_equal]]];
    repeat match goal with
           | |- context [?a =? ?b] => destruct (Z.eqb_spec a b)
           end; subst; unfold site; first [ring | lia].
Qed.

Ltac split_tests :=
  repeat match goal with
         | |- context [?a =? ?b] => destruct (Z.eqb_spec a b)
         end;
  cbn [filter];
  repeat match goal with
         | |- context [?a <? ?b] => destruct (Z.ltb_spec a b)
         end.

Ltac by_coords :=
  repeat match goal with
         | H : site ?l _ _ = site ?l _ _ |- _ =>
           apply site_unique in H; [|lia|lia]
         | H : site ?l _ _ < site ?l _ _ |- _ =>
           apply site_lt in H; [|lia|lia]
         end;
  lia.

(** The neighbours above a site are pairwise distinct, unless the
    boundary is periodic on a lattice of side 2. *)
Lemma neighbours_above_NoDup l pbc r c :
  0 <= r < l -> 0 <= c < l -> pbc = false \/ l <> 2 ->
  NoDup (filter (fun j => site l r c <? j)
                (neighbours (l * l) l pbc (site l r c))).
Proof.
  intros Hr Hc Hcond.
  pose proof (site_nonneg l r c ltac:(lia) Hc) as H0.
  destruct pbc.
  - destruct Hcond as [Hf|Hl]; [discriminate|].
    rewrite neighbours_pbc by assumption.
    split_tests; repeat constructor; cbn [In];
      intuition (try lia); by_coords.
  - rewrite neighbours_open by assumption.
    split_tests; try lia; repeat constructor; cbn [In];
      intuition (try lia); by_coords.
Qed.

(** A later site is among the neighbours of a site iff the two are next to
    each other in a row or in a column. *)
Lemma neighbour_iff_adjacent l pbc r c r' c' :
  0 <= r < l -> 0 <= c < l -> 0 <= r' < l -> 0 <= c' < l ->
  site l r c < site l r' c' ->
  In (site l r' c') (neighbours (l * l) l pbc (site l r c))
  <-> (r = r' /\ (c' = c + 1 \/ c = c' + 1
                  \/ (pbc = true /\ ((c = 0 /\ c' = l - 1) \/ (c' = 0 /\ c = l - 1)))))
      \/ (c = c' /\ (r' = r + 1 \/ r = r' + 1
                     \/ (pbc = true /\ ((r = 0 /\ r' = l - 1) \/ (r' = 0 /\ r = l - 1))))).
Proof.
  intros Hr Hc Hr' Hc' Hlt.
  pose proof (site_nonneg l r' c' ltac:(lia) Hc') as H0.
  apply site_lt in Hlt; [|lia|lia].
  destruct pbc.
  - rewrite neighbours_pbc by assumption. cbn [In]. split.
    + intros [Hn|[Hn|[Hn|[Hn|[]]]]]; symmetry in Hn;
        apply site_unique in Hn;
        try (repeat match goal with
                    | |- context [?a =? ?b] => destruct (Z.eqb_spec a b)
                    end; lia);
        revert Hn;
        repeat match goal with
               | |- context [?a =? ?b] => destruct (Z.eqb_spec a b)
               end; intros Hn; intuition lia.
    + intros Hadj.
      assert (Hcases :
                (r' = r /\ c' = (if c =? 0 then l - 1 else c - 1))
                \/ (r' = r /\ c' = (if c =? l - 1 then 0 else c + 1))
                \/ (r' = (if r =? 0 then l - 1 else r - 1) /\ c' = c)
                \/ (r' = (if r =? l - 1 then 0 else r + 1) /\ c' = c)).
      { repeat match goal with
               | |- context [?a =? ?b] => destruct (Z.eqb_spec a b)
               end; intuition lia. }
      destruct Hcases as [[-> ->]|[[-> ->]|[[-> ->]|[-> ->]]]]; tauto.
  - rewrite neighbours_open by assumption. cbn [In]. split.
    + intros [Hn|[Hn|[Hn|[Hn|[]]]]]; revert Hn;
        repeat match goal with
               | |- context [?a =? ?b] => destruct (Z.eqb_spec a b)
               end; intros Hn; try lia;
        symmetry in Hn; apply site_unique in Hn; try lia; intuition lia.
    + intros Hadj.
      assert (Hcases :
                (c <> l - 1 /\ r' = r /\ c' = c + 1)
                \/ (r <> l - 1 /\ r' = r + 1 /\ c' = c)) by (intuition (try discriminate; lia)).
      destruct Hcases as [(Hne & -> & ->)|(Hne & -> & ->)].
      * right; left. destruct (Z.eqb_spec c (l - 1)); [lia|reflexivity].
      * right; right; right; left. destruct (Z.eqb_spec r (l - 1)); [lia|reflexivity].
Qed.

Lemma fold_left_push {A B} (f : B -> list A) l acc :
  fold_left (fun acc x => acc ++ f x) l acc = acc ++ flat_map f l.
Proof.
  revert acc. induction l as [|x l IH]; intros acc; cbn [fold_left flat_map].
  - now rewrite app_nil_r.
  - now rewrite IH, app_assoc.
Qed.

(** The bonds a site contributes: its neighbours above it. *)
Lemma bonds_of_row i row bonds :
  length row = 4%nat ->
  fold_left (fun bonds k =>
               let j := nth k row 0 in
               if i <? j then bonds ++ [(i, j)] else bonds)
            (seq 0 4) bonds
  = bonds ++ map (pair i) (filter (fun j => i <? j) row).
Proof.
  intros Hlen.
  destruct row as [|a [|b [|c [|d [|e row]]]]]; try discriminate.
  cbn [seq fold_left nth filter].
  destruct (i <? a), (i <? b), (i <? c), (i <? d); cbn [map];
    rewrite <- ?app_assoc; cbn [app]; rewrite ?app_nil_r; reflexivity.
Qed.

Lemma sites_In N i : In i (sites N) <-> 0 <= i < N.
Proof.
  unfold sites. rewrite in_map_iff. split.
  - intros (k & <- & Hk). apply in_seq in Hk. lia.
  - intros Hi. exists (Z.to_nat i). split; [lia|]. apply in_seq. lia.
Qed.

Lemma sites_NoDup N : NoDup (sites N).
Proof.
  unfold sites. apply Finite.Injective_map_NoDup; [|apply seq_NoDup].
  intros a b. apply Nat2Z.inj.
Qed.

Lemma nn_row N (f : Z -> list Z) i :
  0 <= i < N -> nth (Z.to_nat i) (map f (sites N)) [] = f i.
Proof.
  intros Hi. unfold sites. rewrite map_map.
  rewrite (EstimatorFacts.nth_map_seq (fun k => f (Z.of_nat k)) 0 (Z.to_nat N))
    by lia.
  f_equal. lia.
Qed.

Lemma make_bonds_flat N l pbc :
  make_bonds N (map (neighbours N l pbc) (sites N))
  = flat_map (fun i => map (pair i)
                           (filter (fun j => i <? j) (neighbours N l pbc i)))
             (sites N).
Proof.
  unfold make_bonds.
  rewrite (fold_left_ext_in _
             (fun bonds i =>
                bonds ++ map (pair i)
                             (filter (fun j => i <? j) (neighbours N l pbc i)))).
  - rewrite fold_left_push. reflexivity.
  - intros i acc Hi. apply sites_In in Hi.
    rewrite (nn_row N (neighbours N l pbc) i Hi).
    apply bonds_of_row. reflexivity.
Qed.

Lemma flat_map_pairs_NoDup {A B} (f : A -> list B) l :
  NoDup l -> (forall i, In i l -> NoDup (f i)) ->
  NoDup (flat_map (fun i => map (pair i) (f i)) l).
Proof.
  intros Hl Hf. induction Hl as [|x l Hx Hl IH]; cbn [flat_map]; [constructor|].
  apply NoDup_app.
  - apply Finite.Injective_map_NoDup; [|apply Hf; now left].
    intros y z Hyz. now inversion Hyz.
  - apply IH. intros i Hi. apply Hf. now right.
  - intros [a b] Hin Hin'. apply in_map_iff in Hin as (y & Hy & _).
    inversion Hy; subst. apply in_flat_map in Hin' as (i & Hi & Hin').
    apply in_map_iff in Hin' as (z & Hz & _). inversion Hz; subst. contradiction.
Qed.

Lemma flat_map_pairs_In {A B} (f : A -> list B) l a b :
  In (a, b) (flat_map (fun i => map (pair i) (f i)) l) <-> In a l /\ In b (f a).
Proof.
  rewrite in_flat_map. split.
  - intros (i & Hi & Hin). apply in_map_iff in Hin as (y & Hy & Hin).
    inversion Hy; subst. now split.
  - intros [Ha Hb]. exists a. split; [exact Ha|]. apply in_map_iff. now exists b.
Qed.

(** What [make] builds when it does not abort. *)
Lemma make_Done N jz pbc ham :
  make N jz pbc = Done ham ->
  let l := Z.sqrt N in
  0 <= l /\ l * l = N /\ nspins_ ham = N /\ l_ ham = l /\ pbc_ ham = pbc /\ jz_ ham = jz /\
  bonds_ ham
  = flat_map (fun i => map (pair i)
                           (filter (fun j => i <? j) (neighbours N l pbc i)))
             (sites N).
Proof.
  unfold make, InitLattice. cbn [l_ nspins_ pbc_ jz_].
  destruct (Z.eqb_spec (Z.sqrt N * Z.sqrt N) N) as [Heq|Hne]; cbn [negb]; [|discriminate].
  intros Hd. inversion Hd; subst ham; clear Hd. cbn [l_ nspins_ pbc_ jz_ bonds_].
  repeat split; try assumption.
  - apply Z.sqrt_nonneg.
  - apply make_bonds_flat.
Qed.

End SquareFacts.

Module SquareBonds.

Import Heisenberg2d Lattice SquareFacts.
Open Scope Z_scope.

Lemma square_adjacent_coords l pbc a b r c r' c' :
  0 <= r < l -> 0 <= c < l -> 0 <= r' < l -> 0 <= c' < l ->
  Z.of_nat a = site l r c -> Z.of_nat b = site l r' c' ->
  square_adjacent (Z.to_nat l) pbc a b = true
  <-> (r = r' /\ (c' = c + 1 \/ c = c' + 1
                  \/ (pbc = true /\ ((c = 0 /\ c' = l - 1) \/ (c' = 0 /\ c = l - 1)))))
      \/ (c = c' /\ (r' = r + 1 \/ r = r' + 1
                     \/ (pbc = true /\ ((r = 0 /\ r' = l - 1) \/ (r' = 0 /\ r = l - 1))))).
Proof.
  intros Hr Hc Hr' Hc' Ha Hb.
  assert (Hl : Z.of_nat (Z.to_nat l) = l) by lia.
  set (ln := Z.to_nat l) in *.
  assert (Hra : Z.of_nat (a / ln) = r)
    by (rewrite Nat2Z.inj_div, Ha, Hl; now apply site_div).
  assert (Hca : Z.of_nat (a mod ln) = c)
    by (rewrite Nat2Z.inj_mod, Ha, Hl; now apply site_mod).
  assert (Hrb : Z.of_nat (b / ln) = r')
    by (rewrite Nat2Z.inj_div, Hb, Hl; now apply site_div).
  assert (Hcb : Z.of_nat (b mod ln) = c')
    by (rewrite Nat2Z.inj_mod, Hb, Hl; now apply site_mod).
  unfold square_adjacent, chain_adjacent.
  generalize dependent (a / ln)%nat. generalize dependent (a mod ln)%nat.
  generalize dependent (b / ln)%nat. generalize dependent (b mod ln)%nat.
  intros cb Hcb rb Hrb ca Hca ra Hra. clearbody ln.
  rewrite !orb_true_iff, !andb_true_iff, !orb_true_iff, !andb_true_iff,
          !orb_true_iff, !andb_true_iff, !Nat.eqb_eq.
  destruct pbc; intuition (try discriminate; lia).
Qed.

(** A neighbour above a site is a site of the lattice. *)
Lemma neighbour_above_site l pbc r c j :
  0 <= r < l -> 0 <= c < l ->
  In j (neighbours (l * l) l pbc (site l r c)) -> site l r c < j ->
  0 <= j < l * l.
Proof.
  intros Hr Hc Hin Hlt.
  pose proof (site_nonneg l r c ltac:(lia) Hc) as H0.
  assert (Hsite : forall r' c', 0 <= r' < l -> 0 <= c' < l -> j = site l r' c' ->
                                0 <= j < l * l).
  { intros r' c' Hr' Hc' ->. split; [apply site_nonneg; lia|now apply site_below]. }
  destruct pbc.
  - rewrite neighbours_pbc in Hin by assumption. cbn [In] in Hin.
    destruct Hin as [Hn|[Hn|[Hn|[Hn|[]]]]]; symmetry in Hn; revert Hn;
      repeat match goal with
             | |- context [?a =? ?b] => destruct (Z.eqb_spec a b)
             end; intros Hn; (eapply Hsite; [| |exact Hn]; lia).
  - rewrite neighbours_open in Hin by assumption. cbn [In] in Hin.
    destruct Hin as [Hn|[Hn|[Hn|[Hn|[]]]]]; symmetry in Hn; revert Hn;
      repeat match goal with
             | |- context [?a =? ?b] => destruct (Z.eqb_spec a b)
             end; intros Hn; try lia; (eapply Hsite; [| |exact Hn]; lia).
Qed.

Lemma square_bonds_In l pbc a b :
  0 <= l ->
  In (a, b) (map to_sites
               (flat_map (fun i => map (pair i)
                                       (filter (fun j => i <? j)
                                               (neighbours (l * l) l pbc i)))
                         (sites (l * l))))
  <-> (a < b)%nat /\ (b < Z.to_nat (l * l))%nat
      /\ square_adjacent (Z.to_nat l) pbc a b = true.
Proof.
  intros Hl. rewrite in_map_iff. split.
  - intros ([i j] & Hab & Hin). unfold to_sites in Hab. cbn [fst snd] in Hab.
    inversion Hab; subst a b; clear Hab.
    apply flat_map_pairs_In in Hin as [Hi Hj].
    apply sites_In in Hi. apply filter_In in Hj as [Hj Hij]. apply Z.ltb_lt in Hij.
    assert (Hpos : 0 < l) by nia.
    destruct (site_coords l i Hpos Hi) as (r & c & Hr & Hc & Ei & _).
    subst i.
    pose proof (neighbour_above_site l pbc r c j Hr Hc Hj Hij) as Hjr.
    destruct (site_coords l j Hpos Hjr) as (r' & c' & Hr' & Hc' & Ej & _).
    subst j.
    split; [lia|]. split; [lia|].
    apply (square_adjacent_coords l pbc _ _ r c r' c'); try assumption; try lia.
    apply neighbour_iff_adjacent; assumption.
  - intros (Hab & Hb & Hadj).
    destruct (Z.eq_dec l 0) as [->|Hne]; [simpl in Hb; lia|].
    assert (Hpos : 0 < l) by lia.
    assert (Hi : 0 <= Z.of_nat a < l * l) by lia.
    assert (Hj : 0 <= Z.of_nat b < l * l) by lia.
    destruct (site_coords l _ Hpos Hi) as (r & c & Hr & Hc & Ei & _).
    destruct (site_coords l _ Hpos Hj) as (r' & c' & Hr' & Hc' & Ej & _).
    apply (square_adjacent_coords l pbc a b r c r' c') in Hadj; try assumption.
    exists (Z.of_nat a, Z.of_nat b). split.
    + unfold to_sites. cbn [fst snd]. now rewrite !Nat2Z.id.
    + apply flat_map_pairs_In. split; [now apply sites_In|].
      apply filter_In. split; [|apply Z.ltb_lt; lia].
      rewrite Ei, Ej. apply neighbour_iff_adjacent; try assumption.
      rewrite <- Ei, <- Ej. lia.
Qed.

Lemma to_sites_NoDup (l : list (Z * Z)) :
  (forall p, In p l -> 0 <= fst p /\ 0 <= snd p) ->
  NoDup l -> NoDup (map to_sites l).
Proof.
  intros Hnn Hnd. apply NoDup_map_NoDup_ForallPairs; [|exact Hnd].
  intros [a b] [a' b'] Hp Hp' Heq.
  apply Hnn in Hp. apply Hnn in Hp'. cbn [fst snd] in *.
  unfold to_sites in Heq. cbn [fst snd] in Heq. inversion Heq.
  f_equal; lia.
Qed.

(** With open boundaries, or a periodic lattice of side other than 2, the
    bonds are the undirected pairs of adjacent sites, each once. *)
Lemma square_bonds_perm N jz pbc ham :
  make N jz pbc = Done ham ->
  pbc = false \/ l_ ham <> 2 ->
  Permutation (map to_sites (bonds_ ham))
              (undirected_pairs (Z.to_nat N)
                                (square_adjacent (Z.to_nat (l_ ham)) pbc)).
Proof.
  intros Hmake Hcond.
  destruct (make_Done N jz pbc ham Hmake) as (Hl & HN & _ & Hlh & _ & _ & Hbonds).
  rewrite Hlh in *. set (l := Z.sqrt N) in *. clearbody l. subst N. rewrite Hbonds.
  apply NoDup_Permutation.
  - apply to_sites_NoDup.
    + intros [i j] Hin. apply flat_map_pairs_In in Hin as [Hi Hj].
      apply sites_In in Hi. apply filter_In in Hj as [_ Hij]. apply Z.ltb_lt in Hij.
      cbn [fst snd]. lia.
    + apply flat_map_pairs_NoDup; [apply sites_NoDup|].
      intros i Hi. apply sites_In in Hi.
      assert (Hpos : 0 < l) by nia.
      destruct (site_coords l i Hpos Hi) as (r & c & Hr & Hc & -> & _).
      now apply neighbours_above_NoDup.
  - apply LatticeFacts.undirected_pairs_NoDup.
  - intros [a b]. rewrite LatticeFacts.undirected_pairs_In.
    now apply square_bonds_In.
Qed.

Lemma map_nth_seq {A} (l : list A) d :
  map (fun i => nth i l d) (seq 0 (length l)) = l.
Proof.
  apply (nth_ext _ _ d d).
  - now rewrite length_map, length_seq.
  - intros i Hi. rewrite length_map, length_seq in Hi.
    now rewrite EstimatorFacts.nth_map_seq.
Qed.

Lemma Heisenberg2d_diagonal_bonds ham state :
  diagonal ham state
  = Cplx.of_real (jz_ ham * bond_sum state (map to_sites (bonds_ ham)))%R.
Proof.
  unfold diagonal, bond_sum.
  rewrite (LatticeFacts.fold_add_real
             (fun i => IZR (spin_atZ state (fst (nth i (bonds_ ham) (0, 0)))
                            * spin_atZ state (snd (nth i (bonds_ ham) (0, 0)))))).
  assert (E : map (fun i => IZR (spin_atZ state (fst (nth i (bonds_ ham) (0, 0)))
                                 * spin_atZ state (snd (nth i (bonds_ ham) (0, 0)))))
                  (seq 0 (length (bonds_ ham)))
              = map (fun p => IZR (spin_at state (fst p) * spin_at state (snd p)))
                    (map to_sites (bonds_ ham))).
  { rewrite <- (map_nth_seq (bonds_ ham) (0, 0)) at 2. rewrite !map_map. reflexivity. }
  rewrite E. CplxFacts.calc.
Qed.


Lemma fold_append_fst {A B I} (step : list A * list B -> I -> list A * list B) l :
  (forall acc i, exists extra, fst (step acc i) = fst acc ++ extra) ->
  forall acc, exists extra, fst (fold_left step l acc) = fst acc ++ extra.
Proof.
  intros Hstep. induction l as [|i l IH]; intros acc; cbn [fold_left].
  - exists []. now rewrite app_nil_r.
  - destruct (IH (step acc i)) as [e He]. destruct (Hstep acc i) as [e' He'].
    exists (e' ++ e). now rewrite He, He', app_assoc.
Qed.

Lemma vresize_one {A} (l : list A) d : exists x, vresize l 1 d = [x].
Proof. destruct l; cbn; eauto. Qed.

Lemma Heisenberg1d_FindConn_diagonal ham state flipsh mel :
  nth 0 (snd (Heisenberg1d.FindConn ham state flipsh mel)) Cplx.zero
  = Heisenberg1d.diagonal ham state.
Proof.
  unfold Heisenberg1d.FindConn.
  destruct (vresize_one mel Cplx.zero) as [x ->]. cbn [vset].
  set (step := fun '(mel, flipsh) i =>
                 if (spin_at state i =? spin_at state (i + 1))%Z
                 then (mel, flipsh)
                 else (mel ++ [Cplx.of_real (-2)], flipsh ++ [[i; (i + 1)%nat]])).
  destruct (fold_append_fst step (seq 0 (Heisenberg1d.nspins_ ham - 1))) with
    (acc := ([Heisenberg1d.diagonal ham state], vresize flipsh 1 (@nil nat)))
    as [extra Hex].
  { intros [m f] i. unfold step.
    destruct (spin_at state i =? spin_at state (i + 1))%Z; cbn [fst].
    - exists []. now rewrite app_nil_r.
    - eexists. reflexivity. }
  destruct (fold_left step _ _) as [m f]. cbn [fst] in Hex. subst m.
  destruct (Heisenberg1d.pbc_ ham); [|reflexivity].
  destruct (spin_at state (Heisenberg1d.nspins_ ham - 1) =? spin_at state 0)%Z;
    reflexivity.
Qed.

Lemma Heisenberg2d_FindConn_diagonal ham state flipsh mel :
  nth 0 (snd (Heisenberg2d.FindConn ham state flipsh mel)) Cplx.zero
  = Heisenberg2d.diagonal ham state.
Proof.
  unfold Heisenberg2d.FindConn.
  destruct (vresize_one mel Cplx.zero) as [x ->]. cbn [vset].
  set (step := fun '(mel, flipsh) i =>
                 if (spin_atZ state (fst (nth i (bonds_ ham) (0, 0)%Z))
                     =? spin_atZ state (snd (nth i (bonds_ ham) (0, 0)%Z)))%Z
                 then (mel, flipsh)
                 else (mel ++ [Cplx.of_real (-2)],
                       flipsh ++ [[Z.to_nat (fst (nth i (bonds_ ham) (0, 0)%Z));
                                   Z.to_nat (snd (nth i (bonds_ ham) (0, 0)%Z))]])).
  destruct (fold_append_fst step (seq 0 (length (bonds_ ham)))) with
    (acc := ([Heisenberg2d.diagonal ham state], vresize flipsh 1 (@nil nat)))
    as [extra Hex].
  { intros [m f] i. unfold step.
    destruct (spin_atZ state _ =? spin_atZ state _)%Z; cbn [fst].
    - exists []. now rewrite app_nil_r.
    - eexists. reflexivity. }
  destruct (fold_left step _ _) as [m f]. cbn [fst] in Hex. subst m.
  reflexivity.
Qed.

End SquareBonds.

(** C6, amended.  For both Heisenberg variants and every spin
    configuration the first matrix element [FindConn] returns is Jz times
    the sum of state[i] * state[j] over the undirected nearest-neighbour
    pairs, each pair once, when the boundary is open, or periodic on a
    chain of at least 3 sites or on a square lattice of side other than 2. *)
Theorem Heisenberg_diagonal_bonds_once :
  (forall n pbc jz state flipsh mel,
      is_config n state -> pbc = false \/ (3 <= n)%nat ->
      nth 0 (snd (FindConn (Heisenberg1d.mk n pbc jz) state flipsh mel)) Cplx.zero
      = Cplx.of_real
          (jz * Lattice.bond_sum state
                  (Lattice.undirected_pairs n (Lattice.chain_adjacent n pbc)))%R) /\
  (forall N pbc jz ham state flipsh mel,
      Heisenberg2d.make N jz pbc = Done ham ->
      is_config (Z.to_nat N) state ->
      pbc = false \/ Heisenberg2d.l_ ham <> 2%Z ->
      nth 0 (snd (FindConn ham state flipsh mel)) Cplx.zero
      = Cplx.of_real
          (jz * Lattice.bond_sum state
                  (Lattice.undirected_pairs
                     (Z.to_nat N)
                     (Lattice.square_adjacent (Z.to_nat (Heisenberg2d.l_ ham)) pbc)))%R).
Proof.
  split.
  - intros n pbc jz state flipsh mel _ Hcond. cbn [FindConn Heisenberg1d_Hamiltonian].
    rewrite SquareBonds.Heisenberg1d_FindConn_diagonal, LatticeFacts.Heisenberg1d_diagonal_bonds.
    cbn [Heisenberg1d.jz_].
    rewrite <- (LatticeFacts.bond_sum_perm state _ _
                  (LatticeFacts.chain_bonds_perm n pbc jz Hcond)).
    now rewrite LatticeFacts.bond_sum_ordered.
  - intros N pbc jz ham state flipsh mel Hmake _ Hcond.
    cbn [FindConn Heisenberg2d_Hamiltonian].
    rewrite SquareBonds.Heisenberg2d_FindConn_diagonal, SquareBonds.Heisenberg2d_diagonal_bonds.
    rewrite (LatticeFacts.bond_sum_perm state _ _
               (SquareBonds.square_bonds_perm N jz pbc ham Hmake Hcond)).
    destruct (SquareFacts.make_Done N jz pbc ham Hmake) as (_ & _ & _ & _ & _ & -> & _).
    reflexivity.
Qed.

Lemma Heisenberg_diagonal_bonds_once_witness :
  nth 0 (snd (FindConn (Heisenberg1d.mk 4 true 2) [1; -1; 1; -1]%Z [] [])) Cplx.zero
  = Cplx.of_real
      (2 * Lattice.bond_sum [1; -1; 1; -1]%Z
             (Lattice.undirected_pairs 4 (Lattice.chain_adjacent 4 true)))%R
  /\ exists ham,
      Heisenberg2d.make 9 2 true = Done ham /\
      nth 0 (snd (FindConn ham [1; -1; 1; -1; 1; -1; 1; -1; 1]%Z [] [])) Cplx.zero
      = Cplx.of_real
          (2 * Lattice.bond_sum [1; -1; 1; -1; 1; -1; 1; -1; 1]%Z
                 (Lattice.undirected_pairs
                    (Z.to_nat 9)
                    (Lattice.square_adjacent (Z.to_nat (Heisenberg2d.l_ ham)) true)))%R.
Proof.
  destruct Heisenberg_diagonal_bonds_once as [H1 H2]. split.
  - apply H1.
    + split; [reflexivity|]. repeat (apply Forall_cons; [lia|]). apply Forall_nil.
    + right. lia.
  - eexists. split; [reflexivity|]. apply H2.
    + reflexivity.
    + split; [reflexivity|]. repeat (apply Forall_cons; [lia|]). apply Forall_nil.
    + right. cbn. lia.
Defined.

(** C6 as stated fails: on the periodic chain of two sites the one pair
    {0,1} is summed twice. *)
Lemma Heisenberg1d_two_sites_bond_twice :
  nth 0 (snd (FindConn (Heisenberg1d.mk 2 true 1) [1; -1]%Z [] [])) Cplx.zero
  <> Cplx.of_real
       (1 * Lattice.bond_sum [1; -1]%Z
              (Lattice.undirected_pairs 2 (Lattice.chain_adjacent 2 true)))%R.
Proof.
  intros Heq. apply (f_equal Cplx.re) in Heq.
  cbn in Heq. unfold Lattice.bond_sum, Rsum in Heq. cbn in Heq. lra.
Qed.

(** The same on the periodic 2 by 2 lattice: every bond is listed twice. *)
Lemma Heisenberg2d_two_by_two_bonds_twice :
  exists ham,
    Heisenberg2d.make 4 1 true = Done ham /\
    Heisenberg2d.bonds_ ham
    = [(0, 1); (0, 1); (0, 2); (0, 2); (1, 3); (1, 3); (2, 3); (2, 3)]%Z.
Proof. eexists. split; reflexivity. Qed.

(** ** Counting sweeps *)

Lemma sweep_count_spec (x : R) (k : nat) : (INR k < x)%R <-> (k < sweep_count x)%nat.
Proof.
  unfold sweep_count.
  destruct (archimed (- x)) as [Hup1 Hup2].
  set (u := up (- x)) in *.
  split.
  - intros Hk.
    assert (IZR u < 1 - INR k + 1 - 0)%R by lra.
    assert (Hlt : (u < 1 - Z.of_nat k)%Z).
    { apply lt_IZR. rewrite minus_IZR, <- INR_IZR_INZ. lra. }
    lia.
  - intros Hk.
    assert (Hlt : (Z.of_nat k < 1 - u)%Z) by lia.
    assert (Z.of_nat k + 1 <= 1 - u)%Z by lia.
    apply IZR_le in H. rewrite plus_IZR, minus_IZR, <- INR_IZR_INZ in H. lra.
Qed.

Lemma sweep_count_IZR (z : Z) : sweep_count (IZR z) = Z.to_nat z.
Proof.
  unfold sweep_count. rewrite <- opp_IZR.
  rewrite <- (up_tech (IZR (- z)) (- z)); [lia|lra|].
  rewrite plus_IZR. lra.
Qed.

Lemma sweep_count_nonpos (x : R) : (x <= 0)%R -> sweep_count x = 0%nat.
Proof.
  intros Hx. destruct (sweep_count x) eqn:E; [reflexivity|].
  assert (H : (0 < sweep_count x)%nat) by lia.
  apply sweep_count_spec in H. simpl in H. lra.
Qed.

(** ** The chain of moves *)

Section RunFacts.

Context {G : Type} (distu_ : G -> R * G) (distn_ : G -> nat * G).
Context {H : Type} `{Hamiltonian H}.

Local Abbreviation sampler := (Sampler.t (G := G) (H := H)).

Lemma same_frame_refl (s : sampler) : Sampler.same_frame s s.
Proof. repeat split. Qed.

Lemma same_frame_trans (s1 s2 s3 : sampler) :
  Sampler.same_frame s1 s2 -> Sampler.same_frame s2 s3 -> Sampler.same_frame s1 s3.
Proof.
  intros (A1 & A2 & A3 & A4) (B1 & B2 & B3 & B4).
  repeat split; congruence.
Qed.

Lemma Move_frame (s : sampler) nflips :
  Sampler.same_frame s (Sampler.Move distu_ distn_ s nflips) /\
  Sampler.nmoves_ (Sampler.Move distu_ distn_ s nflips) = (Sampler.nmoves_ s + 1)%R.
Proof.
  rewrite (Move_unfold distu_ distn_ s nflips). cbv zeta.
  unfold Sampler.RandSpin, Sampler.RandSite.
  destruct (distn_ (Sampler.gen_ s)) as [f0 g0]. cbn [Sampler.gen_ Sampler.set_gen].
  destruct (nflips =? 2)%Z.
  - destruct (distn_ g0) as [f1 g1]. cbn.
    destruct (negb _); [|repeat split].
    destruct (Rgt_dec _ _); repeat split.
  - cbn. destruct (Rgt_dec _ _); repeat split.
Qed.

Lemma iter_Move_frame (s : sampler) nflips k :
  Sampler.same_frame s (Nat.iter k (fun s => Sampler.Move distu_ distn_ s nflips) s) /\
  Sampler.nmoves_ (Nat.iter k (fun s => Sampler.Move distu_ distn_ s nflips) s)
  = (Sampler.nmoves_ s + INR k)%R.
Proof.
  induction k as [|k [IHf IHn]].
  - simpl. split; [apply same_frame_refl|lra].
  - rewrite Nat.iter_succ.
    destruct (Move_frame (Nat.iter k (fun s => Sampler.Move distu_ distn_ s nflips) s) nflips)
      as [Hf Hn].
    split; [eapply same_frame_trans; eassumption|].
    rewrite Hn, IHn, S_INR. lra.
Qed.

Lemma sweep_frame (s : sampler) nflips sweepfactor :
  Sampler.same_frame s (Sampler.sweep distu_ distn_ nflips sweepfactor s) /\
  Sampler.nmoves_ (Sampler.sweep distu_ distn_ nflips sweepfactor s)
  = (Sampler.nmoves_ s + INR (Sampler.moves_per_sweep s sweepfactor))%R.
Proof. unfold Sampler.sweep. apply iter_Move_frame. Qed.

Lemma iter_sweep_frame (s : sampler) nflips sweepfactor k :
  Sampler.same_frame s (Nat.iter k (Sampler.sweep distu_ distn_ nflips sweepfactor) s).
Proof.
  induction k as [|k IH]; [apply same_frame_refl|].
  rewrite Nat.iter_succ. eapply same_frame_trans; [exact IH|]. apply sweep_frame.
Qed.

(** A measured sweep records one sample and makes the moves of a sweep. *)
Lemma measured_sweep_frame (s : sampler) nflips sweepfactor :
  let s' := Sampler.measured_sweep distu_ distn_ nflips sweepfactor s in
  Sampler.nspins_ s' = Sampler.nspins_ s /\
  Sampler.hamiltonian_ s' = Sampler.hamiltonian_ s /\
  Sampler.writestates_ s' = Sampler.writestates_ s /\
  length (Sampler.energy_ s') = S (length (Sampler.energy_ s)) /\
  Sampler.nmoves_ s'
  = (Sampler.nmoves_ s + INR (Sampler.moves_per_sweep s sweepfactor))%R.
Proof.
  cbv zeta. unfold Sampler.measured_sweep.
  destruct (sweep_frame s nflips sweepfactor) as [(F1 & F2 & F3 & F4) Fn].
  set (s1 := Sampler.sweep distu_ distn_ nflips sweepfactor s) in *. clearbody s1.
  set (s2 := if Sampler.writestates_ s1 then Sampler.WriteState s1 else s1).
  assert (E2 : Sampler.nspins_ s2 = Sampler.nspins_ s1 /\
               Sampler.hamiltonian_ s2 = Sampler.hamiltonian_ s1 /\
               Sampler.writestates_ s2 = Sampler.writestates_ s1 /\
               Sampler.energy_ s2 = Sampler.energy_ s1 /\
               Sampler.nmoves_ s2 = Sampler.nmoves_ s1).
  { unfold s2. destruct (Sampler.writestates_ s1) eqn:E; repeat split; auto. }
  clearbody s2. destruct E2 as (E1 & E2 & E3 & E4 & E5).
  unfold Sampler.MeasureEnergy.
  destruct (FindConn _ _ _ _) as [flipsh mel]. cbn.
  rewrite length_app. cbn [length].
  repeat split; try congruence. rewrite E4, F4. lia.
Qed.

Lemma iter_measured_sweep_frame (s : sampler) nflips sweepfactor k :
  let s' := Nat.iter k (Sampler.measured_sweep distu_ distn_ nflips sweepfactor) s in
  Sampler.nspins_ s' = Sampler.nspins_ s /\
  Sampler.hamiltonian_ s' = Sampler.hamiltonian_ s /\
  Sampler.writestates_ s' = Sampler.writestates_ s /\
  length (Sampler.energy_ s') = (length (Sampler.energy_ s) + k)%nat /\
  Sampler.nmoves_ s'
  = (Sampler.nmoves_ s + INR (k * Sampler.moves_per_sweep s sweepfactor))%R.
Proof.
  cbv zeta. induction k as [|k (I1 & I2 & I3 & I4 & I5)].
  - simpl. repeat split; try lia. lra.
  - rewrite Nat.iter_succ.
    destruct (measured_sweep_frame
                (Nat.iter k (Sampler.measured_sweep distu_ distn_ nflips sweepfactor) s)
                nflips sweepfactor) as (M1 & M2 & M3 & M4 & M5).
    cbv zeta in M1, M2, M3, M4, M5.
    repeat split; try congruence.
    + rewrite M4, I4. lia.
    + rewrite M5, I5. unfold Sampler.moves_per_sweep. rewrite I1.
      rewrite Nat.mul_succ_l, plus_INR. lra.
Qed.

(** *** The initial configuration *)

Lemma magnetization_cons x l :
  Sampler.magnetization (x :: l) = (x + Sampler.magnetization l)%Z.
Proof.
  unfold Sampler.magnetization. cbn [fold_left].
  assert (Hshift : forall l a, fold_left Z.add l a = (a + fold_left Z.add l 0)%Z).
  { clear. induction l as [|y l IH]; intros a; cbn [fold_left]; [lia|].
    rewrite IH, (IH (0 + y)%Z). lia. }
  rewrite Hshift. lia.
Qed.

Lemma magnetization_vset l i x :
  (i < length l)%nat ->
  Sampler.magnetization (vset l i x)
  = (Sampler.magnetization l - nth i l 0 + x)%Z.
Proof.
  revert i. induction l as [|y l IH]; intros [|i] Hi; cbn [length] in Hi; try lia.
  - cbn [vset nth]. rewrite !magnetization_cons. lia.
  - cbn [vset nth]. rewrite !magnetization_cons, IH by lia. lia.
Qed.

(** The sum of [n] spins differs from [n] by an even number and lies
    between [-n] and [n]. *)
Lemma magnetization_config n state :
  is_config n state ->
  exists k, (0 <= k <= Z.of_nat n)%Z /\
            Sampler.magnetization state = (Z.of_nat n - 2 * k)%Z.
Proof.
  intros [Hlen Hall]. subst n. induction Hall as [|x l Hx Hall IH].
  - exists 0%Z. cbn. lia.
  - destruct IH as (k & Hk & Hm). rewrite magnetization_cons, Hm.
    cbn [length]. destruct Hx as [->| ->].
    + exists k. lia.
    + exists (k + 1)%Z. lia.
Qed.

Lemma config_nth n state i :
  is_config n state -> (i < n)%nat -> nth i state 0%Z = 1%Z \/ nth i state 0%Z = (-1)%Z.
Proof.
  intros [Hlen Hall] Hi. rewrite Forall_forall in Hall.
  apply Hall. apply nth_In. lia.
Qed.

Lemma config_vset n state i x :
  is_config n state -> x = 1%Z \/ x = (-1)%Z -> is_config n (vset state i x).
Proof.
  intros [Hlen Hall] Hx. split; [now rewrite vset_length|].
  clear Hlen. revert i. induction Hall as [|y l Hy Hall IH]; intros [|i]; cbn [vset];
    constructor; auto.
Qed.

(** A positive sum has an up spin, a negative sum a down spin. *)
Lemma config_has_up n state :
  is_config n state -> (0 < Sampler.magnetization state)%Z ->
  exists i, (i < n)%nat /\ nth i state 0%Z = 1%Z.
Proof.
  intros [Hlen Hall]. subst n. induction Hall as [|x l Hx Hall IH]; intros Hpos.
  - cbn in Hpos. lia.
  - rewrite magnetization_cons in Hpos. destruct Hx as [->| ->].
    + exists 0%nat. cbn. split; [lia|reflexivity].
    + destruct IH as (i & Hi & Hn); [lia|]. exists (S i). cbn. split; [lia|exact Hn].
Qed.

Lemma config_has_down n state :
  is_config n state -> (Sampler.magnetization state < 0)%Z ->
  exists i, (i < n)%nat /\ nth i state 0%Z = (-1)%Z.
Proof.
  intros [Hlen Hall]. subst n. induction Hall as [|x l Hx Hall IH]; intros Hneg.
  - cbn in Hneg. lia.
  - rewrite magnetization_cons in Hneg. destruct Hx as [->| ->].
    + destruct IH as (i & Hi & Hn); [lia|]. exists (S i). cbn. split; [lia|exact Hn].
    + exists 0%nat. cbn. split; [lia|reflexivity].
Qed.

Lemma skip_succ k g :
  Sampler.skip distn_ (S k) g = Sampler.skip distn_ k (snd (distn_ g)).
Proof. unfold Sampler.skip. now rewrite Nat.iter_succ_r. Qed.

(** A fair generator ends every rejection loop that some site can end. *)
Lemma draw_while_terminates n (p : nat -> bool) g i :
  Sampler.fair distn_ n -> Sampler.in_range distn_ n -> (i < n)%nat -> p i = false ->
  exists fuel0 rs g',
    p rs = false /\ (rs < n)%nat /\
    forall fuel, (fuel0 <= fuel)%nat ->
                 Sampler.draw_while distn_ fuel p g = Some (rs, g').
Proof.
  intros Hfair Hrange Hi Hp. destruct (Hfair g i Hi) as [k Hk].
  revert g Hk. induction k as [|k IH]; intros g Hk.
  - cbn in Hk. exists 1%nat, i, (snd (distn_ g)). split; [exact Hp|]. split; [exact Hi|].
    intros [|fuel] Hf; [lia|]. cbn [Sampler.draw_while].
    destruct (distn_ g) as [rs g1]. cbn [fst snd] in *. subst rs.
    now rewrite Hp.
  - rewrite skip_succ in Hk.
    destruct (p (fst (distn_ g))) eqn:Hrs.
    + destruct (IH _ Hk) as (f0 & rs & g' & Hprs & Hlt & Hrun).
      exists (S f0), rs, g'. split; [exact Hprs|]. split; [exact Hlt|].
      intros [|fuel] Hf; [lia|]. cbn [Sampler.draw_while].
      destruct (distn_ g) as [rs1 g1]. cbn [fst snd] in *. rewrite Hrs.
      apply Hrun. lia.
    + exists 1%nat, (fst (distn_ g)), (snd (distn_ g)). split; [exact Hrs|].
      split; [apply Hrange|].
      intros [|fuel] Hf; [lia|]. cbn [Sampler.draw_while].
      destruct (distn_ g) as [rs1 g1]. cbn [fst snd] in *. now rewrite Hrs.
Qed.

(** The loop that brings the magnetization to zero ends. *)
Lemma balance_terminates n :
  Sampler.fair distn_ n -> Sampler.in_range distn_ n ->
  forall (k : nat) state g magt,
    is_config n state ->
    (Z.abs (Sampler.magnetization state) <= 2 * Z.of_nat k)%Z ->
    Z.even (Sampler.magnetization state) = true ->
    exists fuel0 state' g',
      is_config n state' /\
      forall fuel, (fuel0 <= fuel)%nat ->
                   Sampler.balance distn_ fuel magt state g = Some (state', g').
Proof.
  intros Hfair Hrange.
  assert (Hzero : forall state g magt,
             Sampler.magnetization state = 0%Z -> is_config n state ->
             exists fuel0 state' g',
               is_config n state' /\
               forall fuel, (fuel0 <= fuel)%nat ->
                            Sampler.balance distn_ fuel magt state g = Some (state', g')).
  { intros state g magt Hsum Hcfg. exists 2%nat, state, g. split; [exact Hcfg|].
    intros [|[|fuel]] Hf; try lia. cbn [Sampler.balance].
    destruct (magt =? 0)%Z; [reflexivity|]. rewrite Hsum. reflexivity. }
  induction k as [|k IH]; intros state g magt Hcfg Habs Heven.
  - apply Hzero; [lia|exact Hcfg].
  - destruct (Z.eqb_spec magt 0) as [Hm|Hm].
    { exists 1%nat, state, g. split; [exact Hcfg|].
      intros [|fuel] Hf; [lia|]. cbn [Sampler.balance]. subst magt. reflexivity. }
    destruct (Z.lt_trichotomy (Sampler.magnetization state) 0) as [Hneg|[Hz|Hpos]].
    + (* too many down spins *)
      destruct (config_has_down n state Hcfg Hneg) as (i & Hi & Hnth).
      destruct (draw_while_terminates n (fun rs => (spin_at state rs >? 0)%Z) g i
                  Hfair Hrange Hi) as (f1 & rs & g1 & Hprs & Hrs & Hdraw).
      { unfold spin_at. rewrite Hnth. reflexivity. }
      assert (Hspin : nth rs state 0%Z = (-1)%Z).
      { destruct (config_nth n state rs Hcfg Hrs) as [E|E]; [|exact E].
        unfold spin_at in Hprs. rewrite E in Hprs. discriminate. }
      assert (Hlen : (rs < length state)%nat) by (destruct Hcfg; lia).
      pose proof (magnetization_vset state rs 1%Z Hlen) as Hmag. rewrite Hspin in Hmag.
      assert (Heven' : Z.even (Sampler.magnetization (vset state rs 1%Z)) = true).
      { rewrite Hmag. replace (Sampler.magnetization state - -1 + 1)%Z
          with (Sampler.magnetization state + 2 * 1)%Z by lia.
        now rewrite Z.even_add_mul_2. }
      assert (Hle : (Sampler.magnetization state <= -2)%Z).
      { destruct (Z.even_spec (Sampler.magnetization state)) as [Hev _].
        destruct (Hev Heven) as [q Hq]. lia. }
      destruct (IH (vset state rs 1%Z) g1 (Sampler.magnetization state + 1)%Z)
        as (f2 & state' & g' & Hcfg' & Hrun); [apply (config_vset n); auto|lia|exact Heven'|].
      exists (S (Nat.max f1 f2)), state', g'. split; [exact Hcfg'|].
      intros [|fuel] Hf; [lia|]. cbn [Sampler.balance].
      destruct (Z.eqb_spec magt 0); [contradiction|].
      destruct (Z.gtb_spec (Sampler.magnetization state) 0); [lia|].
      destruct (Z.ltb_spec (Sampler.magnetization state) 0); [|lia].
      rewrite Hdraw by lia. apply Hrun. lia.
    + apply Hzero; assumption.
    + (* too many up spins *)
      destruct (config_has_up n state Hcfg Hpos) as (i & Hi & Hnth).
      destruct (draw_while_terminates n (fun rs => (spin_at state rs <? 0)%Z) g i
                  Hfair Hrange Hi) as (f1 & rs & g1 & Hprs & Hrs & Hdraw).
      { unfold spin_at. rewrite Hnth. reflexivity. }
      assert (Hspin : nth rs state 0%Z = 1%Z).
      { destruct (config_nth n state rs Hcfg Hrs) as [E|E]; [exact E|].
        unfold spin_at in Hprs. rewrite E in Hprs. discriminate. }
      assert (Hlen : (rs < length state)%nat) by (destruct Hcfg; lia).
      pose proof (magnetization_vset state rs (-1)%Z Hlen) as Hmag. rewrite Hspin in Hmag.
      assert (Heven' : Z.even (Sampler.magnetization (vset state rs (-1)%Z)) = true).
      { rewrite Hmag. replace (Sampler.magnetization state - 1 + -1)%Z
          with (Sampler.magnetization state + 2 * (-1))%Z by lia.
        now rewrite Z.even_add_mul_2. }
      assert (Hge : (2 <= Sampler.magnetization state)%Z).
      { destruct (Z.even_spec (Sampler.magnetization state)) as [Hev _].
        destruct (Hev Heven) as [q Hq]. lia. }
      destruct (IH (vset state rs (-1)%Z) g1 (Sampler.magnetization state - 1)%Z)
        as (f2 & state' & g' & Hcfg' & Hrun); [apply (config_vset n); auto|lia|exact Heven'|].
      exists (S (Nat.max f1 f2)), state', g'. split; [exact Hcfg'|].
      intros [|fuel] Hf; [lia|]. cbn [Sampler.balance].
      destruct (Z.eqb_spec magt 0); [contradiction|].
      destruct (Z.gtb_spec (Sampler.magnetization state) 0); [|lia].
      rewrite Hdraw by lia. apply Hrun. lia.
Qed.

(** The first loop of [InitRandomState] leaves a configuration. *)
Lemma init_spins (s0 : sampler) m :
  (m <= length (Sampler.state_ s0))%nat ->
  let s1 :=
    fold_left (fun s i =>
                 let '(u, s) := Sampler.Uniform distu_ s in
                 Sampler.set_state s
                   (vset (Sampler.state_ s) i
                         (if Rlt_dec u (1 / 2) then (-1)%Z else 1%Z)))
              (seq 0 m) s0 in
  Sampler.same_frame s0 s1 /\
  length (Sampler.state_ s1) = length (Sampler.state_ s0) /\
  forall i, (i < m)%nat ->
            nth i (Sampler.state_ s1) 0%Z = 1%Z \/ nth i (Sampler.state_ s1) 0%Z = (-1)%Z.
Proof.
  cbv zeta. induction m as [|m IH]; intros Hm.
  - cbn. split; [apply same_frame_refl|]. split; [reflexivity|]. intros i Hi. lia.
  - destruct IH as (Hf & Hlen & Hspins); [lia|].
    rewrite seq_S, fold_left_app. cbn [fold_left]. simpl (0 + m)%nat.
    set (s1 := fold_left _ (seq 0 m) s0) in *. clearbody s1.
    unfold Sampler.Uniform. destruct (distu_ (Sampler.gen_ s1)) as [u g].
    cbn [Sampler.state_ Sampler.set_state Sampler.set_gen].
    split; [|split].
    + eapply same_frame_trans; [exact Hf|]. repeat split.
    + now rewrite vset_length.
    + intros i Hi. destruct (Nat.eq_dec i m) as [->|Hne].
      * rewrite nth_vset_eq by lia. destruct (Rlt_dec u (1 / 2)); auto.
      * rewrite nth_vset_neq by lia. apply Hspins. lia.
Qed.

Lemma Forall_of_nth {A} (P : A -> Prop) (l : list A) d :
  (forall i, (i < length l)%nat -> P (nth i l d)) -> Forall P l.
Proof.
  intros Hn. apply Forall_forall. intros x Hx.
  destruct (In_nth l x d Hx) as (i & Hi & <-). now apply Hn.
Qed.

(** [InitRandomState] up to its test of the parity of the number of
    spins. *)
Lemma InitRandomState_unfold (s : sampler) :
  exists s1,
    Sampler.same_frame s s1 /\ is_config (Sampler.nspins_ s) (Sampler.state_ s1) /\
    forall fuel,
    Sampler.InitRandomState distu_ distn_ fuel s true
    = if negb (Nat.modulo (Sampler.nspins_ s) 2 =? 0)%nat
      then Aborted "# Error : Cannot initializate a random state with zero magnetization for odd number of spins" s1
      else match Sampler.balance distn_ fuel 1%Z (Sampler.state_ s1) (Sampler.gen_ s1) with
           | None => OutOfFuel
           | Some (state, g) => Done (Sampler.set_gen (Sampler.set_state s1 state) g)
           end.
Proof.
  unfold Sampler.InitRandomState.
  set (s0 := Sampler.set_state s (vresize (Sampler.state_ s) (Sampler.nspins_ s) 0%Z)).
  assert (Hlen0 : length (Sampler.state_ s0) = Sampler.nspins_ s)
    by (unfold s0; cbn; apply vresize_length).
  destruct (init_spins s0 (Sampler.nspins_ s0)) as (Hf & Hlen & Hspins).
  { unfold s0 at 1. cbn [Sampler.nspins_ Sampler.set_state]. lia. }
  cbv zeta in Hf, Hlen, Hspins.
  set (s1 := fold_left _ (seq 0 (Sampler.nspins_ s0)) s0) in *. clearbody s1.
  assert (Hn1 : Sampler.nspins_ s1 = Sampler.nspins_ s) by (destruct Hf as (-> & _); reflexivity).
  exists s1. split; [|split].
  - eapply same_frame_trans; [|exact Hf]. unfold s0. repeat split.
  - split; [lia|]. apply (Forall_of_nth _ _ 0%Z). intros i Hi. apply Hspins.
    unfold s0 at 1. cbn [Sampler.nspins_ Sampler.set_state]. lia.
  - intros fuel. rewrite Hn1. reflexivity.
Qed.

Lemma InitRandomState_odd (s : sampler) :
  Nat.modulo (Sampler.nspins_ s) 2 <> 0%nat ->
  exists s1,
    Sampler.same_frame s s1 /\ is_config (Sampler.nspins_ s) (Sampler.state_ s1) /\
    forall fuel,
    Sampler.InitRandomState distu_ distn_ fuel s true
    = Aborted "# Error : Cannot initializate a random state with zero magnetization for odd number of spins" s1.
Proof.
  intros Hodd. destruct (InitRandomState_unfold s) as (s1 & Hf & Hcfg & Heq).
  exists s1. split; [exact Hf|]. split; [exact Hcfg|]. intros fuel. rewrite Heq.
  destruct (Nat.eqb_spec (Sampler.nspins_ s mod 2) 0); [contradiction|reflexivity].
Qed.

Lemma InitRandomState_even (s : sampler) :
  Sampler.fair distn_ (Sampler.nspins_ s) ->
  Sampler.in_range distn_ (Sampler.nspins_ s) ->
  Nat.modulo (Sampler.nspins_ s) 2 = 0%nat ->
  exists fuel0 s1,
    Sampler.same_frame s s1 /\ is_config (Sampler.nspins_ s) (Sampler.state_ s1) /\
    forall fuel, (fuel0 <= fuel)%nat ->
                 Sampler.InitRandomState distu_ distn_ fuel s true = Done s1.
Proof.
  intros Hfair Hrange Heven.
  (* the first loop does not depend on the fuel *)
  destruct (InitRandomState_unfold s) as (s1 & Hf & Hcfg & Heq).
  destruct (magnetization_config _ _ Hcfg) as (k & Hk & Hmag).
  destruct (balance_terminates (Sampler.nspins_ s) Hfair Hrange (Sampler.nspins_ s)
              (Sampler.state_ s1) (Sampler.gen_ s1) 1%Z Hcfg)
    as (fuel0 & state' & g' & Hcfg' & Hrun).
  { lia. }
  { rewrite Hmag. assert (Hn : exists q, Z.of_nat (Sampler.nspins_ s) = (2 * q)%Z).
    { exists (Z.of_nat (Sampler.nspins_ s / 2)).
      pose proof (Nat.div_mod_eq (Sampler.nspins_ s) 2). lia. }
    destruct Hn as [q ->].
    replace (2 * q - 2 * k)%Z with (0 + 2 * (q - k))%Z by lia.
    now rewrite Z.even_add_mul_2. }
  exists fuel0, (Sampler.set_gen (Sampler.set_state s1 state') g').
  split; [|split].
  - eapply same_frame_trans; [exact Hf|]. repeat split.
  - exact Hcfg'.
  - intros fuel Hfuel. rewrite Heq, Heven. cbn [Nat.eqb negb].
    now rewrite Hrun.
Qed.

(** *** [Run] *)

Lemma Run_rejects (s : sampler) nsweeps thermfactor sweepfactor nflipss :
  ~ Sampler.valid_parameters s nsweeps thermfactor nflipss ->
  exists msg, In msg Sampler.validation_messages /\
              forall fuel,
                Sampler.Run distu_ distn_ fuel s nsweeps thermfactor sweepfactor nflipss
                = Aborted msg s.
Proof.
  intros Hbad. unfold Sampler.valid_parameters, Sampler.effective_flips in Hbad.
  unfold Sampler.Run, Sampler.validation_messages.
  set (nflips := if (nflipss =? -1)%Z then MinFlips (Sampler.hamiltonian_ s) else nflipss) in *.
  destruct ((nflips >? 2) || (nflips <? 1))%Z eqn:Hflips.
  { eexists. split; [left; reflexivity|]. reflexivity. }
  destruct (Rgt_dec thermfactor 1).
  { eexists. split; [right; left; reflexivity|]. reflexivity. }
  destruct (Rlt_dec thermfactor 0).
  { eexists. split; [right; left; reflexivity|]. reflexivity. }
  destruct (Rlt_dec nsweeps 50).
  { eexists. split; [right; right; left; reflexivity|]. reflexivity. }
  exfalso. apply Hbad. apply orb_false_iff in Hflips as [H1 H2].
  split; [|split]; try lra.
  destruct (Z.gtb_spec nflips 2); [discriminate|].
  destruct (Z.ltb_spec nflips 1); [discriminate|]. lia.
Qed.

Lemma Run_accepts (s : sampler) nsweeps thermfactor sweepfactor nflipss :
  Sampler.valid_parameters s nsweeps thermfactor nflipss ->
  forall fuel,
    Sampler.Run distu_ distn_ fuel s nsweeps thermfactor sweepfactor nflipss
    = match Sampler.InitRandomState distu_ distn_ fuel s true with
      | Done s1 => Done (Sampler.sample distu_ distn_ s1 nsweeps thermfactor sweepfactor
                                (Sampler.effective_flips s nflipss))
      | Aborted msg s1 => Aborted msg s1
      | OutOfFuel => OutOfFuel
      end.
Proof.
  intros (Hflips & Htherm & Hsweeps) fuel.
  unfold Sampler.Run, Sampler.effective_flips in *.
  set (nflips := if (nflipss =? -1)%Z then MinFlips (Sampler.hamiltonian_ s) else nflipss) in *.
  destruct (Z.gtb_spec nflips 2); [lia|].
  destruct (Z.ltb_spec nflips 1); [lia|]. cbn [orb].
  destruct (Rgt_dec thermfactor 1); [lra|].
  destruct (Rlt_dec thermfactor 0); [lra|].
  destruct (Rlt_dec nsweeps 50); [lra|].
  reflexivity.
Qed.

Lemma sample_frame (s : sampler) nsweeps thermfactor sweepfactor nflips :
  let s' := Sampler.sample distu_ distn_ s nsweeps thermfactor sweepfactor nflips in
  Sampler.nspins_ s' = Sampler.nspins_ s /\
  length (Sampler.energy_ s')
  = (length (Sampler.energy_ s) + sweep_count nsweeps)%nat /\
  Sampler.nmoves_ s'
  = INR (sweep_count nsweeps * Sampler.moves_per_sweep s sweepfactor).
Proof.
  cbv zeta. unfold Sampler.sample.
  set (s1 := Sampler.ResetAv
               (Sampler.set_wf
                  (Sampler.set_flips s (vresize (Sampler.flips_ s) (Z.to_nat nflips) 0%nat))
                  _)).
  assert (F1 : Sampler.same_frame s s1) by (unfold s1; repeat split).
  clearbody s1.
  pose proof (iter_sweep_frame s1 nflips sweepfactor (sweep_count (nsweeps * thermfactor)))
    as F2.
  set (s2 := Nat.iter _ (Sampler.sweep distu_ distn_ nflips sweepfactor) s1) in *.
  clearbody s2.
  assert (F3 : Sampler.same_frame s2 (Sampler.ResetAv s2)) by repeat split.
  assert (N3 : Sampler.nmoves_ (Sampler.ResetAv s2) = 0%R) by reflexivity.
  set (s3 := Sampler.ResetAv s2) in *. clearbody s3.
  destruct (iter_measured_sweep_frame s3 nflips sweepfactor (sweep_count nsweeps))
    as (M1 & _ & _ & M4 & M5).
  cbv zeta in M1, M4, M5.
  destruct F1 as (A1 & _ & _ & A4). destruct F2 as (B1 & _ & _ & B4).
  destruct F3 as (C1 & _ & _ & C4).
  split; [congruence|]. split.
  - rewrite M4. congruence.
  - rewrite M5, N3. unfold Sampler.moves_per_sweep. rewrite C1, B1, A1. lra.
Qed.

Lemma odd_message_not_validation : ~ In Sampler.odd_message Sampler.validation_messages.
Proof.
  unfold Sampler.odd_message, Sampler.validation_messages. cbn [In].
  intros [E|[E|[E|[]]]]; discriminate E.
Qed.

(** With valid parameters the only abort is the one of
    [InitRandomState]. *)
Lemma Run_abort_message (s : sampler) nsweeps thermfactor sweepfactor nflipss fuel msg s' :
  Sampler.valid_parameters s nsweeps thermfactor nflipss ->
  Sampler.Run distu_ distn_ fuel s nsweeps thermfactor sweepfactor nflipss = Aborted msg s' ->
  msg = Sampler.odd_message.
Proof.
  intros Hvalid. rewrite (Run_accepts s _ _ sweepfactor _ Hvalid).
  destruct (InitRandomState_unfold s) as (s1 & _ & _ & Heq). rewrite Heq.
  destruct (negb _).
  - intros E. now inversion E.
  - destruct (Sampler.balance _ _ _ _ _) as [[state g]|]; discriminate.
Qed.

Lemma Run_odd (s : sampler) nsweeps thermfactor sweepfactor nflipss :
  Sampler.valid_parameters s nsweeps thermfactor nflipss ->
  Nat.modulo (Sampler.nspins_ s) 2 <> 0%nat ->
  exists s1,
    Sampler.same_frame s s1 /\ is_config (Sampler.nspins_ s) (Sampler.state_ s1) /\
    forall fuel,
      Sampler.Run distu_ distn_ fuel s nsweeps thermfactor sweepfactor nflipss
      = Aborted Sampler.odd_message s1.
Proof.
  intros Hvalid Hodd.
  destruct (InitRandomState_odd s Hodd) as (s1 & Hf & Hcfg & Heq).
  exists s1. split; [exact Hf|]. split; [exact Hcfg|]. intros fuel.
  rewrite (Run_accepts s _ _ sweepfactor _ Hvalid), Heq. reflexivity.
Qed.

Lemma Run_completes (s : sampler) nsweeps thermfactor sweepfactor nflipss :
  Sampler.valid_parameters s nsweeps thermfactor nflipss ->
  Nat.modulo (Sampler.nspins_ s) 2 = 0%nat ->
  Sampler.fair distn_ (Sampler.nspins_ s) ->
  Sampler.in_range distn_ (Sampler.nspins_ s) ->
  exists fuel0 s',
    (forall fuel, (fuel0 <= fuel)%nat ->
       Sampler.Run distu_ distn_ fuel s nsweeps thermfactor sweepfactor nflipss = Done s') /\
    length (Sampler.energy_ s')
    = (length (Sampler.energy_ s) + sweep_count nsweeps)%nat /\
    Sampler.nmoves_ s'
    = INR (sweep_count nsweeps * Sampler.moves_per_sweep s sweepfactor).
Proof.
  intros Hvalid Heven Hfair Hrange.
  destruct (InitRandomState_even s Hfair Hrange Heven) as (fuel0 & s1 & Hf & _ & Hinit).
  exists fuel0, (Sampler.sample distu_ distn_ s1 nsweeps thermfactor sweepfactor
                        (Sampler.effective_flips s nflipss)).
  split.
  - intros fuel Hfuel.
    rewrite (Run_accepts s _ _ sweepfactor _ Hvalid), (Hinit fuel Hfuel). reflexivity.
  - destruct (sample_frame s1 nsweeps thermfactor sweepfactor
                (Sampler.effective_flips s nflipss)) as (_ & He & Hn).
    cbv zeta in He, Hn. destruct Hf as (F1 & _ & _ & F4).
    split.
    + rewrite He, F4. reflexivity.
    + rewrite Hn. unfold Sampler.moves_per_sweep. now rewrite F1.
Qed.

End RunFacts.

(** *** The counting generator *)

Lemma Tiny_skip n k g : Sampler.skip (Tiny.distn_ n) k g = (k + g)%nat.
Proof.
  unfold Sampler.skip. induction k as [|k IH]; [reflexivity|].
  rewrite Nat.iter_succ, IH. reflexivity.
Qed.

Lemma Tiny_in_range_2 : Sampler.in_range (Tiny.distn_ 2) 2.
Proof. intros g. unfold Tiny.distn_. cbn [fst]. apply Nat.mod_upper_bound. lia. Qed.

Lemma Tiny_fair_2 : Sampler.fair (Tiny.distn_ 2) 2.
Proof.
  intros g i Hi.
  destruct (Nat.eq_dec (g mod 2) i) as [E|E].
  - exists 0%nat. rewrite Tiny_skip. unfold Tiny.distn_. cbn [fst Nat.add]. exact E.
  - exists 1%nat. rewrite Tiny_skip. unfold Tiny.distn_. cbn [fst].
    pose proof (Nat.mod_upper_bound g 2 ltac:(lia)).
    pose proof (Nat.mod_upper_bound (1 + g) 2 ltac:(lia)).
    pose proof (Nat.div_mod_eq g 2). pose proof (Nat.div_mod_eq (1 + g) 2).
    lia.
Qed.

Lemma Tiny_sampler_valid :
  Sampler.valid_parameters Tiny.sampler 100 (1 / 10) (-1).
Proof.
  unfold Sampler.valid_parameters, Sampler.effective_flips. cbn.
  unfold Heisenberg1d.MinFlips. split; [lia|split; lra].
Qed.

Lemma Tiny_uphill_valid : Sampler.valid_parameters Tiny.uphill 50 0 (-1).
Proof.
  unfold Sampler.valid_parameters, Sampler.effective_flips. cbn.
  unfold Ising1d.MinFlips. split; [lia|split; lra].
Qed.

Lemma sweep_count_100 : sweep_count 100 = 100%nat.
Proof. rewrite sweep_count_IZR. reflexivity. Qed.

(** C8 as stated fails: with one spin and parameters in range [Run] aborts
    inside [InitRandomState], whatever the fuel, and never samples. *)
Lemma Run_aborts_on_odd_chain :
  Sampler.valid_parameters Tiny.uphill 50 0 (-1) /\
  exists s1,
    forall fuel,
      Sampler.Run Tiny.distu_ (Tiny.distn_ 1) fuel Tiny.uphill 50 0 1 (-1)
      = Aborted Sampler.odd_message s1.
Proof.
  split; [exact Tiny_uphill_valid|].
  destruct (Run_odd Tiny.distu_ (Tiny.distn_ 1) Tiny.uphill 50 0 1 (-1)
              Tiny_uphill_valid) as (s1 & _ & _ & Hrun).
  - cbn. discriminate.
  - exists s1. exact Hrun.
Qed.

(** C8, amended.  [Run] aborts with one of its three validation messages,
    the sampler untouched, iff the effective flip count is not 1 or 2, or
    the thermalization factor is outside [0,1], or nsweeps is below 50.  With
    parameters in range it goes on to [InitRandomState], which aborts, the
    configuration already drawn, when the number of spins is odd; with an
    even number of spins and a fair generator [Run] samples and returns. *)
Theorem Run_validation {G H : Type} {ham : Hamiltonian H}
    (distu_ : G -> R * G) (distn_ : G -> nat * G)
    (s : Sampler.t (G := G) (H := H))
    (nsweeps thermfactor : R) (sweepfactor nflipss : Z) :
  (~ Sampler.valid_parameters s nsweeps thermfactor nflipss <->
   exists msg, In msg Sampler.validation_messages /\
               forall fuel,
                 Sampler.Run distu_ distn_ fuel s nsweeps thermfactor sweepfactor nflipss
                 = Aborted msg s) /\
  (Sampler.valid_parameters s nsweeps thermfactor nflipss ->
   Nat.modulo (Sampler.nspins_ s) 2 <> 0%nat ->
   exists s1,
     is_config (Sampler.nspins_ s) (Sampler.state_ s1) /\
     Sampler.energy_ s1 = Sampler.energy_ s /\
     forall fuel,
       Sampler.Run distu_ distn_ fuel s nsweeps thermfactor sweepfactor nflipss
       = Aborted Sampler.odd_message s1) /\
  (Sampler.valid_parameters s nsweeps thermfactor nflipss ->
   Nat.modulo (Sampler.nspins_ s) 2 = 0%nat ->
   Sampler.fair distn_ (Sampler.nspins_ s) ->
   Sampler.in_range distn_ (Sampler.nspins_ s) ->
   exists fuel0 s',
     forall fuel, (fuel0 <= fuel)%nat ->
       Sampler.Run distu_ distn_ fuel s nsweeps thermfactor sweepfactor nflipss
       = Done s').
Proof.
  split; [split|split].
  - apply Run_rejects.
  - intros (msg & Hin & Hrun) Hvalid.
    pose proof (Run_abort_message distu_ distn_ s nsweeps thermfactor sweepfactor
                  nflipss 0 msg s Hvalid (Hrun 0%nat)) as Hmsg.
    subst msg. exact (odd_message_not_validation Hin).
  - intros Hvalid Hodd.
    destruct (Run_odd distu_ distn_ s nsweeps thermfactor sweepfactor nflipss
                Hvalid Hodd) as (s1 & (_ & _ & _ & He) & Hcfg & Hrun).
    exists s1. split; [exact Hcfg|]. split; [exact He|exact Hrun].
  - intros Hvalid Heven Hfair Hrange.
    destruct (Run_completes distu_ distn_ s nsweeps thermfactor sweepfactor nflipss
                Hvalid Heven Hfair Hrange) as (fuel0 & s' & Hrun & _).
    exists fuel0, s'. exact Hrun.
Qed.

Lemma Run_validation_witness :
  (exists fuel0 s',
      forall fuel, (fuel0 <= fuel)%nat ->
        Sampler.Run Tiny.distu_ (Tiny.distn_ 2) fuel Tiny.sampler 100 (1 / 10) 1 (-1)
        = Done s') /\
  (exists msg, In msg Sampler.validation_messages /\
               forall fuel,
                 Sampler.Run Tiny.distu_ (Tiny.distn_ 2) fuel Tiny.sampler 10 (1 / 10) 1 (-1)
                 = Aborted msg Tiny.sampler).
Proof.
  split.
  - destruct (Run_validation Tiny.distu_ (Tiny.distn_ 2) Tiny.sampler 100 (1 / 10) 1 (-1))
      as (_ & _ & Hdone).
    apply Hdone.
    + exact Tiny_sampler_valid.
    + reflexivity.
    + exact Tiny_fair_2.
    + exact Tiny_in_range_2.
  - destruct (Run_validation Tiny.distu_ (Tiny.distn_ 2) Tiny.sampler 10 (1 / 10) 1 (-1))
      as ((Hrej & _) & _).
    apply Hrej. unfold Sampler.valid_parameters. intros (_ & _ & Hn). lra.
Defined.

(** C3.  What the code does: with parameters in range, an even number of
    spins and a fair generator, [Run] returns having recorded one sample for
    each of the [nsweeps] turns of its measuring loop, whatever the
    thermalization factor, and having made [nspins * sweepfactor] moves in
    each since the statistics were reset. *)
Theorem Run_records_every_sweep {G H : Type} {ham : Hamiltonian H}
    (distu_ : G -> R * G) (distn_ : G -> nat * G)
    (s : Sampler.t (G := G) (H := H))
    (nsweeps thermfactor : R) (sweepfactor nflipss : Z) :
  Sampler.valid_parameters s nsweeps thermfactor nflipss ->
  Nat.modulo (Sampler.nspins_ s) 2 = 0%nat ->
  Sampler.fair distn_ (Sampler.nspins_ s) ->
  Sampler.in_range distn_ (Sampler.nspins_ s) ->
  exists fuel0 s',
    (forall fuel, (fuel0 <= fuel)%nat ->
       Sampler.Run distu_ distn_ fuel s nsweeps thermfactor sweepfactor nflipss = Done s') /\
    length (Sampler.energy_ s')
    = (length (Sampler.energy_ s) + sweep_count nsweeps)%nat /\
    Sampler.nmoves_ s'
    = INR (sweep_count nsweeps * Sampler.moves_per_sweep s sweepfactor).
Proof. apply Run_completes. Qed.

(** The failing input of C3: 100 sweeps with a thermalization factor of 1/10
    leave 100 samples, not the 90 that (1 - 1/10) * 100 would be. *)
Lemma Run_records_every_sweep_witness :
  exists fuel0 s',
    (forall fuel, (fuel0 <= fuel)%nat ->
       Sampler.Run Tiny.distu_ (Tiny.distn_ 2) fuel Tiny.sampler 100 (1 / 10) 1 (-1)
       = Done s') /\
    length (Sampler.energy_ s') = 100%nat /\
    sweep_count ((1 - 1 / 10) * 100) = 90%nat.
Proof.
  destruct (Run_records_every_sweep Tiny.distu_ (Tiny.distn_ 2) Tiny.sampler
              100 (1 / 10) 1 (-1) Tiny_sampler_valid eq_refl Tiny_fair_2 Tiny_in_range_2)
    as (fuel0 & s' & Hrun & Hlen & _).
  exists fuel0, s'. split; [exact Hrun|]. split.
  - rewrite Hlen, sweep_count_100. reflexivity.
  - replace ((1 - 1 / 10) * 100)%R with 90%R by lra.
    rewrite sweep_count_IZR. reflexivity.
Defined.

(* ================================================================== *)
(** * Part III: further properties of the code                         *)
(* ================================================================== *)

(** ** The sampler between its moves *)

Section SamplerInvariants.

Context {G : Type} (distu_ : G -> R * G) (distn_ : G -> nat * G).
Context {H : Type} `{Hamiltonian H}.

Local Abbreviation sampler := (Sampler.t (G := G) (H := H)).

Lemma vset_pair {A} (l : list A) a b :
  length l = 2%nat -> vset (vset l 0 a) 1 b = [a; b].
Proof. destruct l as [|x [|y [|z l]]]; cbn; intros E; try discriminate; reflexivity. Qed.

Lemma vset_single {A} (l : list A) a :
  length l = 1%nat -> vset l 0 a = [a].
Proof. destruct l as [|x [|y l]]; cbn; intros E; try discriminate; reflexivity. Qed.

(** What [RandSpin] proposes. *)
Lemma RandSpin_spec (s : sampler) nflips mag0 :
  (nflips = 1 \/ nflips = 2)%Z ->
  Sampler.in_range distn_ (Sampler.nspins_ s) ->
  exists g flips,
    snd (Sampler.RandSpin distn_ s nflips mag0)
    = Sampler.set_flips (Sampler.set_gen s g) flips /\
    length flips = Z.to_nat nflips /\
    Forall (fun f => (f < Sampler.nspins_ s)%nat) flips /\
    (fst (Sampler.RandSpin distn_ s nflips mag0) = true <->
     (nflips = 2%Z ->
      if mag0
      then spin_at (Sampler.state_ s) (nth 1 flips 0%nat)
           <> spin_at (Sampler.state_ s) (nth 0 flips 0%nat)
      else nth 1 flips 0%nat <> nth 0 flips 0%nat)).
Proof.
  intros Hn Hrange. unfold Sampler.RandSpin, Sampler.RandSite.
  pose proof (Hrange (Sampler.gen_ s)) as Hf0.
  destruct (distn_ (Sampler.gen_ s)) as [f0 g0]. cbn [fst] in Hf0.
  cbn [Sampler.gen_ Sampler.set_gen].
  destruct Hn as [-> | ->].
  - cbn [Z.eqb Pos.eqb]. cbv zeta. cbn [fst snd].
    rewrite vset_single by apply vresize_length.
    exists g0, [f0]. split; [reflexivity|]. split; [reflexivity|]. split.
    + repeat constructor. exact Hf0.
    + split; [intros _ E; discriminate E|reflexivity].
  - cbn [Z.eqb Pos.eqb].
    pose proof (Hrange g0) as Hf1.
    destruct (distn_ g0) as [f1 g1]. cbn [fst] in Hf1.
    cbv zeta.
    rewrite vset_pair by apply vresize_length.
    exists g1, [f0; f1]. cbn [Sampler.set_flips Sampler.state_ nth].
    destruct mag0; cbn [negb fst snd].
    + split; [reflexivity|]. split; [reflexivity|]. split.
      * repeat constructor; assumption.
      * split.
        -- intros E _. apply negb_true_iff in E. now apply Z.eqb_neq in E.
        -- intros E. apply negb_true_iff. apply Z.eqb_neq. now apply E.
    + split; [reflexivity|]. split; [reflexivity|]. split.
      * repeat constructor; assumption.
      * split.
        -- intros E _. apply negb_true_iff in E. now apply Nat.eqb_neq in E.
        -- intros E. apply negb_true_iff. apply Nat.eqb_neq. now apply E.
Qed.

(** An accepted proposal never names a site twice. *)
Lemma proposal_NoDup (state : list Z) nflips (mag0 : bool) (flips : list nat) :
  (nflips = 1 \/ nflips = 2)%Z ->
  length flips = Z.to_nat nflips ->
  (nflips = 2%Z ->
   if mag0
   then spin_at state (nth 1 flips 0%nat) <> spin_at state (nth 0 flips 0%nat)
   else nth 1 flips 0%nat <> nth 0 flips 0%nat) ->
  NoDup flips.
Proof.
  intros Hn Hlen Hok. destruct Hn as [-> | ->].
  - destruct flips as [|f0 [|f1 fl]]; try discriminate Hlen.
    repeat constructor. intros [].
  - destruct flips as [|f0 [|f1 [|f2 fl]]]; try discriminate Hlen.
    specialize (Hok eq_refl). cbn [nth] in Hok. repeat constructor; [|intros []].
    intros [E|[]]. subst f1. destruct mag0; now apply Hok.
Qed.

Lemma flip_sites_config n state flips :
  is_config n state -> Forall (fun f => (f < n)%nat) flips ->
  is_config n (flip_sites state flips).
Proof.
  intros Hcfg Hall. revert state Hcfg.
  induction Hall as [|f fs Hf Hall IH]; intros state Hcfg; [exact Hcfg|].
  rewrite flip_sites_cons. apply IH. apply (config_vset n); [exact Hcfg|].
  destruct (config_nth n state f Hcfg Hf) as [-> | ->]; [right|left]; reflexivity.
Qed.

Lemma flip_pair_magnetization n state f0 f1 :
  is_config n state -> (f0 < n)%nat -> (f1 < n)%nat ->
  spin_at state f1 <> spin_at state f0 ->
  Sampler.magnetization (flip_sites state [f0; f1]) = Sampler.magnetization state.
Proof.
  intros Hcfg Hf0 Hf1 Hne. unfold spin_at in Hne.
  assert (Hd : f0 <> f1) by (intros ->; now apply Hne).
  destruct Hcfg as [Hlen Hall].
  pose proof (config_nth n state f0 (conj Hlen Hall) Hf0) as V0.
  pose proof (config_nth n state f1 (conj Hlen Hall) Hf1) as V1.
  unfold flip_sites. cbn [fold_left].
  rewrite magnetization_vset by (rewrite vset_length; lia).
  rewrite (nth_vset_neq state f0 f1) by exact Hd.
  rewrite magnetization_vset by lia.
  lia.
Qed.

Lemma Move_consistent (s : sampler) nflips :
  (nflips = 1 \/ nflips = 2)%Z ->
  Sampler.in_range distn_ (Sampler.nspins_ s) ->
  Sampler.consistent s ->
  Sampler.consistent (Sampler.Move distu_ distn_ s nflips) /\
  (nflips = 2%Z ->
   Sampler.magnetization (Sampler.state_ (Sampler.Move distu_ distn_ s nflips))
   = Sampler.magnetization (Sampler.state_ s)).
Proof.
  intros Hn Hrange (Hnv & Hcfg & Hco).
  rewrite (Move_unfold distu_ distn_ s nflips). cbv zeta.
  destruct (RandSpin_spec s nflips true Hn Hrange)
    as (g & flips & Hs1 & Hlen & Hall & Hok).
  destruct (Sampler.RandSpin distn_ s nflips true) as [ok s1] eqn:Hrs.
  cbn [fst snd] in *. subst s1.
  cbn [Sampler.gen_ Sampler.set_flips Sampler.set_gen].
  destruct ok.
  - destruct (Rgt_dec _ _).
    + unfold Sampler.accept_move, Sampler.consistent.
      cbn [Sampler.set_nmoves Sampler.set_accept Sampler.set_state Sampler.set_wf
           Sampler.set_gen Sampler.set_flips Sampler.nspins_ Sampler.wf_ Sampler.state_
           Sampler.flips_].
      destruct (NqsFacts.UpdateLt_params (Sampler.wf_ s) (Sampler.state_ s) flips)
        as (_ & _ & _ & _ & Hnv').
      split; [split; [|split]|].
      * now rewrite Hnv'.
      * now apply flip_sites_config.
      * apply NqsFacts.UpdateLt_coherent; [exact Hco| |destruct Hcfg; congruence].
        split; [|now rewrite <- Hnv].
        destruct Hok as [Hok _]. specialize (Hok eq_refl).
        exact (proposal_NoDup (Sampler.state_ s) nflips true flips Hn Hlen Hok).
      * intros ->. destruct Hok as [Hok _]. specialize (Hok eq_refl eq_refl).
        destruct flips as [|f0 [|f1 [|f2 fl]]]; try discriminate Hlen.
        cbn [nth] in Hok. inversion Hall as [|? ? Hf0 Hall']; subst.
        inversion Hall' as [|? ? Hf1 _]; subst.
        now apply (flip_pair_magnetization (Sampler.nspins_ s)).
    + split; [|reflexivity]. split; [exact Hnv|]. split; [exact Hcfg|exact Hco].
  - split; [|reflexivity]. split; [exact Hnv|]. split; [exact Hcfg|exact Hco].
Qed.


Lemma draw_while_result n (p : nat -> bool) fuel g rs g' :
  Sampler.in_range distn_ n ->
  Sampler.draw_while distn_ fuel p g = Some (rs, g') ->
  p rs = false /\ (rs < n)%nat.
Proof.
  intros Hrange. revert g. induction fuel as [|fuel IH]; intros g; cbn [Sampler.draw_while].
  - discriminate.
  - pose proof (Hrange g) as Hr. destruct (distn_ g) as [r g1]. cbn [fst] in Hr.
    destruct (p r) eqn:Hp.
    + apply IH.
    + intros E. injection E as <- <-. split; assumption.
Qed.

Lemma balance_result n :
  Sampler.in_range distn_ n ->
  forall fuel magt state g state' g',
    is_config n state ->
    Z.even (Sampler.magnetization state) = true ->
    (magt = 0%Z -> Sampler.magnetization state = 0%Z) ->
    Sampler.balance distn_ fuel magt state g = Some (state', g') ->
    is_config n state' /\ Sampler.magnetization state' = 0%Z.
Proof.
  intros Hrange. induction fuel as [|fuel IH]; intros magt state g state' g' Hcfg Heven Hz;
    cbn [Sampler.balance]; [discriminate|].
  destruct (Z.eqb_spec magt 0) as [Hm|Hm].
  { intros E. injection E as <- <-. split; [exact Hcfg|now apply Hz]. }
  destruct (Z.even_spec (Sampler.magnetization state)) as [Hev _].
  destruct (Hev Heven) as [q Hq].
  destruct (Z.gtb_spec (Sampler.magnetization state) 0) as [Hpos|Hnpos].
  - destruct (Sampler.draw_while distn_ fuel _ g) as [[rs g1]|] eqn:Hdraw; [|discriminate].
    destruct (draw_while_result n _ fuel g rs g1 Hrange Hdraw) as [Hprs Hrs].
    assert (Hspin : nth rs state 0%Z = 1%Z).
    { destruct (config_nth n state rs Hcfg Hrs) as [E|E]; [exact E|].
      unfold spin_at in Hprs. rewrite E in Hprs. discriminate. }
    assert (Hlen : (rs < length state)%nat) by (destruct Hcfg; lia).
    pose proof (magnetization_vset state rs (-1)%Z Hlen) as Hmag. rewrite Hspin in Hmag.
    apply IH.
    + apply (config_vset n); auto.
    + rewrite Hmag. replace (Sampler.magnetization state - 1 + -1)%Z
        with (Sampler.magnetization state + 2 * (-1))%Z by lia.
      now rewrite Z.even_add_mul_2.
    + lia.
  - destruct (Z.ltb_spec (Sampler.magnetization state) 0) as [Hneg|Hnneg].
    + destruct (Sampler.draw_while distn_ fuel _ g) as [[rs g1]|] eqn:Hdraw; [|discriminate].
      destruct (draw_while_result n _ fuel g rs g1 Hrange Hdraw) as [Hprs Hrs].
      assert (Hspin : nth rs state 0%Z = (-1)%Z).
      { destruct (config_nth n state rs Hcfg Hrs) as [E|E]; [|exact E].
        unfold spin_at in Hprs. rewrite E in Hprs. discriminate. }
      assert (Hlen : (rs < length state)%nat) by (destruct Hcfg; lia).
      pose proof (magnetization_vset state rs 1%Z Hlen) as Hmag. rewrite Hspin in Hmag.
      apply IH.
      * apply (config_vset n); auto.
      * rewrite Hmag. replace (Sampler.magnetization state - -1 + 1)%Z
          with (Sampler.magnetization state + 2 * 1)%Z by lia.
        now rewrite Z.even_add_mul_2.
      * lia.
    + apply IH; [exact Hcfg|exact Heven|lia].
Qed.

(** The first loop of [InitRandomState] touches the configuration and the
    generator only. *)
Lemma init_spins_rest (s0 : sampler) l :
  let s1 :=
    fold_left (fun s i =>
                 let '(u, s) := Sampler.Uniform distu_ s in
                 Sampler.set_state s
                   (vset (Sampler.state_ s) i
                         (if Rlt_dec u (1 / 2) then (-1)%Z else 1%Z)))
              l s0 in
  Sampler.wf_ s1 = Sampler.wf_ s0 /\ Sampler.filestates_ s1 = Sampler.filestates_ s0.
Proof.
  cbv zeta. revert s0. induction l as [|i l IH]; intros s0; cbn [fold_left].
  - split; reflexivity.
  - destruct (IH (let '(u, s) := Sampler.Uniform distu_ s0 in
                  Sampler.set_state s
                    (vset (Sampler.state_ s) i
                          (if Rlt_dec u (1 / 2) then (-1)%Z else 1%Z)))) as [-> ->].
    unfold Sampler.Uniform. destruct (distu_ (Sampler.gen_ s0)). split; reflexivity.
Qed.

Lemma InitRandomState_Done (s s1 : sampler) fuel :
  Sampler.in_range distn_ (Sampler.nspins_ s) ->
  Sampler.InitRandomState distu_ distn_ fuel s true = Done s1 ->
  Sampler.same_frame s s1 /\
  Sampler.wf_ s1 = Sampler.wf_ s /\ Sampler.filestates_ s1 = Sampler.filestates_ s /\
  is_config (Sampler.nspins_ s) (Sampler.state_ s1) /\
  Sampler.magnetization (Sampler.state_ s1) = 0%Z.
Proof.
  intros Hrange. unfold Sampler.InitRandomState.
  set (s0 := Sampler.set_state s (vresize (Sampler.state_ s) (Sampler.nspins_ s) 0%Z)).
  assert (Hlen0 : length (Sampler.state_ s0) = Sampler.nspins_ s)
    by (unfold s0; cbn; apply vresize_length).
  destruct (init_spins distu_ s0 (Sampler.nspins_ s0)) as (Hf & Hlen & Hspins).
  { unfold s0 at 1. cbn [Sampler.nspins_ Sampler.set_state]. lia. }
  destruct (init_spins_rest s0 (seq 0 (Sampler.nspins_ s0))) as [Hwf Hfs].
  cbv zeta in Hf, Hlen, Hspins, Hwf, Hfs.
  set (s2 := fold_left _ (seq 0 (Sampler.nspins_ s0)) s0) in *. clearbody s2.
  assert (Hn2 : Sampler.nspins_ s2 = Sampler.nspins_ s) by (destruct Hf as (-> & _); reflexivity).
  assert (Hcfg : is_config (Sampler.nspins_ s) (Sampler.state_ s2)).
  { split; [lia|]. apply (Forall_of_nth _ _ 0%Z). intros i Hi. apply Hspins.
    unfold s0 at 1. cbn [Sampler.nspins_ Sampler.set_state]. lia. }
  rewrite Hn2.
  destruct (Nat.eqb_spec (Sampler.nspins_ s mod 2) 0) as [Heven|Hodd]; cbn [negb];
    [|discriminate].
  destruct (Sampler.balance distn_ fuel 1 (Sampler.state_ s2) (Sampler.gen_ s2))
    as [[state g]|] eqn:Hbal; [|discriminate].
  intros E. injection E as <-.
  assert (Hev : Z.even (Sampler.magnetization (Sampler.state_ s2)) = true).
  { destruct (magnetization_config _ _ Hcfg) as (k & _ & ->).
    pose proof (Nat.div_mod_eq (Sampler.nspins_ s) 2) as Hd. rewrite Heven in Hd.
    replace (Z.of_nat (Sampler.nspins_ s) - 2 * k)%Z
      with (0 + 2 * (Z.of_nat (Sampler.nspins_ s / 2) - k))%Z by lia.
    now rewrite Z.even_add_mul_2. }
  destruct (balance_result _ Hrange fuel 1%Z _ _ _ _ Hcfg Hev ltac:(lia) Hbal) as [Hc Hm].
  cbn [Sampler.wf_ Sampler.filestates_ Sampler.state_ Sampler.set_gen Sampler.set_state].
  split; [|split; [|split; [|split]]].
  - eapply same_frame_trans; [|eapply same_frame_trans; [exact Hf|]]; repeat split.
  - rewrite Hwf. reflexivity.
  - rewrite Hfs. reflexivity.
  - exact Hc.
  - exact Hm.
Qed.


(** [Move] never writes a configuration. *)
Lemma Move_filestates (s : sampler) nflips :
  Sampler.filestates_ (Sampler.Move distu_ distn_ s nflips) = Sampler.filestates_ s.
Proof.
  rewrite (Move_unfold distu_ distn_ s nflips). cbv zeta.
  unfold Sampler.RandSpin, Sampler.RandSite.
  destruct (distn_ (Sampler.gen_ s)) as [f0 g0]. cbn [Sampler.gen_ Sampler.set_gen].
  destruct (nflips =? 2)%Z.
  - destruct (distn_ g0) as [f1 g1]. cbv zeta. cbn [negb fst snd].
    destruct (negb _); [destruct (Rgt_dec _ _)|]; reflexivity.
  - cbn [fst snd]. destruct (Rgt_dec _ _); reflexivity.
Qed.

(** The counters of [Move]: one more move, at most one more accepted. *)
Lemma Move_counters (s : sampler) nflips :
  let s' := Sampler.Move distu_ distn_ s nflips in
  (Sampler.accept_ s <= Sampler.accept_ s' <= Sampler.accept_ s + 1)%R.
Proof.
  cbv zeta. rewrite (Move_unfold distu_ distn_ s nflips). cbv zeta.
  unfold Sampler.RandSpin, Sampler.RandSite.
  destruct (distn_ (Sampler.gen_ s)) as [f0 g0]. cbn [Sampler.gen_ Sampler.set_gen].
  destruct (nflips =? 2)%Z.
  - destruct (distn_ g0) as [f1 g1]. cbv zeta. cbn [negb fst snd].
    destruct (negb _); [destruct (Rgt_dec _ _)|]; cbn; lra.
  - cbn [fst snd]. destruct (Rgt_dec _ _); cbn; lra.
Qed.

Lemma iter_Move_consistent (s : sampler) nflips k :
  (nflips = 1 \/ nflips = 2)%Z ->
  Sampler.in_range distn_ (Sampler.nspins_ s) ->
  Sampler.consistent s ->
  let s' := Nat.iter k (fun s => Sampler.Move distu_ distn_ s nflips) s in
  Sampler.consistent s' /\
  (nflips = 2%Z ->
   Sampler.magnetization (Sampler.state_ s') = Sampler.magnetization (Sampler.state_ s)) /\
  Sampler.filestates_ s' = Sampler.filestates_ s.
Proof.
  intros Hn Hrange Hc. cbv zeta. induction k as [|k (IHc & IHm & IHf)].
  - cbn [Nat.iter nat_rect]. split; [exact Hc|]. split; reflexivity.
  - rewrite Nat.iter_succ.
    set (s1 := Nat.iter k _ s) in *.
    assert (Hn1 : Sampler.nspins_ s1 = Sampler.nspins_ s).
    { destruct (iter_Move_frame distu_ distn_ s nflips k) as [(E & _) _]. exact E. }
    destruct (Move_consistent s1 nflips Hn) as [Hc' Hm']; [now rewrite Hn1|exact IHc|].
    split; [exact Hc'|]. split.
    + intros E. rewrite (Hm' E). now apply IHm.
    + now rewrite Move_filestates.
Qed.

Lemma sweep_consistent (s : sampler) nflips sweepfactor :
  (nflips = 1 \/ nflips = 2)%Z ->
  Sampler.in_range distn_ (Sampler.nspins_ s) ->
  Sampler.consistent s ->
  let s' := Sampler.sweep distu_ distn_ nflips sweepfactor s in
  Sampler.consistent s' /\
  (nflips = 2%Z ->
   Sampler.magnetization (Sampler.state_ s') = Sampler.magnetization (Sampler.state_ s)) /\
  Sampler.filestates_ s' = Sampler.filestates_ s.
Proof. unfold Sampler.sweep. apply iter_Move_consistent. Qed.

Lemma iter_sweep_consistent (s : sampler) nflips sweepfactor k :
  (nflips = 1 \/ nflips = 2)%Z ->
  Sampler.in_range distn_ (Sampler.nspins_ s) ->
  Sampler.consistent s ->
  let s' := Nat.iter k (Sampler.sweep distu_ distn_ nflips sweepfactor) s in
  Sampler.consistent s' /\
  (nflips = 2%Z ->
   Sampler.magnetization (Sampler.state_ s') = Sampler.magnetization (Sampler.state_ s)) /\
  Sampler.filestates_ s' = Sampler.filestates_ s.
Proof.
  intros Hn Hrange Hc. cbv zeta. induction k as [|k (IHc & IHm & IHf)].
  - cbn [Nat.iter nat_rect]. split; [exact Hc|]. split; reflexivity.
  - rewrite Nat.iter_succ.
    set (s1 := Nat.iter k _ s) in *.
    assert (Hn1 : Sampler.nspins_ s1 = Sampler.nspins_ s).
    { destruct (iter_sweep_frame distu_ distn_ s nflips sweepfactor k) as (E & _). exact E. }
    destruct (sweep_consistent s1 nflips sweepfactor Hn) as (Hc' & Hm' & Hf');
      [now rewrite Hn1|exact IHc|].
    split; [exact Hc'|]. split.
    + intros E. rewrite (Hm' E). now apply IHm.
    + now rewrite Hf'.
Qed.

(** [MeasureEnergy] and [WriteState] leave the configuration, the wave
    function and the counters alone. *)
Lemma MeasureEnergy_rest (s : sampler) :
  let s' := Sampler.MeasureEnergy s in
  Sampler.state_ s' = Sampler.state_ s /\ Sampler.wf_ s' = Sampler.wf_ s /\
  Sampler.nspins_ s' = Sampler.nspins_ s /\
  Sampler.filestates_ s' = Sampler.filestates_ s /\
  Sampler.accept_ s' = Sampler.accept_ s /\
  Sampler.writestates_ s' = Sampler.writestates_ s.
Proof.
  cbv zeta. unfold Sampler.MeasureEnergy.
  destruct (FindConn _ _ _ _) as [flipsh mel]. repeat split.
Qed.

Lemma measured_sweep_consistent (s : sampler) nflips sweepfactor :
  (nflips = 1 \/ nflips = 2)%Z ->
  Sampler.in_range distn_ (Sampler.nspins_ s) ->
  Sampler.consistent s ->
  let s' := Sampler.measured_sweep distu_ distn_ nflips sweepfactor s in
  Sampler.consistent s' /\
  (nflips = 2%Z ->
   Sampler.magnetization (Sampler.state_ s') = Sampler.magnetization (Sampler.state_ s)) /\
  Sampler.filestates_ s'
  = Sampler.filestates_ s ++ (if Sampler.writestates_ s then [Sampler.state_ s'] else []).
Proof.
  intros Hn Hrange Hc. cbv zeta. unfold Sampler.measured_sweep.
  destruct (sweep_consistent s nflips sweepfactor Hn Hrange Hc) as (Hc' & Hm' & Hf').
  destruct (sweep_frame distu_ distn_ s nflips sweepfactor) as [(_ & _ & Hw & _) _].
  set (s1 := Sampler.sweep distu_ distn_ nflips sweepfactor s) in *. clearbody s1.
  cbv zeta. rewrite Hw.
  destruct (MeasureEnergy_rest (if Sampler.writestates_ s then Sampler.WriteState s1 else s1))
    as (Es & Ew & En & Ef & Ea & _). cbv zeta in *.
  unfold Sampler.consistent. rewrite Es, Ew, En, Ef.
  destruct (Sampler.writestates_ s);
    cbn [Sampler.WriteState Sampler.set_filestates Sampler.state_ Sampler.wf_
         Sampler.nspins_ Sampler.filestates_].
  - split; [exact Hc'|]. split; [exact Hm'|]. now rewrite Hf'.
  - split; [exact Hc'|]. split; [exact Hm'|]. now rewrite Hf', app_nil_r.
Qed.


Lemma iter_measured_sweep_consistent (s : sampler) nflips sweepfactor k :
  (nflips = 1 \/ nflips = 2)%Z ->
  Sampler.in_range distn_ (Sampler.nspins_ s) ->
  Sampler.consistent s ->
  let s' := Nat.iter k (Sampler.measured_sweep distu_ distn_ nflips sweepfactor) s in
  Sampler.consistent s' /\
  (nflips = 2%Z ->
   Sampler.magnetization (Sampler.state_ s') = Sampler.magnetization (Sampler.state_ s)) /\
  (exists lines,
      Sampler.filestates_ s' = Sampler.filestates_ s ++ lines /\
      length lines = (if Sampler.writestates_ s then k else 0%nat) /\
      Forall (fun line =>
                is_config (Sampler.nspins_ s) line /\
                (nflips = 2%Z ->
                 Sampler.magnetization line = Sampler.magnetization (Sampler.state_ s)))
             lines).
Proof.
  intros Hn Hrange Hc. cbv zeta. induction k as [|k (IHc & IHm & (lines & IHf & IHl & IHa))].
  - cbn [Nat.iter nat_rect]. split; [exact Hc|]. split; [reflexivity|].
    exists []. rewrite app_nil_r. split; [reflexivity|].
    split; [now destruct (Sampler.writestates_ s)|constructor].
  - rewrite Nat.iter_succ.
    destruct (iter_measured_sweep_frame distu_ distn_ s nflips sweepfactor k)
      as (Hn1 & _ & Hw1 & _). cbv zeta in Hn1, Hw1.
    set (s1 := Nat.iter k _ s) in *.
    destruct (measured_sweep_consistent s1 nflips sweepfactor Hn)
      as (Hc' & Hm' & Hf'); [now rewrite Hn1|exact IHc|].
    cbv zeta in Hc', Hm', Hf'.
    set (s2 := Sampler.measured_sweep distu_ distn_ nflips sweepfactor s1) in *.
    split; [exact Hc'|]. split.
    + intros E. rewrite (Hm' E). now apply IHm.
    + rewrite Hf', IHf, Hw1, <- app_assoc.
      exists (lines ++ (if Sampler.writestates_ s then [Sampler.state_ s2] else [])).
      split; [reflexivity|]. split.
      * rewrite length_app, IHl. destruct (Sampler.writestates_ s); cbn [length]; lia.
      * apply Forall_app. split; [exact IHa|].
        destruct (Sampler.writestates_ s); constructor; [|constructor].
        destruct Hc' as (Hnv' & Hcfg' & _).
        assert (Hn2 : Sampler.nspins_ s2 = Sampler.nspins_ s).
        { destruct (measured_sweep_frame distu_ distn_ s1 nflips sweepfactor) as (E & _).
          cbv zeta in E. fold s2 in E. congruence. }
        split; [now rewrite <- Hn2|].
        intros E. rewrite (Hm' E). now apply IHm.
Qed.

(** The counters over a run of moves, a sweep, and measured sweeps. *)
Lemma iter_Move_counters (s : sampler) nflips k :
  let s' := Nat.iter k (fun s => Sampler.Move distu_ distn_ s nflips) s in
  (Sampler.accept_ s <= Sampler.accept_ s' <= Sampler.accept_ s + INR k)%R.
Proof.
  cbv zeta. induction k as [|k IH].
  - cbn [Nat.iter nat_rect INR]. lra.
  - rewrite Nat.iter_succ.
    pose proof (Move_counters (Nat.iter k (fun s => Sampler.Move distu_ distn_ s nflips) s)
                  nflips) as Hcnt.
    cbv zeta in Hcnt. rewrite S_INR. lra.
Qed.

Lemma measured_sweep_counters (s : sampler) nflips sweepfactor :
  let s' := Sampler.measured_sweep distu_ distn_ nflips sweepfactor s in
  (Sampler.accept_ s <= Sampler.accept_ s'
   <= Sampler.accept_ s + INR (Sampler.moves_per_sweep s sweepfactor))%R.
Proof.
  cbv zeta. unfold Sampler.measured_sweep. cbv zeta.
  assert (Hcnt : (Sampler.accept_ s
                  <= Sampler.accept_ (Sampler.sweep distu_ distn_ nflips sweepfactor s)
                  <= Sampler.accept_ s + INR (Sampler.moves_per_sweep s sweepfactor))%R)
    by (unfold Sampler.sweep; apply iter_Move_counters).
  set (s1 := Sampler.sweep distu_ distn_ nflips sweepfactor s) in *. clearbody s1.
  destruct (MeasureEnergy_rest (if Sampler.writestates_ s1 then Sampler.WriteState s1 else s1))
    as (_ & _ & _ & _ & Ea & _). cbv zeta in Ea. rewrite Ea.
  destruct (Sampler.writestates_ s1); exact Hcnt.
Qed.

Lemma iter_measured_sweep_counters (s : sampler) nflips sweepfactor k :
  let s' := Nat.iter k (Sampler.measured_sweep distu_ distn_ nflips sweepfactor) s in
  (Sampler.accept_ s <= Sampler.accept_ s'
   <= Sampler.accept_ s + INR (k * Sampler.moves_per_sweep s sweepfactor))%R.
Proof.
  cbv zeta. induction k as [|k IH].
  - cbn [Nat.iter nat_rect Nat.mul INR]. lra.
  - rewrite Nat.iter_succ.
    destruct (iter_measured_sweep_frame distu_ distn_ s nflips sweepfactor k)
      as (Hn1 & _). cbv zeta in Hn1.
    pose proof (measured_sweep_counters
                  (Nat.iter k (Sampler.measured_sweep distu_ distn_ nflips sweepfactor) s)
                  nflips sweepfactor) as Hcnt.
    cbv zeta in Hcnt. unfold Sampler.moves_per_sweep in *. rewrite Hn1 in Hcnt.
    replace (S k * Z.to_nat (Z.of_nat (Sampler.nspins_ s) * sweepfactor))%nat
      with (k * Z.to_nat (Z.of_nat (Sampler.nspins_ s) * sweepfactor)
            + Z.to_nat (Z.of_nat (Sampler.nspins_ s) * sweepfactor))%nat by lia.
    rewrite plus_INR. lra.
Qed.

Lemma sample_counters (s : sampler) nsweeps thermfactor sweepfactor nflips :
  let s' := Sampler.sample distu_ distn_ s nsweeps thermfactor sweepfactor nflips in
  (0 <= Sampler.accept_ s' <= Sampler.nmoves_ s')%R.
Proof.
  destruct (sample_frame distu_ distn_ s nsweeps thermfactor sweepfactor nflips)
    as (_ & _ & Hmoves).
  cbv zeta in *. rewrite Hmoves. clear Hmoves. unfold Sampler.sample.
  set (s1 := Sampler.ResetAv
               (Sampler.set_wf
                  (Sampler.set_flips s (vresize (Sampler.flips_ s) (Z.to_nat nflips) 0%nat))
                  _)).
  assert (En1 : Sampler.nspins_ s1 = Sampler.nspins_ s) by reflexivity. clearbody s1.
  destruct (iter_sweep_frame distu_ distn_ s1 nflips sweepfactor
              (sweep_count (nsweeps * thermfactor))) as (En2 & _).
  set (s2 := Nat.iter _ (Sampler.sweep distu_ distn_ nflips sweepfactor) s1) in *.
  clearbody s2.
  pose proof (iter_measured_sweep_counters (Sampler.ResetAv s2) nflips sweepfactor
                (sweep_count nsweeps)) as Hcnt.
  cbv zeta in Hcnt. unfold Sampler.moves_per_sweep in *.
  change (Sampler.accept_ (Sampler.ResetAv s2)) with 0%R in Hcnt.
  change (Sampler.nspins_ (Sampler.ResetAv s2)) with (Sampler.nspins_ s2) in Hcnt.
  rewrite En2, En1 in Hcnt. lra.
Qed.

(** What the two loops of [Run] leave, from a configuration on. *)
Lemma sample_consistent (s : sampler) nsweeps thermfactor sweepfactor nflips :
  (nflips = 1 \/ nflips = 2)%Z ->
  Sampler.in_range distn_ (Sampler.nspins_ s) ->
  Sampler.nspins_ s = Nqs.nv_ (Sampler.wf_ s) ->
  is_config (Sampler.nspins_ s) (Sampler.state_ s) ->
  let s' := Sampler.sample distu_ distn_ s nsweeps thermfactor sweepfactor nflips in
  Sampler.consistent s' /\
  (nflips = 2%Z ->
   Sampler.magnetization (Sampler.state_ s') = Sampler.magnetization (Sampler.state_ s)) /\
  (exists lines,
      Sampler.filestates_ s' = Sampler.filestates_ s ++ lines /\
      length lines = (if Sampler.writestates_ s then sweep_count nsweeps else 0%nat) /\
      Forall (fun line =>
                is_config (Sampler.nspins_ s) line /\
                (nflips = 2%Z ->
                 Sampler.magnetization line = Sampler.magnetization (Sampler.state_ s)))
             lines).
Proof.
  intros Hn Hrange Hnv Hcfg.
  cbv zeta in *. unfold Sampler.sample.
  set (s1 := Sampler.ResetAv
               (Sampler.set_wf
                  (Sampler.set_flips s (vresize (Sampler.flips_ s) (Z.to_nat nflips) 0%nat))
                  _)).
  assert (C1 : Sampler.consistent s1).
  { unfold s1, Sampler.consistent. cbn. split; [exact Hnv|]. split; [exact Hcfg|].
    apply NqsFacts.InitLt_coherent. }
  assert (E1 : Sampler.nspins_ s1 = Sampler.nspins_ s /\
               Sampler.state_ s1 = Sampler.state_ s /\
               Sampler.filestates_ s1 = Sampler.filestates_ s /\
               Sampler.writestates_ s1 = Sampler.writestates_ s)
    by (unfold s1; repeat split).
  destruct E1 as (En1 & Es1 & Ef1 & Ew1). clearbody s1.
  destruct (iter_sweep_consistent s1 nflips sweepfactor (sweep_count (nsweeps * thermfactor))
              Hn ltac:(now rewrite En1) C1) as (C2 & M2 & F2).
  destruct (iter_sweep_frame distu_ distn_ s1 nflips sweepfactor
              (sweep_count (nsweeps * thermfactor))) as (En2 & _ & Ew2 & _).
  cbv zeta in C2, M2, F2.
  set (s2 := Nat.iter _ (Sampler.sweep distu_ distn_ nflips sweepfactor) s1) in *.
  clearbody s2.
  assert (C3 : Sampler.consistent (Sampler.ResetAv s2)) by exact C2.
  assert (E3 : Sampler.nspins_ (Sampler.ResetAv s2) = Sampler.nspins_ s2 /\
               Sampler.state_ (Sampler.ResetAv s2) = Sampler.state_ s2 /\
               Sampler.filestates_ (Sampler.ResetAv s2) = Sampler.filestates_ s2 /\
               Sampler.writestates_ (Sampler.ResetAv s2) = Sampler.writestates_ s2)
    by repeat split.
  destruct E3 as (En3 & Es3 & Ef3 & Ew3).
  set (s3 := Sampler.ResetAv s2) in *. clearbody s3.
  destruct (iter_measured_sweep_consistent s3 nflips sweepfactor (sweep_count nsweeps)
              Hn ltac:(rewrite En3, En2, En1; exact Hrange) C3) as (C4 & M4 & (lines & F4 & L4 & A4)).
  cbv zeta in C4, M4, F4.
  split; [exact C4|]. split.
  - intros E. rewrite (M4 E), Es3, (M2 E), Es1. reflexivity.
  - exists lines. split; [rewrite F4; congruence|]. split.
    + rewrite L4, Ew3, Ew2, Ew1. reflexivity.
    + eapply Forall_impl; [|exact A4]. cbv beta. intros line [Hl Hm].
      split; [congruence|]. intros E. rewrite (Hm E), Es3, (M2 E), Es1. reflexivity.
Qed.


(** No move touches the weights, the biases or the sizes. *)
Lemma Move_parameters (s : sampler) nflips :
  Nqs.same_parameters (Sampler.wf_ s) (Sampler.wf_ (Sampler.Move distu_ distn_ s nflips)).
Proof.
  rewrite (Move_unfold distu_ distn_ s nflips). cbv zeta.
  unfold Sampler.RandSpin, Sampler.RandSite.
  destruct (distn_ (Sampler.gen_ s)) as [f0 g0]. cbn [Sampler.gen_ Sampler.set_gen].
  destruct (nflips =? 2)%Z.
  - destruct (distn_ g0) as [f1 g1]. cbv zeta. cbn [negb fst snd].
    destruct (negb _); [destruct (Rgt_dec _ _)|];
      try apply NqsFacts.same_parameters_refl.
    apply NqsFacts.UpdateLt_same_parameters.
  - cbn [fst snd]. destruct (Rgt_dec _ _); [|apply NqsFacts.same_parameters_refl].
    apply NqsFacts.UpdateLt_same_parameters.
Qed.

Lemma iter_Move_parameters (s : sampler) nflips k :
  Nqs.same_parameters
    (Sampler.wf_ s)
    (Sampler.wf_ (Nat.iter k (fun s => Sampler.Move distu_ distn_ s nflips) s)).
Proof.
  induction k as [|k IH]; [apply NqsFacts.same_parameters_refl|].
  rewrite Nat.iter_succ.
  eapply NqsFacts.same_parameters_trans; [exact IH|apply Move_parameters].
Qed.

Lemma iter_sweep_parameters (s : sampler) nflips sweepfactor k :
  Nqs.same_parameters
    (Sampler.wf_ s)
    (Sampler.wf_ (Nat.iter k (Sampler.sweep distu_ distn_ nflips sweepfactor) s)).
Proof.
  induction k as [|k IH]; [apply NqsFacts.same_parameters_refl|].
  rewrite Nat.iter_succ.
  eapply NqsFacts.same_parameters_trans; [exact IH|].
  unfold Sampler.sweep. apply iter_Move_parameters.
Qed.

Lemma measured_sweep_parameters (s : sampler) nflips sweepfactor :
  Nqs.same_parameters
    (Sampler.wf_ s)
    (Sampler.wf_ (Sampler.measured_sweep distu_ distn_ nflips sweepfactor s)).
Proof.
  unfold Sampler.measured_sweep. cbv zeta.
  pose proof (iter_Move_parameters s nflips (Sampler.moves_per_sweep s sweepfactor)) as Hp.
  change (Nat.iter (Sampler.moves_per_sweep s sweepfactor)
                   (fun s => Sampler.Move distu_ distn_ s nflips) s)
    with (Sampler.sweep distu_ distn_ nflips sweepfactor s) in Hp.
  set (s1 := Sampler.sweep distu_ distn_ nflips sweepfactor s) in *. clearbody s1.
  destruct (MeasureEnergy_rest (if Sampler.writestates_ s1 then Sampler.WriteState s1 else s1))
    as (_ & Ew & _). cbv zeta in Ew. rewrite Ew.
  destruct (Sampler.writestates_ s1); exact Hp.
Qed.

Lemma iter_measured_sweep_parameters (s : sampler) nflips sweepfactor k :
  Nqs.same_parameters
    (Sampler.wf_ s)
    (Sampler.wf_ (Nat.iter k (Sampler.measured_sweep distu_ distn_ nflips sweepfactor) s)).
Proof.
  induction k as [|k IH]; [apply NqsFacts.same_parameters_refl|].
  rewrite Nat.iter_succ.
  eapply NqsFacts.same_parameters_trans; [exact IH|apply measured_sweep_parameters].
Qed.

Lemma sample_parameters (s : sampler) nsweeps thermfactor sweepfactor nflips :
  Nqs.same_parameters
    (Sampler.wf_ s)
    (Sampler.wf_ (Sampler.sample distu_ distn_ s nsweeps thermfactor sweepfactor nflips)).
Proof.
  unfold Sampler.sample.
  eapply NqsFacts.same_parameters_trans; [|apply iter_measured_sweep_parameters].
  change (Nqs.same_parameters
            (Sampler.wf_ s)
            (Sampler.wf_
               (Nat.iter (sweep_count (nsweeps * thermfactor))
                  (Sampler.sweep distu_ distn_ nflips sweepfactor)
                  (Sampler.ResetAv
                     (Sampler.set_wf
                        (Sampler.set_flips s
                           (vresize (Sampler.flips_ s) (Z.to_nat nflips) 0%nat))
                        (Nqs.InitLt (Sampler.wf_ s) (Sampler.state_ s))))))).
  eapply NqsFacts.same_parameters_trans; [|apply iter_sweep_parameters].
  apply NqsFacts.InitLt_same_parameters.
Qed.

(** A Sampler.consistent sampler holds the table of the data model, whichever wave
    function of the same parameters it is computed from. *)
Lemma consistent_table (s : sampler) (wf : Nqs.t) :
  Sampler.consistent s -> Nqs.same_parameters wf (Sampler.wf_ s) ->
  Nqs.Lt_ (Sampler.wf_ s) = Nqs.table_spec wf (Sampler.state_ s).
Proof.
  intros (_ & _ & Hco) Hpar.
  rewrite (NqsFacts.coherent_table_spec _ _ Hco). unfold Nqs.table_spec.
  destruct Hpar as (HW & Ha & Hb & Hnh & Hnv). rewrite Hnh. apply map_ext.
  intros h. apply NqsFacts.theta_spec_same_parameters. repeat split; assumption.
Qed.

(** A completed [Run] is [sample] after [InitRandomState]. *)
Lemma Run_Done (s s' : sampler) nsweeps thermfactor sweepfactor nflipss fuel :
  Sampler.valid_parameters s nsweeps thermfactor nflipss ->
  Sampler.Run distu_ distn_ fuel s nsweeps thermfactor sweepfactor nflipss = Done s' ->
  exists s1,
    Sampler.InitRandomState distu_ distn_ fuel s true = Done s1 /\
    s' = Sampler.sample distu_ distn_ s1 nsweeps thermfactor sweepfactor
                        (Sampler.effective_flips s nflipss).
Proof.
  intros Hvalid. rewrite (Run_accepts distu_ distn_ s _ _ sweepfactor _ Hvalid).
  destruct (Sampler.InitRandomState distu_ distn_ fuel s true) as [s1|msg s1|];
    try discriminate.
  intros E. injection E as <-. exists s1. split; reflexivity.
Qed.

Lemma Run_consistent (s s' : sampler) nsweeps thermfactor sweepfactor nflipss fuel :
  Sampler.valid_parameters s nsweeps thermfactor nflipss ->
  Sampler.in_range distn_ (Sampler.nspins_ s) ->
  Sampler.nspins_ s = Nqs.nv_ (Sampler.wf_ s) ->
  Sampler.Run distu_ distn_ fuel s nsweeps thermfactor sweepfactor nflipss = Done s' ->
  Sampler.consistent s' /\
  Nqs.same_parameters (Sampler.wf_ s) (Sampler.wf_ s') /\
  Sampler.nspins_ s' = Sampler.nspins_ s /\
  (Sampler.effective_flips s nflipss = 2%Z ->
   Sampler.magnetization (Sampler.state_ s') = 0%Z) /\
  exists lines,
    Sampler.filestates_ s' = Sampler.filestates_ s ++ lines /\
    length lines = (if Sampler.writestates_ s then sweep_count nsweeps else 0%nat) /\
    Forall (fun line =>
              is_config (Sampler.nspins_ s) line /\
              (Sampler.effective_flips s nflipss = 2%Z ->
               Sampler.magnetization line = 0%Z))
           lines.
Proof.
  intros Hvalid Hrange Hnv Hrun.
  destruct (Run_Done s s' _ _ _ _ fuel Hvalid Hrun) as (s1 & Hinit & ->).
  destruct (InitRandomState_Done s s1 fuel Hrange Hinit)
    as ((En & _ & Ew & _) & Hwf & Hfs & Hcfg & Hm).
  assert (Hn : (Sampler.effective_flips s nflipss = 1
                \/ Sampler.effective_flips s nflipss = 2)%Z)
    by (destruct Hvalid as (Hf & _); lia).
  destruct (sample_consistent s1 nsweeps thermfactor sweepfactor
              (Sampler.effective_flips s nflipss) Hn)
    as (Hc & Hmag & (lines & Hf & Hl & Hall)).
  { now rewrite En. }
  { now rewrite En, Hwf. }
  { now rewrite En. }
  cbv zeta in Hc, Hmag, Hf.
  destruct (sample_frame distu_ distn_ s1 nsweeps thermfactor sweepfactor
              (Sampler.effective_flips s nflipss)) as (En' & _).
  cbv zeta in En'.
  split; [exact Hc|]. split.
  { rewrite <- Hwf. apply sample_parameters. }
  split; [congruence|]. split.
  - intros E. rewrite (Hmag E). exact Hm.
  - exists lines. split; [now rewrite Hf, Hfs|]. split; [now rewrite Hl, Ew|].
    eapply Forall_impl; [|exact Hall]. cbv beta. intros line [Hlc Hlm].
    split; [now rewrite <- En|]. intros E. rewrite (Hlm E). exact Hm.
Qed.

End SamplerInvariants.

Lemma Tiny_prepared_consistent : Sampler.consistent Small.prepared.
Proof.
  split; [reflexivity|]. split.
  - split; [reflexivity|]. unfold Small.prepared, Tiny.up_down. cbn [Sampler.state_ Sampler.set_wf Sampler.set_state].
    repeat (apply Forall_cons; [lia|]). apply Forall_nil.
  - apply NqsFacts.InitLt_coherent.
Qed.

(** X1.  On a configuration of [nspins_] spins, [RandSpin] with one or two
    flips changes nothing but the generator and [flips_]; it leaves
    [nflips] sites, all on the lattice;
    with two flips it answers true exactly when the two sites carry
    different spins ([mag0] set) or are different sites ([mag0] unset), and
    every proposal it answers true for names no site twice. *)
Theorem RandSpin_proposal {G H : Type} {ham : Hamiltonian H} (distn_ : G -> nat * G)
    (s : Sampler.t (G := G) (H := H)) (nflips : Z) (mag0 : bool) :
  (nflips = 1 \/ nflips = 2)%Z ->
  Sampler.in_range distn_ (Sampler.nspins_ s) ->
  length (Sampler.state_ s) = Sampler.nspins_ s ->
  exists g flips,
    snd (Sampler.RandSpin distn_ s nflips mag0)
    = Sampler.set_flips (Sampler.set_gen s g) flips /\
    length flips = Z.to_nat nflips /\
    Forall (fun f => (f < Sampler.nspins_ s)%nat) flips /\
    (fst (Sampler.RandSpin distn_ s nflips mag0) = true <->
     (nflips = 2%Z ->
      if mag0
      then spin_at (Sampler.state_ s) (nth 1 flips 0%nat)
           <> spin_at (Sampler.state_ s) (nth 0 flips 0%nat)
      else nth 1 flips 0%nat <> nth 0 flips 0%nat)) /\
    (fst (Sampler.RandSpin distn_ s nflips mag0) = true -> NoDup flips).
Proof.
  intros Hn Hrange _.
  destruct (RandSpin_spec distn_ s nflips mag0 Hn Hrange)
    as (g & flips & Hs & Hlen & Hall & Hok).
  exists g, flips. split; [exact Hs|]. split; [exact Hlen|]. split; [exact Hall|].
  split; [exact Hok|]. intros E.
  apply (proposal_NoDup (Sampler.state_ s) nflips mag0 flips Hn Hlen).
  now apply Hok.
Qed.

Lemma RandSpin_proposal_witness :
  exists g flips,
    snd (Sampler.RandSpin (Tiny.distn_ 2) Small.prepared 2 true)
    = Sampler.set_flips (Sampler.set_gen Small.prepared g) flips /\
    length flips = 2%nat /\
    Forall (fun f => (f < 2)%nat) flips /\
    (fst (Sampler.RandSpin (Tiny.distn_ 2) Small.prepared 2 true) = true <->
     (2%Z = 2%Z ->
      spin_at Tiny.up_down (nth 1 flips 0%nat) <> spin_at Tiny.up_down (nth 0 flips 0%nat))) /\
    (fst (Sampler.RandSpin (Tiny.distn_ 2) Small.prepared 2 true) = true -> NoDup flips).
Proof.
  apply (RandSpin_proposal (Tiny.distn_ 2) Small.prepared 2 true).
  - right. reflexivity.
  - exact Tiny_in_range_2.
  - reflexivity.
Defined.

(** X2.  One [Move] with one or two flips keeps the sampler Sampler.consistent:
    the configuration stays a configuration of [nspins_] spins of value 1
    or -1 and the look-up table stays the one of the configuration, whether
    the proposal is accepted or not; a two-flip [Move] also keeps the sum of
    the spins.  The weights, the biases and the sizes of the wave function
    are untouched, so that the table is the one the data model gives for
    the parameters before the move and the configuration after it. *)
Theorem Move_keeps_consistent {G H : Type} {ham : Hamiltonian H}
    (distu_ : G -> R * G) (distn_ : G -> nat * G)
    (s : Sampler.t (G := G) (H := H)) (nflips : Z) :
  (nflips = 1 \/ nflips = 2)%Z ->
  Sampler.in_range distn_ (Sampler.nspins_ s) ->
  Sampler.consistent s ->
  Sampler.consistent (Sampler.Move distu_ distn_ s nflips) /\
  (nflips = 2%Z ->
   Sampler.magnetization (Sampler.state_ (Sampler.Move distu_ distn_ s nflips))
   = Sampler.magnetization (Sampler.state_ s)) /\
  Nqs.same_parameters (Sampler.wf_ s)
                      (Sampler.wf_ (Sampler.Move distu_ distn_ s nflips)) /\
  Nqs.Lt_ (Sampler.wf_ (Sampler.Move distu_ distn_ s nflips))
  = Nqs.table_spec (Sampler.wf_ s)
                   (Sampler.state_ (Sampler.Move distu_ distn_ s nflips)).
Proof.
  intros Hn Hrange Hc.
  destruct (Move_consistent distu_ distn_ s nflips Hn Hrange Hc) as [Hc' Hm].
  pose proof (Move_parameters distu_ distn_ s nflips) as Hp.
  split; [exact Hc'|]. split; [exact Hm|]. split; [exact Hp|].
  now apply consistent_table.
Qed.

Lemma Move_keeps_consistent_witness :
  Sampler.consistent (Sampler.Move Tiny.distu_ (Tiny.distn_ 2) Small.prepared 2) /\
  (2%Z = 2%Z ->
   Sampler.magnetization
     (Sampler.state_ (Sampler.Move Tiny.distu_ (Tiny.distn_ 2) Small.prepared 2))
   = Sampler.magnetization (Sampler.state_ Small.prepared)) /\
  Nqs.same_parameters
    (Sampler.wf_ Small.prepared)
    (Sampler.wf_ (Sampler.Move Tiny.distu_ (Tiny.distn_ 2) Small.prepared 2)) /\
  Nqs.Lt_ (Sampler.wf_ (Sampler.Move Tiny.distu_ (Tiny.distn_ 2) Small.prepared 2))
  = Nqs.table_spec
      (Sampler.wf_ Small.prepared)
      (Sampler.state_ (Sampler.Move Tiny.distu_ (Tiny.distn_ 2) Small.prepared 2)).
Proof.
  apply (Move_keeps_consistent Tiny.distu_ (Tiny.distn_ 2) Small.prepared 2).
  - right. reflexivity.
  - exact Tiny_in_range_2.
  - exact Tiny_prepared_consistent.
Defined.

(** X3.  With an even number of spins and a fair generator
    [InitRandomState] returns, and what it leaves is a configuration of 1
    and -1 whose spins sum to zero; the wave function, the samples and the
    written configurations are as before. *)
Theorem InitRandomState_zero_magnetization {G H : Type} {ham : Hamiltonian H}
    (distu_ : G -> R * G) (distn_ : G -> nat * G)
    (s : Sampler.t (G := G) (H := H)) :
  Sampler.fair distn_ (Sampler.nspins_ s) ->
  Sampler.in_range distn_ (Sampler.nspins_ s) ->
  Nat.modulo (Sampler.nspins_ s) 2 = 0%nat ->
  exists fuel0 s1,
    (forall fuel, (fuel0 <= fuel)%nat ->
                  Sampler.InitRandomState distu_ distn_ fuel s true = Done s1) /\
    is_config (Sampler.nspins_ s) (Sampler.state_ s1) /\
    Sampler.magnetization (Sampler.state_ s1) = 0%Z /\
    Sampler.wf_ s1 = Sampler.wf_ s /\
    Sampler.energy_ s1 = Sampler.energy_ s /\
    Sampler.filestates_ s1 = Sampler.filestates_ s.
Proof.
  intros Hfair Hrange Heven.
  destruct (InitRandomState_even distu_ distn_ s Hfair Hrange Heven)
    as (fuel0 & s1 & _ & _ & Hinit).
  exists fuel0, s1. split; [exact Hinit|].
  destruct (InitRandomState_Done distu_ distn_ s s1 fuel0 Hrange (Hinit fuel0 (le_n _)))
    as ((_ & _ & _ & He) & Hwf & Hfs & Hcfg & Hm).
  repeat (split; [assumption|]). assumption.
Qed.

Lemma InitRandomState_zero_magnetization_witness :
  exists fuel0 s1,
    (forall fuel, (fuel0 <= fuel)%nat ->
                  Sampler.InitRandomState Tiny.distu_ (Tiny.distn_ 2) fuel Tiny.sampler true
                  = Done s1) /\
    is_config 2 (Sampler.state_ s1) /\
    Sampler.magnetization (Sampler.state_ s1) = 0%Z /\
    Sampler.wf_ s1 = Tiny.wf /\
    Sampler.energy_ s1 = [] /\
    Sampler.filestates_ s1 = [].
Proof.
  apply (InitRandomState_zero_magnetization Tiny.distu_ (Tiny.distn_ 2) Tiny.sampler).
  - exact Tiny_fair_2.
  - exact Tiny_in_range_2.
  - reflexivity.
Defined.

(** X4.  A [Run] with valid parameters on an even number of spins, from a
    sampler whose number of spins is the number of visible units of its
    wave function, returns with the sampler Sampler.consistent: the configuration
    is made of [nspins_] values 1 and -1, and the look-up table is the one
    of that configuration.  When the moves flip two spins the spins still
    sum to zero.  The weights, the biases and the sizes of the wave
    function are those [Run] started with, so that the table is the one the
    data model gives for them and the final configuration. *)
Theorem Run_leaves_consistent {G H : Type} {ham : Hamiltonian H}
    (distu_ : G -> R * G) (distn_ : G -> nat * G)
    (s : Sampler.t (G := G) (H := H))
    (nsweeps thermfactor : R) (sweepfactor nflipss : Z) :
  Sampler.valid_parameters s nsweeps thermfactor nflipss ->
  Nat.modulo (Sampler.nspins_ s) 2 = 0%nat ->
  Sampler.fair distn_ (Sampler.nspins_ s) ->
  Sampler.in_range distn_ (Sampler.nspins_ s) ->
  Sampler.nspins_ s = Nqs.nv_ (Sampler.wf_ s) ->
  exists fuel0 s',
    (forall fuel, (fuel0 <= fuel)%nat ->
       Sampler.Run distu_ distn_ fuel s nsweeps thermfactor sweepfactor nflipss = Done s') /\
    Sampler.consistent s' /\
    Sampler.nspins_ s' = Sampler.nspins_ s /\
    (Sampler.effective_flips s nflipss = 2%Z ->
     Sampler.magnetization (Sampler.state_ s') = 0%Z) /\
    Nqs.same_parameters (Sampler.wf_ s) (Sampler.wf_ s') /\
    Nqs.Lt_ (Sampler.wf_ s') = Nqs.table_spec (Sampler.wf_ s) (Sampler.state_ s').
Proof.
  intros Hvalid Heven Hfair Hrange Hnv.
  destruct (Run_completes distu_ distn_ s nsweeps thermfactor sweepfactor nflipss
              Hvalid Heven Hfair Hrange) as (fuel0 & s' & Hrun & _).
  exists fuel0, s'. split; [exact Hrun|].
  destruct (Run_consistent distu_ distn_ s s' _ _ _ _ fuel0 Hvalid Hrange Hnv
              (Hrun fuel0 (le_n _))) as (Hc & Hp & Hn & Hm & _).
  split; [exact Hc|]. split; [exact Hn|]. split; [exact Hm|]. split; [exact Hp|].
  now apply consistent_table.
Qed.

Lemma Run_leaves_consistent_witness :
  exists fuel0 s',
    (forall fuel, (fuel0 <= fuel)%nat ->
       Sampler.Run Tiny.distu_ (Tiny.distn_ 2) fuel Tiny.sampler 100 (1 / 10) 1 (-1)
       = Done s') /\
    Sampler.consistent s' /\
    Sampler.nspins_ s' = 2%nat /\
    (Sampler.effective_flips Tiny.sampler (-1) = 2%Z ->
     Sampler.magnetization (Sampler.state_ s') = 0%Z) /\
    Nqs.same_parameters Tiny.wf (Sampler.wf_ s') /\
    Nqs.Lt_ (Sampler.wf_ s') = Nqs.table_spec Tiny.wf (Sampler.state_ s').
Proof.
  apply (Run_leaves_consistent Tiny.distu_ (Tiny.distn_ 2) Tiny.sampler 100 (1 / 10) 1 (-1)).
  - exact Tiny_sampler_valid.
  - reflexivity.
  - exact Tiny_fair_2.
  - exact Tiny_in_range_2.
  - reflexivity.
Defined.

(** X5.  A [Run] that samples leaves an acceptance count between zero and
    the number of moves of the measuring loop, so that [Acceptance] is a
    ratio in [0, 1] as soon as one move was made. *)
Theorem Run_acceptance_ratio {G H : Type} {ham : Hamiltonian H}
    (distu_ : G -> R * G) (distn_ : G -> nat * G)
    (s : Sampler.t (G := G) (H := H))
    (nsweeps thermfactor : R) (sweepfactor nflipss : Z) :
  Sampler.valid_parameters s nsweeps thermfactor nflipss ->
  Nat.modulo (Sampler.nspins_ s) 2 = 0%nat ->
  Sampler.fair distn_ (Sampler.nspins_ s) ->
  Sampler.in_range distn_ (Sampler.nspins_ s) ->
  exists fuel0 s',
    (forall fuel, (fuel0 <= fuel)%nat ->
       Sampler.Run distu_ distn_ fuel s nsweeps thermfactor sweepfactor nflipss = Done s') /\
    (0 <= Sampler.accept_ s' <= Sampler.nmoves_ s')%R /\
    Sampler.nmoves_ s'
    = INR (sweep_count nsweeps * Sampler.moves_per_sweep s sweepfactor) /\
    ((0 < Sampler.nmoves_ s')%R -> (0 <= Sampler.Acceptance s' <= 1)%R).
Proof.
  intros Hvalid Heven Hfair Hrange.
  destruct (Run_completes distu_ distn_ s nsweeps thermfactor sweepfactor nflipss
              Hvalid Heven Hfair Hrange) as (fuel0 & s' & Hrun & _ & Hmoves).
  exists fuel0, s'. split; [exact Hrun|].
  destruct (Run_Done distu_ distn_ s s' _ _ _ _ fuel0 Hvalid (Hrun fuel0 (le_n _)))
    as (s1 & _ & Hs').
  pose proof (sample_counters distu_ distn_ s1 nsweeps thermfactor sweepfactor
                (Sampler.effective_flips s nflipss)) as Hcnt.
  cbv zeta in Hcnt. rewrite <- Hs' in Hcnt.
  split; [exact Hcnt|]. split; [exact Hmoves|].
  intros Hpos. unfold Sampler.Acceptance. split.
  - apply Rmult_le_pos; [lra|]. left. now apply Rinv_0_lt_compat.
  - apply (Rmult_le_reg_r (Sampler.nmoves_ s')); [exact Hpos|].
    unfold Rdiv. rewrite Rmult_assoc, Rinv_l by lra. lra.
Qed.

Lemma Run_acceptance_ratio_witness :
  exists fuel0 s',
    (forall fuel, (fuel0 <= fuel)%nat ->
       Sampler.Run Tiny.distu_ (Tiny.distn_ 2) fuel Tiny.sampler 100 (1 / 10) 1 (-1)
       = Done s') /\
    (0 <= Sampler.accept_ s' <= Sampler.nmoves_ s')%R /\
    Sampler.nmoves_ s'
    = INR (sweep_count 100 * Sampler.moves_per_sweep Tiny.sampler 1) /\
    ((0 < Sampler.nmoves_ s')%R -> (0 <= Sampler.Acceptance s' <= 1)%R).
Proof.
  apply (Run_acceptance_ratio Tiny.distu_ (Tiny.distn_ 2) Tiny.sampler 100 (1 / 10) 1 (-1)).
  - exact Tiny_sampler_valid.
  - reflexivity.
  - exact Tiny_fair_2.
  - exact Tiny_in_range_2.
Defined.

(** X6.  When [writestates_] is set a [Run] appends to the file of
    configurations one line for each turn of its measuring loop and none
    while it thermalizes; every line is a configuration of [nspins_] values
    1 and -1, of zero sum when the moves flip two spins.  When
    [writestates_] is unset nothing is written. *)
Theorem Run_writes_states {G H : Type} {ham : Hamiltonian H}
    (distu_ : G -> R * G) (distn_ : G -> nat * G)
    (s : Sampler.t (G := G) (H := H))
    (nsweeps thermfactor : R) (sweepfactor nflipss : Z) :
  Sampler.valid_parameters s nsweeps thermfactor nflipss ->
  Nat.modulo (Sampler.nspins_ s) 2 = 0%nat ->
  Sampler.fair distn_ (Sampler.nspins_ s) ->
  Sampler.in_range distn_ (Sampler.nspins_ s) ->
  Sampler.nspins_ s = Nqs.nv_ (Sampler.wf_ s) ->
  exists fuel0 s' lines,
    (forall fuel, (fuel0 <= fuel)%nat ->
       Sampler.Run distu_ distn_ fuel s nsweeps thermfactor sweepfactor nflipss = Done s') /\
    Sampler.filestates_ s' = Sampler.filestates_ s ++ lines /\
    length lines = (if Sampler.writestates_ s then sweep_count nsweeps else 0%nat) /\
    Forall (fun line =>
              is_config (Sampler.nspins_ s) line /\
              (Sampler.effective_flips s nflipss = 2%Z ->
               Sampler.magnetization line = 0%Z))
           lines.
Proof.
  intros Hvalid Heven Hfair Hrange Hnv.
  destruct (Run_completes distu_ distn_ s nsweeps thermfactor sweepfactor nflipss
              Hvalid Heven Hfair Hrange) as (fuel0 & s' & Hrun & _).
  destruct (Run_consistent distu_ distn_ s s' _ _ _ _ fuel0 Hvalid Hrange Hnv
              (Hrun fuel0 (le_n _))) as (_ & _ & _ & _ & lines & Hf & Hl & Hall).
  exists fuel0, s', lines. split; [exact Hrun|]. split; [exact Hf|]. split; assumption.
Qed.

Lemma Tiny_writing_valid :
  Sampler.valid_parameters Small.writing 100 (1 / 10) (-1).
Proof.
  unfold Sampler.valid_parameters, Sampler.effective_flips. cbn.
  unfold Heisenberg1d.MinFlips. split; [lia|split; lra].
Qed.

Lemma Run_writes_states_witness :
  exists fuel0 s' lines,
    (forall fuel, (fuel0 <= fuel)%nat ->
       Sampler.Run Tiny.distu_ (Tiny.distn_ 2) fuel Small.writing 100 (1 / 10) 1 (-1)
       = Done s') /\
    Sampler.filestates_ s' = [] ++ lines /\
    length lines = sweep_count 100 /\
    Forall (fun line =>
              is_config 2 line /\
              (Sampler.effective_flips Small.writing (-1) = 2%Z ->
               Sampler.magnetization line = 0%Z))
           lines.
Proof.
  apply (Run_writes_states Tiny.distu_ (Tiny.distn_ 2) Small.writing 100 (1 / 10) 1 (-1)).
  - exact Tiny_writing_valid.
  - reflexivity.
  - exact Tiny_fair_2.
  - exact Tiny_in_range_2.
  - reflexivity.
Defined.

(** ** What the Hamiltonians connect *)

Lemma vresize_nil {A} n (d : A) : vresize [] n d = repeat d n.
Proof. induction n as [|n IH]; cbn; [reflexivity|now rewrite IH]. Qed.

Lemma vset_middle {A} (l l' : list A) i y x :
  i = length l -> vset (l ++ y :: l') i x = l ++ x :: l'.
Proof. intros ->. induction l as [|h t IH]; cbn; [reflexivity|now rewrite IH]. Qed.

Module IsingFacts.

Lemma Init_tables nspins hfield pbc :
  let ham := Ising1d.Init nspins hfield pbc in
  Ising1d.nspins_ ham = nspins /\ Ising1d.pbc_ ham = pbc /\ Ising1d.hfield_ ham = hfield /\
  Ising1d.mel_ ham = Cplx.zero :: repeat (Cplx.of_real (- hfield)) nspins /\
  Ising1d.flipsh_ ham = [] :: map (fun i => [i]) (seq 0 nspins).
Proof.
  cbv zeta. unfold Ising1d.Init.
  assert (Hfold : forall m, (m <= nspins)%nat ->
            fold_left (fun '(mel, flipsh) i =>
                         (vset mel (i + 1) (Cplx.of_real (- hfield)),
                          vset flipsh (i + 1) [i]))
                      (seq 0 m)
                      (vresize [] (nspins + 1) Cplx.zero, vresize [] (nspins + 1) [])
            = (Cplx.zero :: repeat (Cplx.of_real (- hfield)) m
                 ++ repeat Cplx.zero (nspins - m),
               [] :: map (fun i => [i]) (seq 0 m) ++ repeat [] (nspins - m))).
  { rewrite !vresize_nil. replace (nspins + 1)%nat with (S nspins) by lia. cbn [repeat].
    induction m as [|m IH]; intros Hm.
    - cbn [seq fold_left repeat map app]. rewrite Nat.sub_0_r. reflexivity.
    - rewrite seq_S, fold_left_app, IH by lia. cbn [fold_left Nat.add].
      replace (m + 1)%nat with (S m) by lia. cbn [vset].
      replace (nspins - m)%nat with (S (nspins - S m)) by lia. cbn [repeat].
      f_equal.
      + f_equal. rewrite vset_middle by now rewrite repeat_length.
        rewrite repeat_cons, <- app_assoc. reflexivity.
      + f_equal. rewrite vset_middle by now rewrite length_map, length_seq.
        rewrite map_app, <- app_assoc. reflexivity. }
  rewrite (Hfold nspins (le_n _)). rewrite Nat.sub_diag. cbn [repeat].
  rewrite !app_nil_r. repeat split.
Qed.


(** The loop [mel[0] -= ...] touches the first element only. *)
Lemma fold_sub_head {A} (f : A -> R) l z (t : list C) :
  fold_left (fun mel i => vset mel 0 (nth 0 mel Cplx.zero - Cplx.of_real (f i))%C)
            l (z :: t)
  = (z - Cplx.of_real (Rsum (map f l)))%C :: t.
Proof.
  revert z. induction l as [|x l IH]; intros z; cbn [fold_left map].
  - rewrite EstimatorFacts.Rsum_nil. f_equal. apply CplxFacts.C_eq; simpl; lra.
  - cbn [vset nth]. rewrite IH, EstimatorFacts.Rsum_cons. f_equal.
    apply CplxFacts.C_eq; simpl; lra.
Qed.

Lemma FindConn_Init nspins hfield pbc state flipsh mel :
  Ising1d.FindConn (Ising1d.Init nspins hfield pbc) state flipsh mel
  = ([] :: map (fun i => [i]) (seq 0 nspins),
     Cplx.of_real (- Lattice.bond_sum state (Ising1d_bonds (Ising1d.Init nspins hfield pbc)))
     :: repeat (Cplx.of_real (- hfield)) nspins).
Proof.
  destruct (Init_tables nspins hfield pbc) as (Hn & Hp & _ & Hmel & Hfl). cbv zeta in *.
  unfold Ising1d.FindConn, Ising1d_bonds. rewrite Hn, Hp, Hmel, Hfl. cbn [vset].
  rewrite (fold_sub_head (fun i => IZR (spin_at state i * spin_at state (i + 1)))).
  unfold Lattice.bond_sum. rewrite map_app, EstimatorFacts.Rsum_app, map_map. cbn [fst snd].
  f_equal. destruct pbc; cbn [vset nth map].
  - f_equal. rewrite EstimatorFacts.Rsum_cons, EstimatorFacts.Rsum_nil. cbn [fst snd].
    apply CplxFacts.C_eq; simpl; lra.
  - f_equal. rewrite EstimatorFacts.Rsum_nil. apply CplxFacts.C_eq; simpl; lra.
Qed.

End IsingFacts.

(** X7.  Whatever the caller's two vectors hold, [FindConn] of the Ising
    chain on a configuration of its spins returns [nspins_ + 1] connections: the configuration itself, with
    the element minus the sum of [state[i] * state[j]] over the bonds of
    the chain, then for each site the flip of that site alone with the
    element [-hfield_]. *)
Theorem Ising1d_FindConn_connections (nspins : nat) (hfield : R) (pbc : bool)
    (state : list Z) (flipsh : list (list nat)) (mel : list C) :
  (0 < nspins)%nat -> length state = nspins ->
  Ising1d.FindConn (Ising1d.Init nspins hfield pbc) state flipsh mel
  = ([] :: map (fun i => [i]) (seq 0 nspins),
     Cplx.of_real (- Lattice.bond_sum state (Ising1d_bonds (Ising1d.Init nspins hfield pbc)))
     :: repeat (Cplx.of_real (- hfield)) nspins).
Proof. intros _ _. apply IsingFacts.FindConn_Init. Qed.

Lemma Ising1d_FindConn_connections_witness :
  Ising1d.FindConn (Ising1d.Init 2 1 true) Tiny.up_down [] []
  = ([] :: map (fun i => [i]) (seq 0 2),
     Cplx.of_real (- Lattice.bond_sum Tiny.up_down (Ising1d_bonds (Ising1d.Init 2 1 true)))
     :: repeat (Cplx.of_real (- 1)) 2).
Proof.
  apply (Ising1d_FindConn_connections 2 1 true Tiny.up_down [] []); [lia|reflexivity].
Defined.


Module ConnFacts.

(** The loops that push a flip for every bond that passes a test. *)
Lemma fold_push_filter {I} (test : I -> bool) (m : C) (fl : I -> list nat) l
    (mel : list C) (flipsh : list (list nat)) :
  fold_left (fun '(mel, flipsh) i =>
               if test i then (mel, flipsh) else (mel ++ [m], flipsh ++ [fl i]))
            l (mel, flipsh)
  = (mel ++ map (fun _ => m) (filter (fun i => negb (test i)) l),
     flipsh ++ map fl (filter (fun i => negb (test i)) l)).
Proof.
  revert mel flipsh. induction l as [|i l IH]; intros mel flipsh; cbn [fold_left filter map].
  - now rewrite !app_nil_r.
  - destruct (test i); cbn [negb]; rewrite IH; [reflexivity|].
    cbn [map]. now rewrite <- !app_assoc.
Qed.

Lemma filter_map_comm {A B} (f : B -> bool) (g : A -> B) l :
  filter f (map g l) = map g (filter (fun x => f (g x)) l).
Proof.
  induction l as [|x l IH]; cbn [map filter]; [reflexivity|].
  destruct (f (g x)); cbn [map]; now rewrite IH.
Qed.

Lemma vresize_head {A} (l : list A) d : vresize l 1 d = [nth 0 l d].
Proof. destruct l; reflexivity. Qed.

Lemma Heisenberg1d_FindConn_lists ham state flipsh mel :
  Heisenberg1d.FindConn ham state flipsh mel
  = (nth 0 flipsh [] :: map pair_flip (filter (antiparallel state) (Heisenberg1d.bonds ham)),
     Heisenberg1d.diagonal ham state
     :: map (fun _ => Cplx.of_real (-2)) (filter (antiparallel state) (Heisenberg1d.bonds ham))).
Proof.
  unfold Heisenberg1d.FindConn, Heisenberg1d.bonds.
  rewrite !vresize_head. cbn [vset].
  rewrite (fold_push_filter
             (fun i => (spin_at state i =? spin_at state (i + 1))%Z)
             (Cplx.of_real (-2)) (fun i => [i; (i + 1)%nat])).
  rewrite !filter_app, !map_app, !filter_map_comm, !map_map.
  unfold antiparallel, pair_flip. cbn [fst snd app].
  destruct (Heisenberg1d.pbc_ ham); cbn [filter fst snd].
  - destruct (spin_at state (Heisenberg1d.nspins_ ham - 1) =? spin_at state 0)%Z;
      cbn [negb map]; rewrite ?app_nil_r; reflexivity.
  - cbn [map]. rewrite !app_nil_r. reflexivity.
Qed.

Lemma fold_left_nth_seq {A B} (f : A -> B -> A) (l : list B) d a :
  fold_left (fun acc i => f acc (nth i l d)) (seq 0 (length l)) a = fold_left f l a.
Proof.
  rewrite <- (SquareBonds.map_nth_seq l d) at 2.
  generalize (seq 0 (length l)). intros idx. revert a.
  induction idx as [|i idx IH]; intros a; cbn [map fold_left]; [reflexivity|apply IH].
Qed.

Lemma Heisenberg2d_FindConn_lists ham state flipsh mel :
  Heisenberg2d.FindConn ham state flipsh mel
  = (nth 0 flipsh []
     :: map pair_flip (filter (antiparallel state)
                              (map Lattice.to_sites (Heisenberg2d.bonds_ ham))),
     Heisenberg2d.diagonal ham state
     :: map (fun _ => Cplx.of_real (-2))
            (filter (antiparallel state)
                    (map Lattice.to_sites (Heisenberg2d.bonds_ ham)))).
Proof.
  unfold Heisenberg2d.FindConn.
  rewrite !vresize_head. cbn [vset]. cbv zeta.
  set (F := fun (acc : list C * list (list nat)) (b : Z * Z) =>
              let '(mel, flipsh) := acc in
              if (Heisenberg2d.spin_atZ state (fst b) =? Heisenberg2d.spin_atZ state (snd b))%Z
              then (mel, flipsh)
              else (mel ++ [Cplx.of_real (-2)],
                    flipsh ++ [[Z.to_nat (fst b); Z.to_nat (snd b)]])).
  rewrite (fold_left_ext_in _
             (fun acc i => F acc (nth i (Heisenberg2d.bonds_ ham) (0%Z, 0%Z))))
    by (intros i [m f] _; reflexivity).
  rewrite (fold_left_nth_seq F).
  rewrite (fold_left_ext_in F
             (fun '(mel, flipsh) b =>
                if (Heisenberg2d.spin_atZ state (fst b) =? Heisenberg2d.spin_atZ state (snd b))%Z
                then (mel, flipsh)
                else (mel ++ [Cplx.of_real (-2)],
                      flipsh ++ [[Z.to_nat (fst b); Z.to_nat (snd b)]])))
    by (intros i [m f] _; reflexivity).
  rewrite (fold_push_filter
             (fun b : Z * Z =>
                (Heisenberg2d.spin_atZ state (fst b) =? Heisenberg2d.spin_atZ state (snd b))%Z)
             (Cplx.of_real (-2)) (fun b => [Z.to_nat (fst b); Z.to_nat (snd b)])).
  rewrite !filter_map_comm, !map_map. reflexivity.
Qed.

End ConnFacts.

Module SquareLattice.

Import Heisenberg2d Lattice SquareFacts.
Open Scope Z_scope.

(** The constructor succeeds exactly on the squares. *)
Lemma make_square N jz pbc :
  0 <= N ->
  ((exists l, 0 <= l /\ l * l = N) -> exists ham, make N jz pbc = Done ham) /\
  (~ (exists l, 0 <= l /\ l * l = N) ->
   make N jz pbc
   = Aborted "# Error , the number of spins is not compabitle with a square lattice "
             (mk N (Z.sqrt N) pbc jz [] [])).
Proof.
  intros HN. unfold make, InitLattice. cbn [l_ nspins_ pbc_ jz_].
  split.
  - intros (l & Hl & <-). rewrite Z.sqrt_square by exact Hl.
    rewrite Z.eqb_refl. cbn [negb]. eexists. reflexivity.
  - intros Hno. destruct (Z.eqb_spec (Z.sqrt N * Z.sqrt N) N) as [E|E]; cbn [negb].
    + exfalso. apply Hno. exists (Z.sqrt N). split; [apply Z.sqrt_nonneg|exact E].
    + reflexivity.
Qed.

(** Both ends of every bond are sites of the lattice, the lower one
    first. *)
Lemma bonds_on_lattice N jz pbc ham i j :
  make N jz pbc = Done ham -> In (i, j) (bonds_ ham) -> 0 <= i < j /\ j < N.
Proof.
  intros Hmake Hin.
  destruct (make_Done N jz pbc ham Hmake) as (Hl & Hsq & _ & _ & _ & _ & Hb).
  cbv zeta in *. rewrite Hb in Hin. clear Hb.
  apply flat_map_pairs_In in Hin. destruct Hin as [Hi Hj].
  apply sites_In in Hi. apply filter_In in Hj. destruct Hj as [Hj Hlt].
  apply Z.ltb_lt in Hlt.
  set (l := Z.sqrt N) in *.
  assert (Hlpos : 0 < l) by nia.
  rewrite <- Hsq in Hi, Hj.
  destruct (site_coords l i Hlpos Hi) as (r & c & Hr & Hc & Ei & _).
  rewrite Ei in Hj, Hlt.
  pose proof (SquareBonds.neighbour_above_site l pbc r c j Hr Hc Hj Hlt) as Hjr.
  rewrite <- Hsq. subst i. lia.
Qed.


(** Every entry of the table of neighbours is a site, or the mark -1 of
    a missing neighbour on an open lattice. *)
Lemma neighbours_entries l pbc i :
  0 < l -> 0 <= i < l * l ->
  Forall (fun j => (pbc = false /\ j = -1) \/ 0 <= j < l * l)
         (neighbours (l * l) l pbc i).
Proof.
  intros Hl Hi. destruct (site_coords l i Hl Hi) as (r & c & Hr & Hc & -> & _).
  assert (Hsite : forall r' c', 0 <= r' < l -> 0 <= c' < l -> 0 <= site l r' c' < l * l).
  { intros r' c' Hr' Hc'. split; [apply site_nonneg; lia|now apply site_below]. }
  destruct pbc.
  - rewrite neighbours_pbc by assumption.
    repeat (apply Forall_cons; [right; apply Hsite;
                                repeat match goal with
                                       | |- context [if ?b then _ else _] =>
                                           destruct b eqn:?
                                       end;
                                rewrite ?Z.eqb_eq, ?Z.eqb_neq in *; lia|]).
    apply Forall_nil.
  - rewrite neighbours_open by assumption.
    repeat (apply Forall_cons;
            [match goal with
             | |- context [if ?b then _ else _] => destruct b eqn:?
             end;
             [left; split; reflexivity
             |right; apply Hsite; rewrite ?Z.eqb_eq, ?Z.eqb_neq in *; lia]|]).
    apply Forall_nil.
Qed.

Lemma make_nn N jz pbc ham :
  make N jz pbc = Done ham ->
  nn_ ham = map (neighbours N (Z.sqrt N) pbc) (sites N).
Proof.
  unfold make, InitLattice. cbn [l_ nspins_ pbc_ jz_].
  destruct (negb _); [discriminate|]. intros E. injection E as <-. reflexivity.
Qed.

Lemma nn_well_formed N jz pbc ham :
  make N jz pbc = Done ham ->
  length (nn_ ham) = Z.to_nat N /\
  Forall (fun row =>
            length row = 4%nat /\
            Forall (fun j => (pbc = false /\ j = -1) \/ 0 <= j < N) row)
         (nn_ ham).
Proof.
  intros Hmake. rewrite (make_nn N jz pbc ham Hmake).
  destruct (make_Done N jz pbc ham Hmake) as (Hl & Hsq & _).
  cbv zeta in *. split.
  - unfold sites. now rewrite !length_map, length_seq.
  - apply Forall_forall. intros row Hrow. apply in_map_iff in Hrow.
    destruct Hrow as (i & <- & Hi). apply sites_In in Hi.
    split; [reflexivity|].
    set (l := Z.sqrt N) in *. assert (Hlpos : 0 < l) by nia.
    rewrite <- Hsq. apply neighbours_entries; [exact Hlpos|now rewrite Hsq].
Qed.

End SquareLattice.

Module ConserveFacts.

(** Flipping the two ends of a bond with different spins. *)
Lemma antiparallel_flip n state p :
  is_config n state -> (fst p < n)%nat -> (snd p < n)%nat ->
  antiparallel state p = true ->
  flip_set n (pair_flip p) /\
  is_config n (flip_sites state (pair_flip p)) /\
  Sampler.magnetization (flip_sites state (pair_flip p)) = Sampler.magnetization state.
Proof.
  intros Hcfg Hi Hj Hanti. destruct p as [i j]. cbn [fst snd] in *.
  unfold antiparallel in Hanti. cbn [fst snd] in Hanti.
  apply negb_true_iff in Hanti. apply Z.eqb_neq in Hanti.
  unfold pair_flip. cbn [fst snd].
  assert (Hall : Forall (fun f => (f < n)%nat) [i; j]) by (repeat constructor; assumption).
  split; [|split].
  - split; [|exact Hall]. repeat constructor; [|intros []].
    intros [E|[]]. subst j. now apply Hanti.
  - now apply flip_sites_config.
  - apply (flip_pair_magnetization n); try assumption.
    intros E. apply Hanti. now symmetry.
Qed.

Lemma chain_bond_sites ham state p :
  is_config (Heisenberg1d.nspins_ ham) state ->
  In p (Heisenberg1d.bonds ham) -> antiparallel state p = true ->
  (fst p < Heisenberg1d.nspins_ ham)%nat /\ (snd p < Heisenberg1d.nspins_ ham)%nat.
Proof.
  intros Hcfg Hin Hanti. unfold Heisenberg1d.bonds in Hin.
  apply in_app_or in Hin. destruct Hin as [Hin|Hin].
  - apply in_map_iff in Hin. destruct Hin as (i & <- & Hi). apply in_seq in Hi.
    cbn [fst snd]. lia.
  - destruct (Heisenberg1d.pbc_ ham); [|destruct Hin].
    destruct Hin as [<-|[]]. cbn [fst snd].
    destruct (Heisenberg1d.nspins_ ham) as [|n]; [|lia].
    unfold antiparallel in Hanti. cbn [fst snd Nat.sub] in Hanti.
    rewrite Z.eqb_refl in Hanti. discriminate.
Qed.

End ConserveFacts.

(** X8.  On a configuration of its spins, [FindConn] of the Heisenberg
    chain returns the diagonal element
    followed by one element -2 for each bond of the chain whose two spins
    differ, in the order of the bonds, and beside each the flip of the two
    sites of that bond; the first flip list is the one the caller's vector
    held.  The two vectors come back equally long. *)
Theorem Heisenberg1d_FindConn_connections (ham : Heisenberg1d.t) (state : list Z)
    (flipsh : list (list nat)) (mel : list C) :
  (0 < Heisenberg1d.nspins_ ham)%nat -> length state = Heisenberg1d.nspins_ ham ->
  Heisenberg1d.FindConn ham state flipsh mel
  = (nth 0 flipsh [] :: map pair_flip (filter (antiparallel state) (Heisenberg1d.bonds ham)),
     Heisenberg1d.diagonal ham state
     :: map (fun _ => Cplx.of_real (-2)) (filter (antiparallel state) (Heisenberg1d.bonds ham)))
  /\ length (fst (Heisenberg1d.FindConn ham state flipsh mel))
     = length (snd (Heisenberg1d.FindConn ham state flipsh mel)).
Proof.
  intros _ _.
  rewrite ConnFacts.Heisenberg1d_FindConn_lists. split; [reflexivity|].
  cbn [fst snd length]. now rewrite !length_map.
Qed.

Lemma Heisenberg1d_FindConn_connections_witness :
  Heisenberg1d.FindConn Tiny.chain Tiny.up_down [] []
  = (nth 0 [] [] :: map pair_flip (filter (antiparallel Tiny.up_down)
                                          (Heisenberg1d.bonds Tiny.chain)),
     Heisenberg1d.diagonal Tiny.chain Tiny.up_down
     :: map (fun _ => Cplx.of_real (-2))
            (filter (antiparallel Tiny.up_down) (Heisenberg1d.bonds Tiny.chain)))
  /\ length (fst (Heisenberg1d.FindConn Tiny.chain Tiny.up_down [] []))
     = length (snd (Heisenberg1d.FindConn Tiny.chain Tiny.up_down [] [])).
Proof.
  apply (Heisenberg1d_FindConn_connections Tiny.chain Tiny.up_down [] []);
    [unfold Tiny.chain; cbn [Heisenberg1d.nspins_]; lia|reflexivity].
Defined.

(** X9.  On a configuration of its spins, [FindConn] of the Heisenberg
    model on the square lattice the constructor builds returns
    the diagonal element followed by one element -2 for each entry of
    [bonds_] whose two spins differ, in the order of [bonds_], and beside
    each the flip of the two sites of that bond.  The two vectors come back
    equally long. *)
Theorem Heisenberg2d_FindConn_connections (N : Z) (jz : R) (pbc : bool)
    (ham : Heisenberg2d.t) (state : list Z)
    (flipsh : list (list nat)) (mel : list C) :
  Heisenberg2d.make N jz pbc = Done ham -> length state = Z.to_nat N ->
  Heisenberg2d.FindConn ham state flipsh mel
  = (nth 0 flipsh []
     :: map pair_flip (filter (antiparallel state)
                              (map Lattice.to_sites (Heisenberg2d.bonds_ ham))),
     Heisenberg2d.diagonal ham state
     :: map (fun _ => Cplx.of_real (-2))
            (filter (antiparallel state)
                    (map Lattice.to_sites (Heisenberg2d.bonds_ ham))))
  /\ length (fst (Heisenberg2d.FindConn ham state flipsh mel))
     = length (snd (Heisenberg2d.FindConn ham state flipsh mel)).
Proof.
  intros _ _.
  rewrite ConnFacts.Heisenberg2d_FindConn_lists. split; [reflexivity|].
  cbn [fst snd length]. now rewrite !length_map.
Qed.

Lemma Heisenberg2d_FindConn_connections_witness :
  exists ham,
    Heisenberg2d.make 4 1 true = Done ham /\
    Heisenberg2d.FindConn ham [1; -1; -1; 1]%Z [] []
    = (nth 0 [] []
       :: map pair_flip (filter (antiparallel [1; -1; -1; 1]%Z)
                                (map Lattice.to_sites (Heisenberg2d.bonds_ ham))),
       Heisenberg2d.diagonal ham [1; -1; -1; 1]%Z
       :: map (fun _ => Cplx.of_real (-2))
              (filter (antiparallel [1; -1; -1; 1]%Z)
                      (map Lattice.to_sites (Heisenberg2d.bonds_ ham))))
    /\ length (fst (Heisenberg2d.FindConn ham [1; -1; -1; 1]%Z [] []))
       = length (snd (Heisenberg2d.FindConn ham [1; -1; -1; 1]%Z [] [])).
Proof.
  eexists. split; [reflexivity|].
  apply (Heisenberg2d_FindConn_connections 4 1 true _ [1; -1; -1; 1]%Z [] []); reflexivity.
Defined.

(** X10.  On a configuration of the chain every off-diagonal connection
    [FindConn] lists flips two different sites of the chain, and the
    configuration it leads to is again a configuration with the same sum of
    spins: the Hamiltonian connects states of equal magnetization only. *)
Theorem Heisenberg1d_connections_conserve_magnetization (ham : Heisenberg1d.t)
    (state : list Z) (flipsh : list (list nat)) (mel : list C) :
  (0 < Heisenberg1d.nspins_ ham)%nat ->
  is_config (Heisenberg1d.nspins_ ham) state ->
  Forall (fun flips =>
            flip_set (Heisenberg1d.nspins_ ham) flips /\
            is_config (Heisenberg1d.nspins_ ham) (flip_sites state flips) /\
            Sampler.magnetization (flip_sites state flips) = Sampler.magnetization state)
         (tl (fst (Heisenberg1d.FindConn ham state flipsh mel))).
Proof.
  intros _ Hcfg. rewrite ConnFacts.Heisenberg1d_FindConn_lists. cbn [fst tl].
  apply Forall_forall. intros flips Hin. apply in_map_iff in Hin.
  destruct Hin as (p & <- & Hp). apply filter_In in Hp. destruct Hp as [Hp Hanti].
  destruct (ConserveFacts.chain_bond_sites ham state p Hcfg Hp Hanti) as [Hi Hj].
  now apply ConserveFacts.antiparallel_flip.
Qed.

Lemma Heisenberg1d_connections_conserve_magnetization_witness :
  Forall (fun flips =>
            flip_set 2 flips /\
            is_config 2 (flip_sites Tiny.up_down flips) /\
            Sampler.magnetization (flip_sites Tiny.up_down flips)
            = Sampler.magnetization Tiny.up_down)
         (tl (fst (Heisenberg1d.FindConn Tiny.chain Tiny.up_down [] []))).
Proof.
  apply (Heisenberg1d_connections_conserve_magnetization Tiny.chain Tiny.up_down [] []).
  - unfold Tiny.chain. cbn [Heisenberg1d.nspins_]. lia.
  - split; [reflexivity|]. unfold Tiny.up_down.
    repeat (apply Forall_cons; [lia|]). apply Forall_nil.
Defined.

(** X11.  The same on the square lattice, for the Hamiltonian the
    constructor builds. *)
Theorem Heisenberg2d_connections_conserve_magnetization (N : Z) (jz : R) (pbc : bool)
    (ham : Heisenberg2d.t) (state : list Z) (flipsh : list (list nat)) (mel : list C) :
  Heisenberg2d.make N jz pbc = Done ham ->
  is_config (Z.to_nat N) state ->
  Forall (fun flips =>
            flip_set (Z.to_nat N) flips /\
            is_config (Z.to_nat N) (flip_sites state flips) /\
            Sampler.magnetization (flip_sites state flips) = Sampler.magnetization state)
         (tl (fst (Heisenberg2d.FindConn ham state flipsh mel))).
Proof.
  intros Hmake Hcfg. rewrite ConnFacts.Heisenberg2d_FindConn_lists. cbn [fst tl].
  apply Forall_forall. intros flips Hin. apply in_map_iff in Hin.
  destruct Hin as (p & <- & Hp). apply filter_In in Hp. destruct Hp as [Hp Hanti].
  apply in_map_iff in Hp. destruct Hp as ([i j] & <- & Hb).
  destruct (SquareLattice.bonds_on_lattice N jz pbc ham i j Hmake Hb) as [Hi Hj].
  apply ConserveFacts.antiparallel_flip; try assumption;
    unfold Lattice.to_sites; cbn [fst snd]; lia.
Qed.

Lemma Heisenberg2d_connections_conserve_magnetization_witness :
  exists ham,
    Heisenberg2d.make 4 1 true = Done ham /\
    Forall (fun flips =>
              flip_set 4 flips /\
              is_config 4 (flip_sites [1; -1; -1; 1]%Z flips) /\
              Sampler.magnetization (flip_sites [1; -1; -1; 1]%Z flips)
              = Sampler.magnetization [1; -1; -1; 1]%Z)
           (tl (fst (Heisenberg2d.FindConn ham [1; -1; -1; 1]%Z [] []))).
Proof.
  eexists. split; [reflexivity|].
  apply (Heisenberg2d_connections_conserve_magnetization 4 1 true _ [1; -1; -1; 1]%Z [] []).
  - reflexivity.
  - split; [reflexivity|]. repeat (apply Forall_cons; [lia|]). apply Forall_nil.
Defined.

(** X12.  The lattice the constructor of [Heisenberg2d] builds: the table
    of neighbours has one row of four entries for each site, every entry a
    site of the lattice or, on an open lattice only, the mark -1; and every
    bond joins two sites of the lattice, the lower first, so that
    [FindConn] never reads the configuration at the mark. *)
Theorem Heisenberg2d_lattice_well_formed (N : Z) (jz : R) (pbc : bool)
    (ham : Heisenberg2d.t) :
  Heisenberg2d.make N jz pbc = Done ham ->
  length (Heisenberg2d.nn_ ham) = Z.to_nat N /\
  Forall (fun row =>
            length row = 4%nat /\
            Forall (fun j => (pbc = false /\ j = -1) \/ 0 <= j < N)%Z row)
         (Heisenberg2d.nn_ ham) /\
  Forall (fun b => 0 <= fst b < snd b /\ snd b < N)%Z (Heisenberg2d.bonds_ ham).
Proof.
  intros Hmake.
  destruct (SquareLattice.nn_well_formed N jz pbc ham Hmake) as [Hlen Hrows].
  split; [exact Hlen|]. split; [exact Hrows|].
  apply Forall_forall. intros [i j] Hb. cbn [fst snd].
  exact (SquareLattice.bonds_on_lattice N jz pbc ham i j Hmake Hb).
Qed.

Lemma Heisenberg2d_lattice_well_formed_witness :
  exists ham,
    Heisenberg2d.make 9 1 false = Done ham /\
    length (Heisenberg2d.nn_ ham) = 9%nat /\
    Forall (fun row =>
              length row = 4%nat /\
              Forall (fun j => (false = false /\ j = -1) \/ 0 <= j < 9)%Z row)
           (Heisenberg2d.nn_ ham) /\
    Forall (fun b => 0 <= fst b < snd b /\ snd b < 9)%Z (Heisenberg2d.bonds_ ham).
Proof.
  eexists. split; [reflexivity|].
  apply (Heisenberg2d_lattice_well_formed 9 1 false). reflexivity.
Defined.

(** X13.  For a number of spins that is not negative the constructor of
    [Heisenberg2d] builds the lattice when that number is a square and
    aborts with its message when it is not. *)
Theorem Heisenberg2d_make_square (N : Z) (jz : R) (pbc : bool) :
  (0 <= N)%Z ->
  ((exists l, 0 <= l /\ l * l = N)%Z -> exists ham, Heisenberg2d.make N jz pbc = Done ham) /\
  (~ (exists l, 0 <= l /\ l * l = N)%Z ->
   Heisenberg2d.make N jz pbc
   = Aborted "# Error , the number of spins is not compabitle with a square lattice "
             (Heisenberg2d.mk N (Z.sqrt N) pbc jz [] [])).
Proof. apply SquareLattice.make_square. Qed.

Lemma Heisenberg2d_make_square_witness :
  (exists ham, Heisenberg2d.make 16 1 true = Done ham) /\
  Heisenberg2d.make 8 1 true
  = Aborted "# Error , the number of spins is not compabitle with a square lattice "
            (Heisenberg2d.mk 8 (Z.sqrt 8) true 1 [] []).
Proof.
  split.
  - apply (Heisenberg2d_make_square 16 1 true); [lia|]. exists 4%Z. split; [lia|reflexivity].
  - apply (Heisenberg2d_make_square 8 1 true); [lia|].
    intros (l & Hl & E). assert (l < 3)%Z by nia. assert (2 < l)%Z by nia. lia.
Defined.

(** ** The accuracy of [lncosh] *)

Module LncoshBound.

Import Nqs.
Open Scope R_scope.

Lemma ln_cosh_split x :
  0 <= x -> ln (cosh x) = x - ln 2 + ln (1 + exp (- (2 * x))).
Proof.
  intros Hx. unfold cosh.
  replace (exp (- x)) with (exp x * exp (- (2 * x)))
    by (rewrite <- exp_plus; f_equal; lra).
  replace ((exp x + exp x * exp (- (2 * x))) / 2)
    with (exp x * ((1 + exp (- (2 * x))) * / 2)) by (unfold Rdiv; ring).
  pose proof (exp_pos x). pose proof (exp_pos (- (2 * x))).
  rewrite ln_mult; [|lra|nra].
  rewrite ln_mult; [|lra|lra].
  rewrite ln_Rinv, ln_exp by lra. ring.
Qed.

Lemma cosh_Rabs x : cosh (Rabs x) = cosh x.
Proof.
  unfold Rabs. destruct (Rcase_abs x); [|reflexivity].
  unfold cosh. rewrite Ropp_involutive. lra.
Qed.

Lemma ln_1_plus_lt t : 0 < t -> ln (1 + t) < t.
Proof.
  intros Ht. pose proof (exp_ineq1 t ltac:(lra)) as He.
  rewrite <- (ln_exp t) at 2. apply ln_increasing; lra.
Qed.

Lemma lncosh_even x : lncosh (- x) = lncosh x.
Proof. unfold lncosh. now rewrite Rabs_Ropp. Qed.

Lemma lncosh_exact x : Rabs x <= 12 -> lncosh x = ln (cosh x).
Proof.
  intros Hx. unfold lncosh. destruct (Rle_dec (Rabs x) 12); [|lra].
  now rewrite cosh_Rabs.
Qed.

Lemma lncosh_error x :
  12 < Rabs x -> ln (cosh x) - lncosh x = ln (1 + exp (- (2 * Rabs x))).
Proof.
  intros Hx. unfold lncosh, log2_. destruct (Rle_dec (Rabs x) 12); [lra|].
  rewrite <- (cosh_Rabs x), ln_cosh_split by lra. ring.
Qed.

Lemma lncosh_error_bound x :
  0 <= ln (cosh x) - lncosh x < exp (-24).
Proof.
  destruct (Rle_dec (Rabs x) 12) as [Hle|Hgt].
  - rewrite lncosh_exact by exact Hle. pose proof (exp_pos (-24)). lra.
  - rewrite lncosh_error by lra.
    pose proof (exp_pos (- (2 * Rabs x))) as Hp.
    assert (Hlt : exp (- (2 * Rabs x)) < exp (-24)) by (apply exp_increasing; lra).
    split.
    + rewrite <- ln_1. left. apply ln_increasing; lra.
    + pose proof (ln_1_plus_lt _ Hp). lra.
Qed.

Lemma lncosh_nonneg x : 0 <= lncosh x.
Proof.
  unfold lncosh, log2_. destruct (Rle_dec (Rabs x) 12).
  - rewrite <- ln_1. destruct (Req_dec (Rabs x) 0) as [E|E].
    + rewrite E, cosh_0. lra.
    + left. apply ln_increasing; [lra|]. rewrite <- cosh_0.
      apply LncoshFacts.cosh_increasing; [lra|]. pose proof (Rabs_pos x). lra.
  - assert (ln 2 < 2) by (pose proof (ln_1_plus_lt 1 ltac:(lra)) as Hl;
                          replace (1 + 1) with 2 in Hl by lra; lra).
    lra.
Qed.

(** The complex [lncosh] on the real axis is the real one. *)
Lemma lncoshC_real x : lncoshC (Cplx.of_real x) = Cplx.of_real (lncosh x).
Proof.
  unfold lncoshC, Cplx.of_real. cbn [Cplx.re Cplx.im].
  rewrite sin_0, cos_0, Rmult_0_r.
  unfold Cplx.clog, Cplx.norm, Cplx.atan2. cbn [Cplx.re Cplx.im].
  destruct (Rlt_dec 0 1); [|lra].
  replace (1 * 1 + 0 * 0) with 1 by ring. rewrite sqrt_1, ln_1.
  replace (0 / 1) with 0 by (unfold Rdiv; ring). rewrite atan_0.
  apply CplxFacts.C_eq; simpl; lra.
Qed.

End LncoshBound.

(** X14.  The real [lncosh] is even and never negative; it is the
    logarithm of the hyperbolic cosine exactly for arguments of modulus up
    to 12, and beyond it falls short of it by ln(1 + exp(-2|x|)), so
    everywhere by less than exp(-24). *)
Theorem lncosh_approximates_ln_cosh (x : R) :
  Nqs.lncosh (- x) = Nqs.lncosh x /\
  (0 <= Nqs.lncosh x)%R /\
  ((Rabs x <= 12)%R -> Nqs.lncosh x = ln (cosh x)) /\
  ((12 < Rabs x)%R ->
   (ln (cosh x) - Nqs.lncosh x = ln (1 + exp (- (2 * Rabs x))))%R) /\
  (0 <= ln (cosh x) - Nqs.lncosh x < exp (-24))%R.
Proof.
  split; [apply LncoshBound.lncosh_even|].
  split; [apply LncoshBound.lncosh_nonneg|].
  split; [apply LncoshBound.lncosh_exact|].
  split; [apply LncoshBound.lncosh_error|apply LncoshBound.lncosh_error_bound].
Qed.

(** ** The complex [lncosh] *)

Module ClogFacts.

Open Scope R_scope.

Lemma sqrt_quotient n x :
  0 < x -> 0 < n -> sqrt (n / (x * x)) = sqrt n / x.
Proof.
  intros Hx Hn. apply sqrt_lem_1.
  - apply Rlt_le. apply Rdiv_lt_0_compat; nra.
  - apply Rlt_le. apply Rdiv_lt_0_compat; [now apply sqrt_lt_R0|exact Hx].
  - unfold Rdiv. 
    replace (sqrt n * / x * (sqrt n * / x)) with ((sqrt n * sqrt n) * (/ x * / x)) by ring.
    rewrite sqrt_sqrt by lra. rewrite Rinv_mult. reflexivity.
Qed.

Lemma polar_atan x y :
  x <> 0 ->
  let r := sqrt (x * x + y * y) in
  r * cos (atan (y / x)) = Rabs x /\ r * sin (atan (y / x)) = y * (Rabs x / x).
Proof.
  intros Hx r.
  assert (Hn : 0 < x * x + y * y) by nra.
  assert (Hr : 0 < r) by (now apply sqrt_lt_R0).
  assert (Ha : 0 < Rabs x) by (now apply Rabs_pos_lt).
  assert (Haa : Rabs x * Rabs x = x * x).
  { unfold Rabs. destruct (Rcase_abs x); ring. }
  assert (Hs : sqrt (1 + (y / x)²) = r / Rabs x).
  { unfold r. rewrite <- sqrt_quotient by assumption. f_equal.
    unfold Rsqr. rewrite Haa. field. exact Hx. }
  rewrite cos_atan, sin_atan, Hs. split; field; lra.
Qed.

Lemma cexp_clog (w : C) : w <> Cplx.zero -> Cplx.cexp (Cplx.clog w) = w.
Proof.
  intros Hw. destruct w as [x y].
  assert (Hxy : x <> 0 \/ y <> 0).
  { destruct (Req_dec x 0) as [Ex|Ex]; [|now left].
    destruct (Req_dec y 0) as [Ey|Ey]; [|now right].
    exfalso. apply Hw. subst. reflexivity. }
  unfold Cplx.cexp, Cplx.clog, Cplx.norm. cbn [Cplx.re Cplx.im].
  assert (Hn : 0 < x * x + y * y) by (destruct Hxy; nra).
  assert (Hr : 0 < sqrt (x * x + y * y)) by now apply sqrt_lt_R0.
  rewrite exp_ln by exact Hr.
  unfold Cplx.atan2.
  destruct (Rlt_dec 0 x) as [Hpos|Hnpos].
  - destruct (polar_atan x y ltac:(lra)) as [Hc Hs]. cbv zeta in *.
    rewrite Hc, Hs, Rabs_right by lra. f_equal. field. lra.
  - destruct (Rlt_dec x 0) as [Hneg|Hnneg].
    + destruct (polar_atan x y ltac:(lra)) as [Hc Hs]. cbv zeta in *.
      rewrite Rabs_left in Hc, Hs by lra.
      destruct (Rle_dec 0 y).
      * rewrite neg_cos, neg_sin.
        rewrite !Ropp_mult_distr_r_reverse, Hc, Hs. f_equal; [ring|field; lra].
      * unfold Rminus. rewrite <- (cos_neg (atan (y / x) + - PI)).
        rewrite <- (Ropp_involutive (sin (atan (y / x) + - PI))), <- sin_neg.
        replace (- (atan (y / x) + - PI)) with (- atan (y / x) + PI) by ring.
        rewrite neg_cos, neg_sin, cos_neg, sin_neg.
        rewrite Ropp_involutive, !Ropp_mult_distr_r_reverse, Hc, Hs.
        f_equal; [ring|field; lra].
    + assert (Ex : x = 0) by lra. subst x.
      replace (0 * 0 + y * y) with (y * y) in * by ring.
      destruct (Rlt_dec 0 y).
      * rewrite cos_PI2, sin_PI2, sqrt_square by lra. f_equal; ring.
      * destruct (Rlt_dec y 0).
        -- rewrite cos_neg, sin_neg, cos_PI2, sin_PI2.
           replace (y * y) with ((- y) * (- y)) by ring.
           rewrite sqrt_square by lra. f_equal; ring.
        -- exfalso. destruct Hxy; lra.
Qed.

Lemma cexp_add_real a w :
  Cplx.cexp (Cplx.of_real a + w)%C = Cplx.scale_l (exp a) (Cplx.cexp w).
Proof.
  unfold Cplx.cexp, Cplx.add, Cplx.of_real, Cplx.scale_l. cbn [Cplx.re Cplx.im].
  rewrite exp_plus, Rplus_0_l. f_equal; ring.
Qed.

Lemma cexp_lncoshC (z : C) :
  Rabs (Cplx.re z) <= 12 -> ccosh z <> Cplx.zero ->
  Cplx.cexp (Nqs.lncoshC z) = ccosh z.
Proof.
  intros Hre Hnz. unfold Nqs.lncoshC. cbv zeta.
  rewrite cexp_add_real, LncoshBound.lncosh_exact by exact Hre.
  pose proof (LncoshFacts.cosh_pos (Cplx.re z)) as Hc.
  rewrite exp_ln by exact Hc.
  assert (Ht : cosh (Cplx.re z) * tanh (Cplx.re z) = sinh (Cplx.re z)).
  { unfold tanh. field. lra. }
  rewrite cexp_clog.
  - unfold ccosh, Cplx.scale_l. cbn [Cplx.re Cplx.im]. f_equal.
    rewrite <- Rmult_assoc, Ht. reflexivity.
  - intros E. apply Hnz. unfold ccosh.
    injection E as E1 E2. rewrite E1, <- Ht, Rmult_assoc, E2.
    unfold Cplx.zero. f_equal; ring.
Qed.

End ClogFacts.

(** X15.  The complex [lncosh] is a logarithm of the hyperbolic cosine:
    on a real argument it is the real [lncosh], and for an argument whose
    real part is at most 12 in modulus, and whose hyperbolic cosine is not
    zero, its exponential is that hyperbolic cosine. *)
Theorem lncoshC_is_log_cosh :
  (forall x : R, Nqs.lncoshC (Cplx.of_real x) = Cplx.of_real (Nqs.lncosh x)) /\
  (forall z : C,
      (Rabs (Cplx.re z) <= 12)%R -> ccosh z <> Cplx.zero ->
      Cplx.cexp (Nqs.lncoshC z) = ccosh z).
Proof.
  split.
  - apply LncoshBound.lncoshC_real.
  - intros z Hre Hnz. now apply ClogFacts.cexp_lncoshC.
Qed.

Lemma lncoshC_is_log_cosh_witness :
  Nqs.lncoshC (Cplx.of_real 1) = Cplx.of_real (Nqs.lncosh 1) /\
  Cplx.cexp (Nqs.lncoshC (Cplx.mk 1 0)) = ccosh (Cplx.mk 1 0).
Proof.
  destruct lncoshC_is_log_cosh as [Hreal Hexp]. split.
  - apply Hreal.
  - apply Hexp.
    + cbn [Cplx.re]. rewrite Rabs_right; lra.
    + unfold ccosh. cbn [Cplx.re Cplx.im]. intros E. injection E as E1 _.
      rewrite cos_0, Rmult_1_r in E1. pose proof (LncoshFacts.cosh_pos 1). lra.
Defined.

(** ** Amplitude ratios and the local energy *)

Module ReverseFacts.

(** [LogVal] reads the parameters only, never the table. *)
Lemma LogVal_params wf wf' s :
  Nqs.W_ wf' = Nqs.W_ wf -> Nqs.a_ wf' = Nqs.a_ wf -> Nqs.b_ wf' = Nqs.b_ wf ->
  Nqs.nh_ wf' = Nqs.nh_ wf -> Nqs.nv_ wf' = Nqs.nv_ wf ->
  Nqs.LogVal wf' s = Nqs.LogVal wf s.
Proof.
  intros HW Ha Hb Hnh Hnv. unfold Nqs.LogVal, Nqs.a_at. rewrite Ha, Hnh, Hnv.
  apply fold_left_ext_in. intros h acc _. f_equal. f_equal.
  now apply NqsFacts.theta_params.
Qed.

Lemma LogPoP_reverse wf s flips :
  Nqs.coherent wf s -> flip_set (Nqs.nv_ wf) flips -> length s = Nqs.nv_ wf ->
  Nqs.LogPoP (Nqs.UpdateLt wf s flips) (flip_sites s flips) flips
  = (Cplx.zero - Nqs.LogPoP wf s flips)%C.
Proof.
  intros Hco HF Hs.
  destruct (NqsFacts.UpdateLt_params wf s flips) as (HW & Ha & Hb & Hnh & Hnv).
  rewrite RatioFacts.LogPoP_LogVal.
  - rewrite NqsFacts.flip_sites_twice by apply HF.
    rewrite !(LogVal_params wf (Nqs.UpdateLt wf s flips)) by assumption.
    rewrite (RatioFacts.LogPoP_LogVal wf s flips Hco HF Hs).
    apply CplxFacts.C_eq; simpl; lra.
  - now apply NqsFacts.UpdateLt_coherent.
  - now rewrite Hnv.
  - now rewrite flip_sites_length, Hnv.
Qed.

End ReverseFacts.

(** X16.  Once a move is made, the ratio for undoing it is the inverse of
    the ratio it was accepted with: read off the updated table on the flipped
    configuration, [PoP] for the same flip set times [PoP] before is one;
    the real parts of the two [LogPoP] are opposite, and the squared moduli
    of the two [PoP] multiply to one. *)
Theorem PoP_reverse_move (wf : Nqs.t) (s : list Z) (flips : list nat) :
  Nqs.coherent wf s -> flip_set (Nqs.nv_ wf) flips -> length s = Nqs.nv_ wf ->
  (Nqs.PoP (Nqs.UpdateLt wf s flips) (flip_sites s flips) flips
   * Nqs.PoP wf s flips)%C = Cplx.of_real 1 /\
  Cplx.re (Nqs.LogPoP (Nqs.UpdateLt wf s flips) (flip_sites s flips) flips)
  = (- Cplx.re (Nqs.LogPoP wf s flips))%R /\
  (Cplx.norm (Nqs.PoP (Nqs.UpdateLt wf s flips) (flip_sites s flips) flips)
   * Cplx.norm (Nqs.PoP wf s flips) = 1)%R.
Proof.
  intros Hco HF Hs. pose proof (ReverseFacts.LogPoP_reverse wf s flips Hco HF Hs) as Hrev.
  split; [|split].
  - unfold Nqs.PoP. rewrite <- CplxFacts.cexp_add, Hrev.
    replace (Cplx.zero - Nqs.LogPoP wf s flips + Nqs.LogPoP wf s flips)%C
      with Cplx.zero by (apply CplxFacts.C_eq; simpl; lra).
    unfold Cplx.cexp, Cplx.zero, Cplx.of_real. cbn [Cplx.re Cplx.im].
    rewrite exp_0, cos_0, sin_0. f_equal; ring.
  - rewrite Hrev. cbn [Cplx.re Cplx.sub Cplx.zero]. ring.
  - unfold Nqs.PoP. rewrite !CplxFacts.norm_cexp, Hrev. cbn [Cplx.re Cplx.sub Cplx.zero].
    rewrite Rminus_0_l, exp_Ropp.
    pose proof (exp_pos (Cplx.re (Nqs.LogPoP wf s flips))). field. lra.
Qed.

Lemma PoP_reverse_move_witness :
  let wf := Nqs.InitLt Tiny.wf Tiny.up_down in
  (Nqs.PoP (Nqs.UpdateLt wf Tiny.up_down [0%nat; 1%nat])
           (flip_sites Tiny.up_down [0%nat; 1%nat]) [0%nat; 1%nat]
   * Nqs.PoP wf Tiny.up_down [0%nat; 1%nat])%C = Cplx.of_real 1 /\
  Cplx.re (Nqs.LogPoP (Nqs.UpdateLt wf Tiny.up_down [0%nat; 1%nat])
                      (flip_sites Tiny.up_down [0%nat; 1%nat]) [0%nat; 1%nat])
  = (- Cplx.re (Nqs.LogPoP wf Tiny.up_down [0%nat; 1%nat]))%R /\
  (Cplx.norm (Nqs.PoP (Nqs.UpdateLt wf Tiny.up_down [0%nat; 1%nat])
                      (flip_sites Tiny.up_down [0%nat; 1%nat]) [0%nat; 1%nat])
   * Cplx.norm (Nqs.PoP wf Tiny.up_down [0%nat; 1%nat]) = 1)%R.
Proof.
  apply (PoP_reverse_move (Nqs.InitLt Tiny.wf Tiny.up_down) Tiny.up_down).
  - apply NqsFacts.InitLt_coherent.
  - repeat constructor; simpl; try lia; intuition lia.
  - reflexivity.
Defined.

Module EnergyFacts.

Lemma PoP_nil wf s : Nqs.PoP wf s [] = Cplx.of_real 1.
Proof.
  unfold Nqs.PoP, Nqs.LogPoP, Cplx.cexp, Cplx.zero, Cplx.of_real. cbn [Cplx.re Cplx.im].
  rewrite exp_0, cos_0, sin_0. f_equal; ring.
Qed.

Lemma sum_nil : Cplx.sum [] = Cplx.zero.
Proof. reflexivity. Qed.

(** The loop of [MeasureEnergy] over two vectors built side by side. *)
Lemma map_nth_zip {A B I} (F : A -> B -> C) (g : I -> A) (h : I -> B) l dA dB :
  map (fun k => F (nth k (map g l) dA) (nth k (map h l) dB)) (seq 0 (length l))
  = map (fun x => F (g x) (h x)) l.
Proof.
  induction l as [|x l IH]; [reflexivity|].
  cbn [length seq map nth]. f_equal.
  rewrite <- seq_shift, map_map. exact IH.
Qed.

Lemma MeasureEnergy_sample {G H : Type} {ham : Hamiltonian H}
    (s : Sampler.t (G := G) (H := H)) f0 m0 {I} (g : I -> list nat) (h : I -> C) l :
  FindConn (Sampler.hamiltonian_ s) (Sampler.state_ s) (Sampler.flipsh_ s) (Sampler.mel_ s)
  = (f0 :: map g l, m0 :: map h l) ->
  Sampler.energy_ (Sampler.MeasureEnergy s)
  = Sampler.energy_ s
    ++ [(Nqs.PoP (Sampler.wf_ s) (Sampler.state_ s) f0 * m0
         + Cplx.sum (map (fun x => Nqs.PoP (Sampler.wf_ s) (Sampler.state_ s) (g x) * h x) l))%C]
  /\ Sampler.flipsh_ (Sampler.MeasureEnergy s) = f0 :: map g l
  /\ Sampler.mel_ (Sampler.MeasureEnergy s) = m0 :: map h l.
Proof.
  intros Hconn. unfold Sampler.MeasureEnergy. rewrite Hconn.
  cbn [Sampler.set_energy Sampler.set_conn Sampler.energy_ Sampler.flipsh_ Sampler.mel_
       Sampler.wf_ Sampler.state_].
  split; [|split; reflexivity]. f_equal. f_equal.
  rewrite (CplxFacts.fold_add_map
             (fun i => (Nqs.PoP (Sampler.wf_ s) (Sampler.state_ s) (nth i (f0 :: map g l) [])
                        * nth i (m0 :: map h l) Cplx.zero)%C)).
  cbn [length seq map nth]. rewrite CplxFacts.sum_cons, CplxFacts.add_zero_l.
  f_equal. f_equal. rewrite <- seq_shift, map_map. rewrite length_map.
  apply (map_nth_zip (fun f m => (Nqs.PoP (Sampler.wf_ s) (Sampler.state_ s) f * m)%C)).
Qed.

End EnergyFacts.

Lemma repeat_map_seq {A} (c : A) n : repeat c n = map (fun _ => c) (seq 0 n).
Proof.
  induction n as [|n IH]; [reflexivity|].
  cbn [repeat seq map]. rewrite <- seq_shift, map_map. now f_equal.
Qed.

Lemma mul_one_l z : (Cplx.of_real 1 * z)%C = z.
Proof. apply CplxFacts.C_eq; simpl; ring. Qed.

(** X17.  With the Ising chain, on a configuration of its spins,
    [MeasureEnergy] appends the local energy
    of the configuration: minus the sum of [state[i] * state[j]] over the
    bonds of the chain, plus [-hfield_] times the amplitude ratio of every
    single-site flip. *)
Theorem Ising1d_local_energy {G : Type} (s : Sampler.t (G := G) (H := Ising1d.t))
    (nspins : nat) (hfield : R) (pbc : bool) :
  Sampler.hamiltonian_ s = Ising1d.Init nspins hfield pbc ->
  (0 < nspins)%nat -> length (Sampler.state_ s) = nspins ->
  Sampler.energy_ (Sampler.MeasureEnergy s)
  = Sampler.energy_ s
    ++ [(Cplx.of_real (- Lattice.bond_sum (Sampler.state_ s)
                                          (Ising1d_bonds (Sampler.hamiltonian_ s)))
         + Cplx.sum (map (fun i => Nqs.PoP (Sampler.wf_ s) (Sampler.state_ s) [i]
                                   * Cplx.of_real (- hfield))
                         (seq 0 nspins)))%C].
Proof.
  intros Hham _ _.
  destruct (EnergyFacts.MeasureEnergy_sample s []
              (Cplx.of_real (- Lattice.bond_sum (Sampler.state_ s)
                                                (Ising1d_bonds (Sampler.hamiltonian_ s))))
              (fun i => [i]) (fun _ => Cplx.of_real (- hfield)) (seq 0 nspins))
    as (He & _).
  { cbn [FindConn Ising1d_Hamiltonian]. rewrite Hham, IsingFacts.FindConn_Init.
    now rewrite repeat_map_seq. }
  rewrite He, EnergyFacts.PoP_nil, mul_one_l. reflexivity.
Qed.

Lemma Ising1d_local_energy_witness :
  Sampler.energy_ (Sampler.MeasureEnergy Tiny.uphill)
  = Sampler.energy_ Tiny.uphill
    ++ [(Cplx.of_real (- Lattice.bond_sum (Sampler.state_ Tiny.uphill)
                                          (Ising1d_bonds (Sampler.hamiltonian_ Tiny.uphill)))
         + Cplx.sum (map (fun i => Nqs.PoP (Sampler.wf_ Tiny.uphill)
                                           (Sampler.state_ Tiny.uphill) [i]
                                   * Cplx.of_real (- 1))
                         (seq 0 1)))%C].
Proof.
  apply (Ising1d_local_energy Tiny.uphill 1 1 true); [reflexivity|lia|reflexivity].
Defined.

(** X18.  With the Heisenberg chain, on a configuration of its spins and
    the first flip list of the sampler empty as it is from the constructor on, [MeasureEnergy] appends
    the local energy of the configuration: the diagonal element plus -2
    times the amplitude ratio of the exchange of every bond whose two spins
    differ; and it leaves the first flip list empty. *)
Theorem Heisenberg1d_local_energy {G : Type}
    (s : Sampler.t (G := G) (H := Heisenberg1d.t)) :
  (0 < Heisenberg1d.nspins_ (Sampler.hamiltonian_ s))%nat ->
  length (Sampler.state_ s) = Heisenberg1d.nspins_ (Sampler.hamiltonian_ s) ->
  nth 0 (Sampler.flipsh_ s) [] = [] ->
  Sampler.energy_ (Sampler.MeasureEnergy s)
  = Sampler.energy_ s
    ++ [(Heisenberg1d.diagonal (Sampler.hamiltonian_ s) (Sampler.state_ s)
         + Cplx.sum (map (fun p => Nqs.PoP (Sampler.wf_ s) (Sampler.state_ s) (pair_flip p)
                                   * Cplx.of_real (-2))
                         (filter (antiparallel (Sampler.state_ s))
                                 (Heisenberg1d.bonds (Sampler.hamiltonian_ s)))))%C]
  /\ nth 0 (Sampler.flipsh_ (Sampler.MeasureEnergy s)) [] = [].
Proof.
  intros _ _ Hhead.
  destruct (EnergyFacts.MeasureEnergy_sample s []
              (Heisenberg1d.diagonal (Sampler.hamiltonian_ s) (Sampler.state_ s))
              pair_flip (fun _ => Cplx.of_real (-2))
              (filter (antiparallel (Sampler.state_ s))
                      (Heisenberg1d.bonds (Sampler.hamiltonian_ s))))
    as (He & Hf & _).
  { cbn [FindConn Heisenberg1d_Hamiltonian].
    now rewrite ConnFacts.Heisenberg1d_FindConn_lists, Hhead. }
  rewrite He, Hf, EnergyFacts.PoP_nil, mul_one_l. split; reflexivity.
Qed.

Lemma Heisenberg1d_local_energy_witness :
  Sampler.energy_ (Sampler.MeasureEnergy Small.prepared)
  = Sampler.energy_ Small.prepared
    ++ [(Heisenberg1d.diagonal Tiny.chain Tiny.up_down
         + Cplx.sum (map (fun p => Nqs.PoP (Sampler.wf_ Small.prepared) Tiny.up_down
                                           (pair_flip p)
                                   * Cplx.of_real (-2))
                         (filter (antiparallel Tiny.up_down)
                                 (Heisenberg1d.bonds Tiny.chain))))%C]
  /\ nth 0 (Sampler.flipsh_ (Sampler.MeasureEnergy Small.prepared)) [] = [].
Proof.
  apply (Heisenberg1d_local_energy Small.prepared);
    [cbn; unfold Tiny.chain; cbn [Heisenberg1d.nspins_]; lia|reflexivity|reflexivity].
Defined.

(** X19.  The same with the Heisenberg model on the square lattice the
    constructor builds, over the entries of [bonds_]. *)
Theorem Heisenberg2d_local_energy {G : Type}
    (s : Sampler.t (G := G) (H := Heisenberg2d.t)) (N : Z) (jz : R) (pbc : bool) :
  Heisenberg2d.make N jz pbc = Done (Sampler.hamiltonian_ s) ->
  length (Sampler.state_ s) = Z.to_nat N ->
  nth 0 (Sampler.flipsh_ s) [] = [] ->
  Sampler.energy_ (Sampler.MeasureEnergy s)
  = Sampler.energy_ s
    ++ [(Heisenberg2d.diagonal (Sampler.hamiltonian_ s) (Sampler.state_ s)
         + Cplx.sum (map (fun p => Nqs.PoP (Sampler.wf_ s) (Sampler.state_ s) (pair_flip p)
                                   * Cplx.of_real (-2))
                         (filter (antiparallel (Sampler.state_ s))
                                 (map Lattice.to_sites
                                      (Heisenberg2d.bonds_ (Sampler.hamiltonian_ s))))))%C]
  /\ nth 0 (Sampler.flipsh_ (Sampler.MeasureEnergy s)) [] = [].
Proof.
  intros _ _ Hhead.
  destruct (EnergyFacts.MeasureEnergy_sample s []
              (Heisenberg2d.diagonal (Sampler.hamiltonian_ s) (Sampler.state_ s))
              pair_flip (fun _ => Cplx.of_real (-2))
              (filter (antiparallel (Sampler.state_ s))
                      (map Lattice.to_sites
                           (Heisenberg2d.bonds_ (Sampler.hamiltonian_ s)))))
    as (He & Hf & _).
  { cbn [FindConn Heisenberg2d_Hamiltonian].
    now rewrite ConnFacts.Heisenberg2d_FindConn_lists, Hhead. }
  rewrite He, Hf, EnergyFacts.PoP_nil, mul_one_l. split; reflexivity.
Qed.

Lemma Heisenberg2d_local_energy_witness :
  Sampler.energy_ (Sampler.MeasureEnergy Small.on_square)
  = Sampler.energy_ Small.on_square
    ++ [(Heisenberg2d.diagonal Small.square [1; -1; -1; 1]%Z
         + Cplx.sum (map (fun p => Nqs.PoP (Sampler.wf_ Small.on_square) [1; -1; -1; 1]%Z
                                           (pair_flip p)
                                   * Cplx.of_real (-2))
                         (filter (antiparallel [1; -1; -1; 1]%Z)
                                 (map Lattice.to_sites
                                      (Heisenberg2d.bonds_ Small.square)))))%C]
  /\ nth 0 (Sampler.flipsh_ (Sampler.MeasureEnergy Small.on_square)) [] = [].
Proof.
  apply (Heisenberg2d_local_energy Small.on_square 4 1 false); reflexivity.
Defined.

(** ** The options *)

Module OptionsFacts.

Import Options.
Open Scope string_scope.

Lemma find_occurs strarg pattern :
  pattern <> EmptyString ->
  ((exists m, find strarg pattern 0 = Some m) <-> occurs pattern strarg) /\
  (find strarg pattern 0 = None <-> ~ occurs pattern strarg).
Proof.
  intros Hne. unfold find, occurs.
  destruct (String.index 0 pattern strarg) as [m|] eqn:E.
  - pose proof (index_correct1 _ _ _ _ E) as Hm. split; split.
    + intros _. now exists m.
    + intros _. now exists m.
    + discriminate.
    + intros Hno. exfalso. apply Hno. now exists m.
  - split; split.
    + intros [m Hm]. discriminate.
    + intros [m Hm]. exfalso.
      exact (index_correct3 0 m _ _ E Hne (Nat.le_0_l m) Hm).
    + intros _ [m Hm]. exact (index_correct3 0 m _ _ E Hne (Nat.le_0_l m) Hm).
    + reflexivity.
Qed.

Lemma FindModel_spec strarg :
  (FindModel strarg = "Ising1d" <-> occurs "Ising" strarg) /\
  (FindModel strarg = "Heisenberg1d"
   <-> ~ occurs "Ising" strarg /\ occurs "Heisenberg1d" strarg) /\
  (FindModel strarg = "Heisenberg2d"
   <-> ~ occurs "Ising" strarg /\ ~ occurs "Heisenberg1d" strarg
       /\ occurs "Heisenberg2d" strarg) /\
  (FindModel strarg = "None"
   <-> ~ occurs "Ising" strarg /\ ~ occurs "Heisenberg1d" strarg
       /\ ~ occurs "Heisenberg2d" strarg).
Proof.
  destruct (find_occurs strarg "Ising" ltac:(discriminate)) as [I1 I2].
  destruct (find_occurs strarg "Heisenberg1d" ltac:(discriminate)) as [A1 A2].
  destruct (find_occurs strarg "Heisenberg2d" ltac:(discriminate)) as [B1 B2].
  unfold FindModel.
  destruct (find strarg "Ising" 0) as [i|].
  { assert (HI : occurs "Ising" strarg) by (apply I1; now exists i).
    repeat split; try discriminate; try tauto. }
  assert (HI : ~ occurs "Ising" strarg) by now apply I2.
  destruct (find strarg "Heisenberg1d" 0) as [a|].
  { assert (HA : occurs "Heisenberg1d" strarg) by (apply A1; now exists a).
    repeat split; try discriminate; try tauto. }
  assert (HA : ~ occurs "Heisenberg1d" strarg) by now apply A2.
  destruct (find strarg "Heisenberg2d" 0) as [b|].
  { assert (HB : occurs "Heisenberg2d" strarg) by (apply B1; now exists b).
    repeat split; try discriminate; try tauto. }
  assert (HB : ~ occurs "Heisenberg2d" strarg) by now apply B2.
  repeat split; try discriminate; try tauto.
Qed.


Lemma append_assoc (a b c : string) : (a ++ b) ++ c = a ++ (b ++ c).
Proof. induction a as [|x a IH]; cbn; [reflexivity|now rewrite IH]. Qed.

Lemma length_append (a b : string) :
  String.length (a ++ b) = (String.length a + String.length b)%nat.
Proof. induction a as [|x a IH]; cbn; [reflexivity|now rewrite IH]. Qed.

Lemma underscores_append (a b : string) :
  underscores (a ++ b) = (underscores a + underscores b)%nat.
Proof. induction a as [|x a IH]; cbn; [reflexivity|rewrite IH; lia]. Qed.

Lemma prefix_underscore c s :
  String.prefix "_" (String c s) = Ascii.eqb c "_".
Proof.
  cbn [String.prefix]. destruct (ascii_dec "_" c) as [<-|Hne].
  - destruct s; reflexivity.
  - symmetry. apply Ascii.eqb_neq. congruence.
Qed.

(** Searching past a prefix. *)
Lemma find_skip (p s pattern : string) n :
  find (p ++ s) pattern (String.length p + n)
  = option_map (Nat.add (String.length p)) (find s pattern n).
Proof.
  unfold find. induction p as [|x p IH].
  - cbn. now destruct (String.index n pattern s).
  - cbn [String.append String.length Nat.add String.index]. rewrite IH.
    now destruct (String.index n pattern s).
Qed.

(** The first underscore, when there is one. *)
Lemma find_first (s : string) :
  (underscores s = 0%nat /\ find s "_" 0 = None) \/
  (exists a r, s = a ++ String "_" r /\ underscores a = 0%nat /\
               find s "_" 0 = Some (String.length a)).
Proof.
  unfold find. induction s as [|c s IH].
  - left. split; reflexivity.
  - cbn [String.index underscores]. rewrite prefix_underscore.
    destruct (Ascii.eqb_spec c "_") as [->|Hne].
    + right. exists EmptyString, s. repeat split.
    + destruct IH as [[Hz Hf]|(a & r & -> & Hz & Hf)].
      * left. rewrite Hf. split; [exact Hz|reflexivity].
      * right. exists (String c a), r. rewrite Hf. cbn [String.append underscores String.length].
        destruct (Ascii.eqb_spec c "_"); [contradiction|]. repeat split. exact Hz.
Qed.

Lemma find_after (a r : string) :
  find (a ++ String "_" r) "_" (String.length a + 1)
  = option_map (fun m => (String.length a + 1 + m)%nat) (find r "_" 0).
Proof.
  replace (a ++ String "_" r) with ((a ++ "_") ++ r)
    by (rewrite append_assoc; reflexivity).
  replace (String.length a + 1)%nat with (String.length (a ++ "_") + 0)%nat
    by (rewrite length_append; cbn; lia).
  rewrite find_skip, length_append. cbn [String.length].
  destruct (find r "_" 0); cbn [option_map]; [f_equal; lia|reflexivity].
Qed.

Lemma substring_middle (p c d : string) :
  String.substring (String.length p) (String.length c) (p ++ c ++ d) = c.
Proof.
  induction p as [|x p IH]; cbn [String.length String.append String.substring].
  - induction c as [|y c IHc]; cbn [String.length String.append String.substring].
    + destruct d; reflexivity.
    + now rewrite IHc.
  - exact IH.
Qed.

Lemma FindCoupling_field (a b c d : string) :
  underscores a = 0%nat -> underscores b = 0%nat -> underscores c = 0%nat ->
  FindCoupling (a ++ "_" ++ b ++ "_" ++ c ++ "_" ++ d) = inl c.
Proof.
  intros Ha Hb Hc. unfold FindCoupling.
  set (s := a ++ "_" ++ b ++ "_" ++ c ++ "_" ++ d).
  assert (Hfirst : forall x r, underscores x = 0%nat ->
                               find (x ++ String "_" r) "_" 0 = Some (String.length x)).
  { intros x r Hx. destruct (find_first (x ++ String "_" r)) as [[Hz _]|(x' & r' & E & Hz & Hf)].
    - rewrite underscores_append in Hz. cbn in Hz. lia.
    - rewrite Hf. f_equal.
      clear Hf. revert x' E Hz. induction x as [|y x IH]; intros [|y' x'] E Hz.
      + reflexivity.
      + cbn in E. injection E as <- _. cbn in Hz. discriminate.
      + cbn in E. injection E as -> _. cbn in Hx. discriminate.
      + cbn in E. injection E as -> E. cbn [String.length]. f_equal.
        cbn in Hx, Hz. destruct (Ascii.eqb y' "_"); [discriminate|].
        apply IH; assumption. }
  assert (E0 : find s "_" 0 = Some (String.length a)) by (apply Hfirst; exact Ha).
  rewrite E0.
  assert (E1 : find s "_" (String.length a + 1)
               = Some (String.length a + 1 + String.length b)%nat).
  { unfold s. cbn [String.append]. rewrite find_after.
    change (b ++ String "_" (c ++ String "_" d)) with (b ++ String "_" (c ++ String "_" d)).
    rewrite (Hfirst b _ Hb). reflexivity. }
  rewrite E1.
  assert (E2 : find s "_" (String.length a + 1 + String.length b + 1)
               = Some (String.length a + 1 + String.length b + 1 + String.length c)%nat).
  { unfold s.
    replace (a ++ "_" ++ b ++ "_" ++ c ++ "_" ++ d)
      with ((a ++ "_" ++ b) ++ String "_" (c ++ String "_" d))
      by (rewrite !append_assoc; reflexivity).
    replace (String.length a + 1 + String.length b)%nat
      with (String.length (a ++ "_" ++ b))
      by (rewrite !length_append; cbn [String.length]; lia).
    rewrite find_after, (Hfirst c _ Hc). reflexivity. }
  rewrite E2. f_equal.
  replace (String.length a + 1 + String.length b + 1 + String.length c
           - (String.length a + 1 + String.length b) - 1)%nat
    with (String.length c) by lia.
  unfold s.
  replace (a ++ "_" ++ b ++ "_" ++ c ++ "_" ++ d)
    with ((a ++ "_" ++ b ++ "_") ++ c ++ ("_" ++ d))
    by (rewrite !append_assoc; reflexivity).
  replace (String.length a + 1 + String.length b + 1)%nat
    with (String.length (a ++ "_" ++ b ++ "_"))
    by (rewrite !length_append; cbn [String.length]; lia).
  apply substring_middle.
Qed.

(** A string with three underscores or more, cut at the first three. *)
Lemma three_underscores (s : string) :
  (3 <= underscores s)%nat ->
  exists a b c d,
    s = a ++ "_" ++ b ++ "_" ++ c ++ "_" ++ d /\
    underscores a = 0%nat /\ underscores b = 0%nat /\ underscores c = 0%nat.
Proof.
  intros H3.
  destruct (find_first s) as [[Hz _]|(a & r & -> & Ha & _)]; [lia|].
  rewrite underscores_append in H3. cbn in H3.
  destruct (find_first r) as [[Hz _]|(b & r' & -> & Hb & _)]; [lia|].
  rewrite underscores_append in H3. cbn in H3.
  destruct (find_first r') as [[Hz _]|(c & d & -> & Hc & _)]; [lia|].
  exists a, b, c, d. repeat split; assumption.
Qed.

Lemma FindCoupling_abort (s : string) :
  (underscores s < 3)%nat ->
  FindCoupling s
  = inr "# Error : the filename is not in the format specified for the Ising/Heisenberg model".
Proof.
  intros Hlt. unfold FindCoupling.
  destruct (find_first s) as [[Hz Hf]|(a & r & -> & Ha & Hf)].
  { rewrite Hf. reflexivity. }
  rewrite Hf, find_after.
  rewrite underscores_append in Hlt. cbn in Hlt.
  destruct (find_first r) as [[Hz Hf1]|(b & r' & -> & Hb & Hf1)].
  { rewrite Hf1. reflexivity. }
  rewrite Hf1. cbn [option_map].
  rewrite underscores_append in Hlt. cbn in Hlt.
  destruct (find_first r') as [[Hz Hf2]|(c & d & -> & Hc & _)].
  - replace (a ++ String "_" (b ++ String "_" r'))
      with ((a ++ "_" ++ b) ++ String "_" r')
      by (rewrite !append_assoc; reflexivity).
    replace (String.length a + 1 + String.length b + 1)%nat
      with (String.length (a ++ "_" ++ b) + 1)%nat
      by (rewrite !length_append; cbn [String.length]; lia).
    rewrite find_after, Hf2. reflexivity.
  - rewrite underscores_append in Hlt. cbn in Hlt. lia.
Qed.


Lemma lookup_assign_same options key value :
  lookup (assign options key value) key = Some value.
Proof.
  induction options as [|[k v] rest IH]; cbn [assign lookup].
  - now rewrite String.eqb_refl.
  - destruct (String.eqb_spec k key) as [->|Hne]; cbn [lookup].
    + now rewrite String.eqb_refl.
    + destruct (String.eqb_spec k key); [contradiction|exact IH].
Qed.

Lemma lookup_assign_other options key value key' :
  key <> key' -> lookup (assign options key value) key' = lookup options key'.
Proof.
  intros Hne. induction options as [|[k v] rest IH]; cbn [assign lookup].
  - destruct (String.eqb_spec key key'); [contradiction|reflexivity].
  - destruct (String.eqb_spec k key) as [->|Hk]; cbn [lookup].
    + destruct (String.eqb_spec key key'); [contradiction|reflexivity].
    + now rewrite IH.
Qed.

Ltac eval_eqb :=
  repeat match goal with
         | |- context [Ascii.eqb ?x ?y] =>
           let b := eval vm_compute in (Ascii.eqb x y) in
           match b with
           | true => change (Ascii.eqb x y) with true
           | false => change (Ascii.eqb x y) with false
           end
         end.

Lemma parse_known args :
  known args ->
  forall options, exists options',
    parse args options = Some options' /\
    (forall c key, Options.key_of c = Some key ->
                   lookup options' key
                   = match last_given c args with
                     | Some v => Some v
                     | None => lookup options key
                     end) /\
    (forall key, (forall c, Options.key_of c <> Some key) ->
                 lookup options' key = lookup options key).
Proof.
  intros Hknown. induction Hknown as [|[c0 optarg] rest Hc0 _ IH]; intros options.
  - exists options. cbn. repeat split.
  - cbn [fst] in Hc0. cbn [parse last_given].
    assert (Hstep : forall key0,
               Options.key_of c0 = Some key0 ->
               exists options',
                 parse rest (assign options key0 optarg) = Some options' /\
                 (forall c key, Options.key_of c = Some key ->
                    lookup options' key
                    = match match last_given c rest with
                            | Some v => Some v
                            | None => if Ascii.eqb c0 c then Some optarg else None
                            end with
                      | Some v => Some v
                      | None => lookup options key
                      end) /\
                 (forall key, (forall c, Options.key_of c <> Some key) ->
                              lookup options' key = lookup options key)).
    { intros key0 Hk0.
      destruct (IH (assign options key0 optarg)) as (options' & Hp & Hl & Ho).
      exists options'. split; [exact Hp|]. split.
      - intros c key Hk. rewrite (Hl c key Hk).
        destruct (last_given c rest); [reflexivity|].
        destruct (Ascii.eqb_spec c0 c) as [->|Hne].
        + assert (key0 = key) by congruence. subst. apply lookup_assign_same.
        + apply lookup_assign_other. intros ->.
          apply Hne. revert Hk0 Hk. unfold Options.key_of.
          repeat match goal with
                 | |- context [Ascii.eqb ?x ?y] => destruct (Ascii.eqb_spec x y)
                 end; congruence.
      - intros key Hkey. rewrite (Ho key Hkey).
        apply lookup_assign_other. intros ->. exact (Hkey c0 Hk0). }
    destruct Hc0 as [<-|[<-|[<-|[<-|[<-|[]]]]]]; eval_eqb; cbv iota.
    + exact (Hstep "filename" eq_refl).
    + exact (Hstep "nsweeps" eq_refl).
    + exact (Hstep "seed" eq_refl).
    + exact (Hstep "filestates" eq_refl).
    + destruct (IH options) as (options' & Hp & Hl & Ho).
      exists options'. split; [exact Hp|]. split; [|exact Ho].
      intros c key Hk. rewrite (Hl c key Hk).
      destruct (last_given c rest); [reflexivity|].
      destruct (Ascii.eqb_spec "?" c) as [<-|Hne]; [cbv in Hk; discriminate Hk|reflexivity].
Qed.


Lemma read_present options key v :
  lookup options key = Some v -> read options key = (v, options).
Proof. intros E. unfold read. now rewrite E. Qed.

Ltac lookups :=
  repeat first
    [ rewrite lookup_assign_same
    | rewrite lookup_assign_other by discriminate ].

Lemma ReadOptions_spec argc args :
  known args -> argc <> 1%Z ->
  match last_given "a" args with
  | None =>
    ReadOptions argc args
    = Fatal "# Error: Option filename must be specified with the option --filename=FILENAME"
  | Some filename =>
    match FindCoupling filename with
    | inr msg => ReadOptions argc args = Fatal msg
    | inl coupling =>
      exists options,
        ReadOptions argc args = Returned options /\
        lookup options "filename" = Some filename /\
        lookup options "model" = Some (FindModel filename) /\
        lookup options "nsweeps"
        = Some (match last_given "b" args with Some v => v | None => "1.0e4" end) /\
        lookup options "seed"
        = Some (match last_given "c" args with Some v => v | None => "-1" end) /\
        lookup options "filestates" = last_given "d" args /\
        (if String.eqb (FindModel filename) "Ising1d"
         then lookup options "hfield" = Some coupling /\ lookup options "jz" = None
         else lookup options "jz" = Some coupling /\ lookup options "hfield" = None)
    end
  end.
Proof.
  intros Hknown Hargc. unfold ReadOptions.
  destruct (Z.eqb_spec argc 1) as [|_]; [contradiction|].
  destruct (parse_known args Hknown []) as (o & Hp & Hl & Ho). rewrite Hp.
  pose proof (Hl "a"%char "filename" eq_refl) as La.
  pose proof (Hl "b"%char "nsweeps" eq_refl) as Lb.
  pose proof (Hl "c"%char "seed" eq_refl) as Lc.
  pose proof (Hl "d"%char "filestates" eq_refl) as Ld.
  assert (Hother : forall key, key <> "filename" -> key <> "nsweeps" -> key <> "seed" ->
                               key <> "filestates" -> lookup o key = None).
  { intros key H1 H2 H3 H4. rewrite Ho; [reflexivity|].
    intros c. unfold Options.key_of.
    repeat match goal with
           | |- context [Ascii.eqb ?x ?y] => destruct (Ascii.eqb x y)
           end; congruence. }
  cbn [lookup] in La, Lb, Lc, Ld. clear Hl Ho Hp.
  unfold count. rewrite La.
  destruct (last_given "a" args) as [filename|]; [|reflexivity].
  cbn [Nat.eqb].
  set (o1 := if (match lookup o "nsweeps" with Some _ => 1 | None => 0 end =? 0)%nat
             then assign o "nsweeps" "1.0e4" else o).
  assert (L1 : lookup o1 "filename" = Some filename /\
               lookup o1 "nsweeps"
               = Some (match last_given "b" args with Some v => v | None => "1.0e4" end) /\
               lookup o1 "seed" = lookup o "seed" /\
               lookup o1 "filestates" = lookup o "filestates" /\
               forall key, key <> "filename" -> key <> "nsweeps" -> key <> "seed" ->
                           key <> "filestates" -> lookup o1 key = None).
  { unfold o1. rewrite Lb. destruct (last_given "b" args); cbn [Nat.eqb].
    - repeat split; try assumption; try reflexivity.
    - lookups. repeat split; try assumption; try reflexivity.
      intros key H1 H2 H3 H4. rewrite lookup_assign_other by congruence. now apply Hother. }
  clearbody o1. destruct L1 as (F1 & N1 & S1 & D1 & O1).
  set (o2 := if (match lookup o1 "seed" with Some _ => 1 | None => 0 end =? 0)%nat
             then assign o1 "seed" "-1" else o1).
  assert (L2 : lookup o2 "filename" = Some filename /\
               lookup o2 "nsweeps"
               = Some (match last_given "b" args with Some v => v | None => "1.0e4" end) /\
               lookup o2 "seed"
               = Some (match last_given "c" args with Some v => v | None => "-1" end) /\
               lookup o2 "filestates" = last_given "d" args /\
               forall key, key <> "filename" -> key <> "nsweeps" -> key <> "seed" ->
                           key <> "filestates" -> lookup o2 key = None).
  { unfold o2. rewrite S1, Lc. destruct (last_given "c" args); cbn [Nat.eqb].
    - rewrite S1, Lc, D1, Ld. repeat split; try assumption; try reflexivity.
      now destruct (last_given "d" args).
    - lookups. rewrite D1, Ld. repeat split; try assumption; try reflexivity.
      { now destruct (last_given "d" args). }
      intros key H1 H2 H3 H4. rewrite lookup_assign_other by congruence. now apply O1. }
  clearbody o2. destruct L2 as (F2 & N2 & S2 & D2 & O2).
  rewrite (read_present o2 "filename" filename F2).
  rewrite (read_present (assign o2 "model" (FindModel filename)) "model" (FindModel filename))
    by apply lookup_assign_same.
  assert (F3 : lookup (assign o2 "model" (FindModel filename)) "filename" = Some filename)
    by (lookups; exact F2).
  destruct (String.eqb (FindModel filename) "Ising1d");
    rewrite (read_present _ "filename" filename F3);
    destruct (FindCoupling filename) as [coupling|msg]; try reflexivity;
    eexists; (split; [reflexivity|]); lookups;
    rewrite ?(O2 "hfield") by discriminate; rewrite ?(O2 "jz") by discriminate;
    repeat split; assumption.
Qed.

End OptionsFacts.

(** X20.  [FindModel] answers by the first of the three names that
    stands somewhere in its argument, in the order Ising, Heisenberg1d,
    Heisenberg2d, and None when none does: any argument that holds Ising is
    taken for the Ising chain, whatever else it holds. *)
Theorem FindModel_first_name (strarg : string) :
  (Options.FindModel strarg = "Ising1d"%string <-> Options.occurs "Ising" strarg) /\
  (Options.FindModel strarg = "Heisenberg1d"%string
   <-> ~ Options.occurs "Ising" strarg /\ Options.occurs "Heisenberg1d" strarg) /\
  (Options.FindModel strarg = "Heisenberg2d"%string
   <-> ~ Options.occurs "Ising" strarg /\ ~ Options.occurs "Heisenberg1d" strarg
       /\ Options.occurs "Heisenberg2d" strarg) /\
  (Options.FindModel strarg = "None"%string
   <-> ~ Options.occurs "Ising" strarg /\ ~ Options.occurs "Heisenberg1d" strarg
       /\ ~ Options.occurs "Heisenberg2d" strarg).
Proof. apply OptionsFacts.FindModel_spec. Qed.

(** X21.  [FindCoupling] returns the third of the fields that underscores
    separate: on a_b_c_d, with no underscore in a, b and c, it returns c. *)
Theorem FindCoupling_third_field (a b c d : string) :
  Options.underscores a = 0%nat -> Options.underscores b = 0%nat ->
  Options.underscores c = 0%nat ->
  Options.FindCoupling (a ++ "_" ++ b ++ "_" ++ c ++ "_" ++ d)%string = inl c.
Proof. apply OptionsFacts.FindCoupling_field. Qed.

Lemma FindCoupling_third_field_witness :
  Options.FindCoupling
    ("Ground/Ising1d" ++ "_" ++ "40" ++ "_" ++ "1" ++ "_" ++ "2.wf")%string
  = inl "1"%string.
Proof.
  apply (FindCoupling_third_field "Ground/Ising1d" "40" "1" "2.wf"); reflexivity.
Defined.

(** X22.  [FindCoupling] aborts with its message exactly on the arguments
    that hold fewer than three underscores. *)
Theorem FindCoupling_aborts_below_three_underscores (strarg : string) :
  Options.FindCoupling strarg
  = inr "# Error : the filename is not in the format specified for the Ising/Heisenberg model"%string
  <-> (Options.underscores strarg < 3)%nat.
Proof.
  split.
  - intros Habort. destruct (Nat.lt_ge_cases (Options.underscores strarg) 3) as [Hlt|Hge];
      [exact Hlt|].
    destruct (OptionsFacts.three_underscores strarg Hge) as (a & b & c & d & -> & Ha & Hb & Hc).
    rewrite (OptionsFacts.FindCoupling_field a b c d Ha Hb Hc) in Habort. discriminate.
  - apply OptionsFacts.FindCoupling_abort.
Qed.

(** X23.  [ReadOptions] on a command line of known options: without any
    argument it prints the usage and exits with status 0; without a file
    name it aborts; otherwise it aborts with the message of [FindCoupling]
    when the last file name given holds fewer than three underscores, and
    else returns the options: the last value given of each option, 1.0e4
    and -1 for a number of sweeps and a seed not given, the model
    [FindModel] reads off the file name, and the coupling under hfield for
    the Ising chain and under jz for every other model. *)
Theorem ReadOptions_result (argc : Z) (args : list (ascii * string)) :
  (argc = 1%Z -> Options.ReadOptions argc args = Options.Exited 0) /\
  (Options.known args -> argc <> 1%Z ->
   match Options.last_given "a" args with
   | None =>
     Options.ReadOptions argc args
     = Options.Fatal
         "# Error: Option filename must be specified with the option --filename=FILENAME"
   | Some filename =>
     match Options.FindCoupling filename with
     | inr msg => Options.ReadOptions argc args = Options.Fatal msg
     | inl coupling =>
       exists options,
         Options.ReadOptions argc args = Options.Returned options /\
         Options.lookup options "filename" = Some filename /\
         Options.lookup options "model" = Some (Options.FindModel filename) /\
         Options.lookup options "nsweeps"
         = Some (match Options.last_given "b" args with
                 | Some v => v
                 | None => "1.0e4"%string
                 end) /\
         Options.lookup options "seed"
         = Some (match Options.last_given "c" args with
                 | Some v => v
                 | None => "-1"%string
                 end) /\
         Options.lookup options "filestates" = Options.last_given "d" args /\
         (if String.eqb (Options.FindModel filename) "Ising1d"
          then Options.lookup options "hfield" = Some coupling /\
               Options.lookup options "jz" = None
          else Options.lookup options "jz" = Some coupling /\
               Options.lookup options "hfield" = None)
     end
   end).
Proof.
  split.
  - intros ->. reflexivity.
  - apply OptionsFacts.ReadOptions_spec.
Qed.

Lemma ReadOptions_result_witness :
  exists options,
    Options.ReadOptions 2 [("a"%char, "Ground/Ising1d_40_1_2.wf"%string)]
    = Options.Returned options /\
    Options.lookup options "filename" = Some "Ground/Ising1d_40_1_2.wf"%string /\
    Options.lookup options "model" = Some "Ising1d"%string /\
    Options.lookup options "nsweeps" = Some "1.0e4"%string /\
    Options.lookup options "seed" = Some "-1"%string /\
    Options.lookup options "filestates" = None /\
    Options.lookup options "hfield" = Some "1"%string /\
    Options.lookup options "jz" = None.
Proof.
  destruct (ReadOptions_result 2 [("a"%char, "Ground/Ising1d_40_1_2.wf"%string)])
    as [_ Hret].
  apply Hret.
  - repeat constructor.
  - discriminate.
Defined.

(** ** Moves in two steps *)

Module ComposeFacts.

Lemma flip_sites_app s F1 F2 :
  flip_sites s (F1 ++ F2) = flip_sites (flip_sites s F1) F2.
Proof. unfold flip_sites. apply fold_left_app. Qed.

Lemma flip_set_app n F1 F2 :
  flip_set n (F1 ++ F2) ->
  flip_set n F1 /\ flip_set n F2 /\ forall f, In f F2 -> ~ In f F1.
Proof.
  intros [Hnd Hall]. apply Forall_app in Hall. destruct Hall as [H1 H2].
  split; [split; [eapply NoDup_app_remove_r; exact Hnd|exact H1]|].
  split; [split; [eapply NoDup_app_remove_l; exact Hnd|exact H2]|].
  intros f Hf2 Hf1. revert Hnd Hf2. clear -Hf1.
  induction F1 as [|x F1 IH]; [destruct Hf1|]. cbn [app]. intros Hnd Hf2.
  inversion Hnd as [|? ? Hx Hnd']; subst. destruct Hf1 as [->|Hf1].
  - apply Hx. apply in_or_app. now right.
  - now apply IH.
Qed.

Lemma UpdateLt_app wf s F1 F2 :
  length (Nqs.Lt_ wf) = Nqs.nh_ wf -> NoDup (F1 ++ F2) ->
  Nqs.Lt_ (Nqs.UpdateLt wf s (F1 ++ F2))
  = Nqs.Lt_ (Nqs.UpdateLt (Nqs.UpdateLt wf s F1) (flip_sites s F1) F2).
Proof.
  intros Hlen Hnd.
  destruct (NqsFacts.UpdateLt_params wf s F1) as (HW & _ & _ & Hnh & _).
  destruct (NqsFacts.UpdateLt_rows wf s F1 Hlen) as [Hl1 Hn1].
  destruct (NqsFacts.UpdateLt_rows wf s (F1 ++ F2) Hlen) as [Hl Hn].
  assert (Hlen1 : length (Nqs.Lt_ (Nqs.UpdateLt wf s F1)) = Nqs.nh_ (Nqs.UpdateLt wf s F1))
    by now rewrite Hnh.
  destruct (NqsFacts.UpdateLt_rows (Nqs.UpdateLt wf s F1) (flip_sites s F1) F2 Hlen1)
    as [Hl2 Hn2].
  rewrite Hnh in Hl2, Hn2.
  apply (nth_ext _ _ Cplx.zero Cplx.zero); [lia|].
  intros h Hh. rewrite Hl in Hh.
  change (Nqs.Lt_at (Nqs.UpdateLt wf s (F1 ++ F2)) h
          = Nqs.Lt_at (Nqs.UpdateLt (Nqs.UpdateLt wf s F1) (flip_sites s F1) F2) h).
  rewrite (Hn h Hh), (Hn2 h Hh), (Hn1 h Hh), fold_left_app.
  apply fold_left_ext_in. intros f acc Hf. f_equal. f_equal.
  - unfold Nqs.spin. rewrite flip_sites_notin; [reflexivity|].
    intros Hf1. clear -Hnd Hf Hf1.
    induction F1 as [|x F1 IH]; [destruct Hf1|]. cbn [app] in Hnd.
    inversion Hnd as [|? ? Hx Hnd']; subst. destruct Hf1 as [->|Hf1].
    + apply Hx. apply in_or_app. now right.
    + now apply IH.
  - unfold Nqs.W_at. now rewrite HW.
Qed.

Lemma LogPoP_app wf s F1 F2 :
  Nqs.coherent wf s -> flip_set (Nqs.nv_ wf) (F1 ++ F2) -> length s = Nqs.nv_ wf ->
  Nqs.LogPoP wf s (F1 ++ F2)
  = (Nqs.LogPoP wf s F1
     + Nqs.LogPoP (Nqs.UpdateLt wf s F1) (flip_sites s F1) F2)%C.
Proof.
  intros Hco HF Hs.
  destruct (flip_set_app _ _ _ HF) as (HF1 & HF2 & _).
  destruct (NqsFacts.UpdateLt_params wf s F1) as (HW & Ha & Hb & Hnh & Hnv).
  rewrite (RatioFacts.LogPoP_LogVal wf s (F1 ++ F2) Hco HF Hs).
  rewrite (RatioFacts.LogPoP_LogVal wf s F1 Hco HF1 Hs).
  rewrite (RatioFacts.LogPoP_LogVal (Nqs.UpdateLt wf s F1) (flip_sites s F1) F2).
  - rewrite !(ReverseFacts.LogVal_params wf (Nqs.UpdateLt wf s F1)) by assumption.
    rewrite flip_sites_app. apply CplxFacts.C_eq; simpl; lra.
  - now apply NqsFacts.UpdateLt_coherent.
  - now rewrite Hnv.
  - now rewrite flip_sites_length, Hnv.
Qed.

End ComposeFacts.

(** X25.  On a table of [nh_] entries, [UpdateLt] for a flip set leaves the table that [UpdateLt] for a first part of the list,
    the flip of those sites, and [UpdateLt] for the rest leave: a two-spin
    update is two one-spin updates. *)
Theorem UpdateLt_in_two_steps (wf : Nqs.t) (s : list Z) (flips1 flips2 : list nat) :
  length (Nqs.Lt_ wf) = Nqs.nh_ wf -> flip_set (Nqs.nv_ wf) (flips1 ++ flips2) ->
  length s = Nqs.nv_ wf ->
  Nqs.Lt_ (Nqs.UpdateLt wf s (flips1 ++ flips2))
  = Nqs.Lt_ (Nqs.UpdateLt (Nqs.UpdateLt wf s flips1) (flip_sites s flips1) flips2)
  /\ flip_sites s (flips1 ++ flips2) = flip_sites (flip_sites s flips1) flips2.
Proof.
  intros Hlen [Hnd _] _. split.
  - now apply ComposeFacts.UpdateLt_app.
  - apply ComposeFacts.flip_sites_app.
Qed.

Lemma UpdateLt_in_two_steps_witness :
  let wf := Nqs.InitLt Tiny.wf Tiny.up_down in
  Nqs.Lt_ (Nqs.UpdateLt wf Tiny.up_down ([0%nat] ++ [1%nat]))
  = Nqs.Lt_ (Nqs.UpdateLt (Nqs.UpdateLt wf Tiny.up_down [0%nat])
                          (flip_sites Tiny.up_down [0%nat]) [1%nat])
  /\ flip_sites Tiny.up_down ([0%nat] ++ [1%nat])
     = flip_sites (flip_sites Tiny.up_down [0%nat]) [1%nat].
Proof.
  apply (UpdateLt_in_two_steps (Nqs.InitLt Tiny.wf Tiny.up_down) Tiny.up_down [0%nat] [1%nat]).
  - reflexivity.
  - repeat constructor; simpl; try lia; intuition lia.
  - reflexivity.
Defined.

(** X26.  With a coherent table the amplitude ratio of a move made in two
    steps is the product of the ratios of the steps, the second read off
    the table updated by the first on the configuration flipped by the
    first. *)
Theorem PoP_in_two_steps (wf : Nqs.t) (s : list Z) (flips1 flips2 : list nat) :
  Nqs.coherent wf s -> flip_set (Nqs.nv_ wf) (flips1 ++ flips2) ->
  length s = Nqs.nv_ wf ->
  Nqs.PoP wf s (flips1 ++ flips2)
  = (Nqs.PoP wf s flips1
     * Nqs.PoP (Nqs.UpdateLt wf s flips1) (flip_sites s flips1) flips2)%C.
Proof.
  intros Hco HF Hs. unfold Nqs.PoP.
  rewrite (ComposeFacts.LogPoP_app wf s flips1 flips2 Hco HF Hs).
  apply CplxFacts.cexp_add.
Qed.

Lemma PoP_in_two_steps_witness :
  let wf := Nqs.InitLt Tiny.wf Tiny.up_down in
  Nqs.PoP wf Tiny.up_down ([0%nat] ++ [1%nat])
  = (Nqs.PoP wf Tiny.up_down [0%nat]
     * Nqs.PoP (Nqs.UpdateLt wf Tiny.up_down [0%nat])
               (flip_sites Tiny.up_down [0%nat]) [1%nat])%C.
Proof.
  apply (PoP_in_two_steps (Nqs.InitLt Tiny.wf Tiny.up_down) Tiny.up_down [0%nat] [1%nat]).
  - apply NqsFacts.InitLt_coherent.
  - repeat constructor; simpl; try lia; intuition lia.
  - reflexivity.
Defined.

(** ** From the sweeps to the blocks *)

(** X24.  The check of [Run] on the number of sweeps is what
    [OutputEnergy] needs: a [Run] with valid parameters leaves at least 50
    samples, so that each of the 50 blocks of [OutputEnergy] holds at least
    one sample, the block size being the number of samples over 50, rounded
    down. *)
Theorem Run_fills_the_blocks {G H : Type} {ham : Hamiltonian H}
    (distu_ : G -> R * G) (distn_ : G -> nat * G)
    (s : Sampler.t (G := G) (H := H))
    (nsweeps thermfactor : R) (sweepfactor nflipss : Z) :
  Sampler.valid_parameters s nsweeps thermfactor nflipss ->
  Nat.modulo (Sampler.nspins_ s) 2 = 0%nat ->
  Sampler.fair distn_ (Sampler.nspins_ s) ->
  Sampler.in_range distn_ (Sampler.nspins_ s) ->
  exists fuel0 s',
    (forall fuel, (fuel0 <= fuel)%nat ->
       Sampler.Run distu_ distn_ fuel s nsweeps thermfactor sweepfactor nflipss = Done s') /\
    (50 <= sweep_count nsweeps)%nat /\
    length (Sampler.energy_ s') = (length (Sampler.energy_ s) + sweep_count nsweeps)%nat /\
    Report.nblocks (Sampler.OutputEnergy s') = 50%nat /\
    Report.blocksize (Sampler.OutputEnergy s')
    = ((length (Sampler.energy_ s) + sweep_count nsweeps) / 50)%nat /\
    (1 <= Report.blocksize (Sampler.OutputEnergy s'))%nat.
Proof.
  intros Hvalid Heven Hfair Hrange.
  destruct (Run_completes distu_ distn_ s nsweeps thermfactor sweepfactor nflipss
              Hvalid Heven Hfair Hrange) as (fuel0 & s' & Hrun & Hlen & _).
  exists fuel0, s'. split; [exact Hrun|].
  assert (H50 : (50 <= sweep_count nsweeps)%nat).
  { destruct Hvalid as (_ & _ & Hn).
    assert (Hlt : (49 < sweep_count nsweeps)%nat).
    { apply sweep_count_spec. rewrite INR_IZR_INZ. cbn [Z.of_nat Pos.of_succ_nat Pos.succ]. lra. }
    lia. }
  split; [exact H50|]. split; [exact Hlen|].
  rewrite (EstimatorFacts.OutputEnergy_fields s' _ _ eq_refl eq_refl).
  cbn [Report.nblocks Report.blocksize]. rewrite Hlen.
  split; [reflexivity|]. split; [reflexivity|].
  apply Nat.div_le_lower_bound; lia.
Qed.

Lemma Run_fills_the_blocks_witness :
  exists fuel0 s',
    (forall fuel, (fuel0 <= fuel)%nat ->
       Sampler.Run Tiny.distu_ (Tiny.distn_ 2) fuel Tiny.sampler 100 (1 / 10) 1 (-1)
       = Done s') /\
    (50 <= sweep_count 100)%nat /\
    length (Sampler.energy_ s') = (0 + sweep_count 100)%nat /\
    Report.nblocks (Sampler.OutputEnergy s') = 50%nat /\
    Report.blocksize (Sampler.OutputEnergy s') = ((0 + sweep_count 100) / 50)%nat /\
    (1 <= Report.blocksize (Sampler.OutputEnergy s'))%nat.
Proof.
  apply (Run_fills_the_blocks Tiny.distu_ (Tiny.distn_ 2) Tiny.sampler 100 (1 / 10) 1 (-1)).
  - exact Tiny_sampler_valid.
  - reflexivity.
  - exact Tiny_fair_2.
  - exact Tiny_in_range_2.
Defined.

(** ** The initial configuration without constraint *)

(** X27.  Without the constraint on the magnetization, [InitRandomState]
    always returns, whatever the number of spins and the generator, and
    leaves a configuration of [nspins_] values 1 and -1 after exactly
    [nspins_] draws of a variate and no draw of a site; the wave function,
    the samples and the written configurations are as before. *)
Theorem InitRandomState_unconstrained {G H : Type} {ham : Hamiltonian H}
    (distu_ : G -> R * G) (distn_ : G -> nat * G)
    (s : Sampler.t (G := G) (H := H)) (fuel : nat) :
  exists s1,
    Sampler.InitRandomState distu_ distn_ fuel s false = Done s1 /\
    is_config (Sampler.nspins_ s) (Sampler.state_ s1) /\
    Sampler.nspins_ s1 = Sampler.nspins_ s /\
    Sampler.wf_ s1 = Sampler.wf_ s /\
    Sampler.energy_ s1 = Sampler.energy_ s /\
    Sampler.filestates_ s1 = Sampler.filestates_ s /\
    Sampler.gen_ s1
    = Nat.iter (Sampler.nspins_ s) (fun g => snd (distu_ g)) (Sampler.gen_ s).
Proof.
  unfold Sampler.InitRandomState.
  set (s0 := Sampler.set_state s (vresize (Sampler.state_ s) (Sampler.nspins_ s) 0%Z)).
  assert (Hlen0 : length (Sampler.state_ s0) = Sampler.nspins_ s)
    by (unfold s0; cbn; apply vresize_length).
  destruct (init_spins distu_ s0 (Sampler.nspins_ s0)) as (Hf & Hlen & Hspins).
  { unfold s0 at 1. cbn [Sampler.nspins_ Sampler.set_state]. lia. }
  destruct (init_spins_rest distu_ s0 (seq 0 (Sampler.nspins_ s0))) as [Hwf Hfs].
  assert (Hgen : forall l (s' : Sampler.t (G := G) (H := H)),
             Sampler.gen_
               (fold_left (fun s i =>
                             let '(u, s) := Sampler.Uniform distu_ s in
                             Sampler.set_state s
                               (vset (Sampler.state_ s) i
                                     (if Rlt_dec u (1 / 2) then (-1)%Z else 1%Z)))
                          l s')
             = Nat.iter (length l) (fun g => snd (distu_ g)) (Sampler.gen_ s')).
  { induction l as [|i l IH]; intros s'; [reflexivity|].
    cbn [fold_left length]. rewrite IH, Nat.iter_succ_r. f_equal.
    unfold Sampler.Uniform. destruct (distu_ (Sampler.gen_ s')). reflexivity. }
  specialize (Hgen (seq 0 (Sampler.nspins_ s0)) s0). rewrite length_seq in Hgen.
  cbv zeta in Hf, Hlen, Hspins, Hwf, Hfs.
  set (s2 := fold_left _ (seq 0 (Sampler.nspins_ s0)) s0) in *. clearbody s2.
  exists s2. split; [reflexivity|].
  destruct Hf as (Hn & _ & _ & He).
  split.
  { split; [lia|]. apply (Forall_of_nth _ _ 0%Z). intros i Hi. apply Hspins.
    unfold s0 at 1. cbn [Sampler.nspins_ Sampler.set_state]. lia. }
  split; [exact Hn|]. split; [exact Hwf|]. split; [exact He|]. split; [exact Hfs|exact Hgen].
Qed.
